(** * git-cleanup-merged: the branch-processing core of [src/index.js]

    A shallow embedding of class [GitCleanupTool]: the command executor
    ([execCommand]), the branch classifier ([getBranches]), the PR status
    resolver ([getPRStatus]) and the two worker pools ([checkBranches],
    [deleteBranches]), followed by the properties the design specification
    states about them.

    Conventions.
    - A JavaScript string is a [string]: the bytes of its text in UTF-8.
      White space is what ECMAScript calls so, 25 characters of one to
      three bytes; [null] and [undefined] are [None].
    - An [async] method is a function from what the outside world answers
      to what the method returns or throws ([outcome]); what is thrown is an
      [Error] object.  The methods of the tool are looked up on [this] at
      every call, and the test-suite replaces them; what a method gets from
      a method it calls is therefore a parameter of the caller, while the
      commands the tool's own methods run are recorded on the tool.
    - [execSync] is the one of Node: it returns the standard output of the
      command when it has captured it ([stdio: "pipe"]) and [null] when the
      output went to the terminal ([stdio: "inherit"]).
    - What the tool prints with [console.log] (directly or through the
      spinner) is the [terminal] field; the [execCommand] calls it makes are
      the [calls] field.  The animation of the spinner ([start], [stop],
      [updateMessage]) and [sleep] print no line and are left out. *)

From Stdlib Require Import Ascii String.
From stdpp Require Import gmap strings list fin_maps pretty.

Local Open Scope string_scope.

(** ** JavaScript strings *)

Module JsString.

(** The string whose bytes have these codes. *)
Definition utf8 (codes : list N) : string :=
  fold_right (λ n s, String (Ascii.ascii_of_N n) s) EmptyString codes.

(** The characters ECMAScript's [WhiteSpace] and [LineTerminator]
    productions list, each as its bytes in UTF-8: TAB, LF, VT, FF, CR,
    SPACE, U+00A0, U+1680, U+2000 to U+200A, U+2028, U+2029, U+202F,
    U+205F, U+3000 and U+FEFF.  They are what [String.prototype.trim]
    strips and what the character class [\s] matches. *)
Definition WHITE_SPACE : list string :=
  utf8 <$> [[9]; [10]; [11]; [12]; [13]; [32]; [194; 160]; [225; 154; 128];
            [226; 128; 128]; [226; 128; 129]; [226; 128; 130]; [226; 128; 131];
            [226; 128; 132]; [226; 128; 133]; [226; 128; 134]; [226; 128; 135];
            [226; 128; 136]; [226; 128; 137]; [226; 128; 138];
            [226; 128; 168]; [226; 128; 169]; [226; 128; 175]; [226; 129; 159];
            [227; 128; 128]; [239; 187; 191]]%N.

(** What follows the prefix [p] of [s]. *)
Fixpoint strip_prefix (p s : string) : option string :=
  match p, s with
  | EmptyString, _ => Some s
  | String a p', String b s' => if Ascii.eqb a b then strip_prefix p' s' else None
  | String _ _, EmptyString => None
  end.

(** The white-space character [s] starts with, and what follows it. *)
Definition white_space (s : string) : option (string * string) :=
  head (omap (λ w, pair w <$> strip_prefix w s) WHITE_SPACE).

Definition LF : ascii := Ascii.ascii_of_N 10.
Definition ESC : ascii := Ascii.ascii_of_N 27.
Definition DQUOTE : string := String (Ascii.ascii_of_N 34) EmptyString.

(** A pass over the characters of [s] from the right: [space w rest a]
    for a white-space character [w] followed by [rest], [byte c rest a]
    for any other byte, [a] being the result for [rest].  A white-space
    character has one, two or three bytes, and [rest] starts after them. *)
Fixpoint fold_characters {A : Type} (space : string → string → A → A)
    (byte : ascii → string → A → A) (empty : A) (s : string) : A :=
  match s with
  | EmptyString => empty
  | String c s1 =>
      match white_space s with
      | None => byte c s1 (fold_characters space byte empty s1)
      | Some (w, _) =>
          match String.length w, s1 with
          | 3, String _ (String _ s3) => space w s3 (fold_characters space byte empty s3)
          | 2, String _ s2 => space w s2 (fold_characters space byte empty s2)
          | _, _ => space w s1 (fold_characters space byte empty s1)
          end
      end
  end.

(** [s.trimStart()] *)
Definition trimStart : string → string :=
  fold_characters (λ _ _ trimmed, trimmed) (λ c rest _, String c rest) EmptyString.

(** [s] is made of white space only. *)
Definition blank : string → bool :=
  fold_characters (λ _ _ b, b) (λ _ _ _, false) true.

(** [s.trimEnd()] *)
Definition trimEnd : string → string :=
  fold_characters (λ w rest trimmed, if blank rest then EmptyString else w ++ trimmed)
    (λ c _ trimmed, String c trimmed) EmptyString.

(** [s.trim()] *)
Definition trim (s : string) : string := trimEnd (trimStart s).

(** [c] is put in front of the first piece of a split. *)
Definition cons_head (c : ascii) (pieces : list string) : list string :=
  match pieces with
  | [] => [String c EmptyString]
  | p :: ps => String c p :: ps
  end.

(** [s.split(sep)] for a separator of one character. *)
Fixpoint split_char (sep : ascii) (s : string) : list string :=
  match s with
  | EmptyString => [EmptyString]
  | String c s' =>
      if Ascii.eqb c sep then EmptyString :: split_char sep s'
      else cons_head c (split_char sep s')
  end.

Definition starts_with_space (s : string) : bool :=
  match white_space s with
  | Some _ => true
  | None => false
  end.

(** [s.split(/\s+/)]: the separators are the maximal runs of white space;
    a run at either end leaves an empty piece there. *)
Definition split_ws : string → list string :=
  fold_characters
    (λ _ rest pieces, if starts_with_space rest then pieces else EmptyString :: pieces)
    (λ c _ pieces, cons_head c pieces) [EmptyString].

(** [pieces.join(sep)] *)
Fixpoint join (sep : string) (pieces : list string) : string :=
  match pieces with
  | [] => EmptyString
  | [p] => p
  | p :: ps => p ++ sep ++ join sep ps
  end.

(** [a.includes(x)] on an array of strings *)
Definition includes (a : list string) (x : string) : bool :=
  existsb (String.eqb x) a.

Definition lower (c : ascii) : ascii :=
  let n := Ascii.N_of_ascii c in
  if ((65 <=? n) && (n <=? 90))%N then Ascii.ascii_of_N (n + 32) else c.

(** [s.toLowerCase()] on the letters A to Z *)
Fixpoint toLowerCase (s : string) : string :=
  match s with
  | EmptyString => EmptyString
  | String c s' => String (lower c) (toLowerCase s')
  end.

End JsString.

Import JsString.

(** ** Values, errors and the tool object *)

(** The object a failed [execSync] throws: an [Error] with the [code] and
    [signal] properties of the child process. *)
Record js_error := JsError {
  message : string;
  code : option string;
  signal : option string
}.

(** How a call ends: with a value, or with a thrown error (a rejected
    promise for an [async] method). *)
Inductive outcome (A : Type) : Type :=
| Returns (a : A)
| Throws (e : js_error).
Arguments Returns {A} a.
Arguments Throws {A} e.

(** The [options] argument of [execCommand]; an absent key is [false] or
    [None]. *)
Record exec_options := ExecOptions {
  silent : bool;
  timeout : option N
}.

(** The options object [execCommand] hands to [execSync]. *)
Record sync_options := SyncOptions {
  encoding : string;
  stdio : string;
  sync_timeout : N;
  sync_silent : bool
}.

Record branch_result := BranchResult {
  branch : string;
  icon : string;
  label : string
}.

Record tool := Tool {
  dryRun : bool;
  verbose : bool;
  untrackedOnly : bool;
  countOnly : bool;
  branchesToDelete : list string;
  prResults : list (option branch_result);
  currentBranch : string;
  terminal : list string;
  calls : list (string * exec_options)
}.

(** [new GitCleanupTool()] *)
Definition new_tool : tool :=
  {| dryRun := false; verbose := false; untrackedOnly := false; countOnly := false;
     branchesToDelete := []; prResults := []; currentBranch := EmptyString;
     terminal := []; calls := [] |}.

Definition console_log (line : string) (t : tool) : tool :=
  {| dryRun := dryRun t; verbose := verbose t; untrackedOnly := untrackedOnly t;
     countOnly := countOnly t; branchesToDelete := branchesToDelete t;
     prResults := prResults t; currentBranch := currentBranch t;
     terminal := terminal t ++ [line]; calls := calls t |}.

Definition record_call (command : string) (options : exec_options) (t : tool) : tool :=
  {| dryRun := dryRun t; verbose := verbose t; untrackedOnly := untrackedOnly t;
     countOnly := countOnly t; branchesToDelete := branchesToDelete t;
     prResults := prResults t; currentBranch := currentBranch t;
     terminal := terminal t; calls := calls t ++ [(command, options)] |}.

Definition set_results (results : list (option branch_result)) (to_delete : list string)
    (t : tool) : tool :=
  {| dryRun := dryRun t; verbose := verbose t; untrackedOnly := untrackedOnly t;
     countOnly := countOnly t; branchesToDelete := to_delete;
     prResults := results; currentBranch := currentBranch t;
     terminal := terminal t; calls := calls t |}.

(** ** The spinner ([src/utils/spinner.js]) *)

Module Colors.
Definition green : string := String ESC "[32m".
Definition red : string := String ESC "[31m".
Definition yellow : string := String ESC "[33m".
Definition blue : string := String ESC "[34m".
Definition reset : string := String ESC "[0m".
End Colors.

Module Spinner.
Definition success_line (msg : string) : string :=
  Colors.green ++ "✅ " ++ msg ++ Colors.reset.
Definition error_line (msg : string) : string :=
  Colors.red ++ "❌ " ++ msg ++ Colors.reset.
Definition warning_line (msg : string) : string :=
  Colors.yellow ++ "⚠️  " ++ msg ++ Colors.reset.
Definition info_line (msg : string) : string :=
  Colors.blue ++ "ℹ️  " ++ msg ++ Colors.reset.
Definition debug_line (msg : string) : string :=
  Colors.blue ++ "🔍 DEBUG: " ++ msg ++ Colors.reset.
Definition log_line (msg color : string) : string :=
  color ++ msg ++ Colors.reset.

Definition success (msg : string) : tool → tool := console_log (success_line msg).
Definition error (msg : string) : tool → tool := console_log (error_line msg).
Definition warning (msg : string) : tool → tool := console_log (warning_line msg).
Definition info (msg : string) : tool → tool := console_log (info_line msg).
Definition debug (msg : string) (verbose : bool) (t : tool) : tool :=
  if verbose then console_log (debug_line msg) t else t.
Definition log (msg color : string) : tool → tool := console_log (log_line msg color).
End Spinner.

(** ** The command executor *)

Definition TIMEOUT : string := "__TIMEOUT__".

Section CommandExecutor.

(** The command as the operating system runs it: its standard output, or
    the error of a command that failed or was killed at its deadline. *)
Variable child : string → sync_options → outcome string.

(** [child_process.execSync]: it returns the standard output it has
    captured, or throws the error of the command.  The output is captured
    with [stdio: "pipe"]; with [stdio: "inherit"] it goes to the terminal
    of the parent process and [execSync] returns [null]. *)
Definition execSync (command : string) (options : sync_options)
    : outcome (option string) :=
  match child command options with
  | Returns stdout =>
      Returns (if String.eqb (stdio options) "pipe" then Some stdout else None)
  | Throws error => Throws error
  end.

(** The [TypeError] of [result.trim()] when [result] is [null]. *)
Definition null_trim_error : js_error :=
  {| message := "Cannot read properties of null (reading 'trim')";
     code := None; signal := None |}.

Definition is_timeout (e : js_error) : bool :=
  bool_decide (code e = Some "ETIMEDOUT") || bool_decide (signal e = Some "SIGTERM").

(** The object literal [{ encoding, stdio, timeout, ...options }] given
    to [execSync]: [timeout] is [options.timeout || 30000], and a
    [timeout] key of [options] replaces it in the spread. *)
Definition execSync_options (options : exec_options) : sync_options :=
  let timeout_ms :=
    match timeout options with
    | Some 0%N | None => 30000%N
    | Some ms => ms
    end in
  {| encoding := "utf8";
     stdio := if silent options then "pipe" else "inherit";
     sync_timeout := match timeout options with Some ms => ms | None => timeout_ms end;
     sync_silent := silent options |}.

(** The [catch] block of [execCommand]. *)
Definition execCommand_catch (options : exec_options) (error : js_error)
    : outcome (option string) :=
  if negb (silent options) then Throws error
  else if is_timeout error then Returns (Some TIMEOUT)
  else Returns None.

(** [execCommand]: [result.trim()] is inside the [try] block, so what it
    throws on [null] is caught like an error of the command. *)
Definition execCommand (command : string) (options : exec_options)
    : outcome (option string) :=
  match execSync command (execSync_options options) with
  | Returns (Some result) => Returns (Some (trim result))
  | Returns None => execCommand_catch options null_trim_error
  | Throws error => execCommand_catch options error
  end.

End CommandExecutor.

(** ** The branch classifier *)

Definition list_branches_command : string :=
  "git for-each-ref --format=" ++ DQUOTE ++ "%(refname:short) %(upstream:short)"
    ++ DQUOTE ++ " refs/heads/".

Definition silently : exec_options := {| silent := true; timeout := None |}.

Section BranchClassifier.

(** [this.execCommand] *)
Variable execCommand : string → exec_options → outcome (option string).

Definition PROTECTED (t : tool) : list string := ["main"; "master"; currentBranch t].

(** The body of the [for] loop of [getBranches]. *)
Definition visit (mode : string) (t : tool) (result : list string) (line : string)
    : list string :=
  let parts := split_ws line in
  let branchName := hd EmptyString parts in
  let upstream := join " " (tl parts) in
  if includes (PROTECTED t) branchName then result
  else
    let isTracked :=
      negb (String.eqb upstream EmptyString)
      && negb (String.eqb (trim upstream) EmptyString) in
    if String.eqb mode "tracked" && isTracked then result ++ [branchName]
    else if String.eqb mode "untracked" && negb isTracked then result ++ [branchName]
    else if String.eqb mode "all" then result ++ [branchName]
    else result.

Definition branchLines (branches : string) : list string :=
  trim <$> filter (λ line, trim line ≠ EmptyString) (split_char LF branches).

Definition getBranches (mode : string) (t : tool) : list string * tool :=
  let t := record_call list_branches_command silently t in
  match execCommand list_branches_command silently with
  | Returns None =>
      ([], Spinner.error ("Failed to get " ++ mode ++ " branches") t)
  | Returns (Some branches) =>
      if String.eqb branches TIMEOUT
      then ([], Spinner.error ("Failed to get " ++ mode ++ " branches (timeout)") t)
      else (fold_left (visit mode t) (branchLines branches) [], t)
  | Throws _ =>
      ([], Spinner.error ("Failed to get " ++ mode ++ " branches") t)
  end.

Definition getLocalBranches : tool → list string * tool := getBranches "all".
Definition getTrackedBranches : tool → list string * tool := getBranches "tracked".
Definition getUntrackedBranches : tool → list string * tool := getBranches "untracked".

(** ** The PR status resolver *)

Definition pr_view_command (branch : string) : string :=
  "gh pr view " ++ DQUOTE ++ branch ++ DQUOTE ++ " --json state --jq .state".

Definition pr_view_options : exec_options :=
  {| silent := true; timeout := Some 10000%N |}.

Definition getPRStatus (branch : string) (t : tool) : outcome (option string) * tool :=
  let t := record_call (pr_view_command branch) pr_view_options t in
  match execCommand (pr_view_command branch) pr_view_options with
  | Returns state => (Returns state, t)
  | Throws _ => (Returns None, t)
  end.

End BranchClassifier.

(** ** The worker pool

    [checkBranches] and [deleteBranches] run the same loop in several
    [async] workers:
<<
      while (true) {
        const i = next();  if (i === null) break;   // claim
        ... await the command for unit i ...         // settle
        ... await the end of unit i ...              // resume
      }
>>
    JavaScript runs one worker at a time and changes worker only at an
    [await], so a run is a sequence of turns.  A turn takes one pending
    worker from one [await] to its next one; which worker is taken is the
    order in which the awaited promises complete, and the schedule (a list
    of choices among the pending workers) stands for it. *)

Module WorkerPool.

Inductive worker : Type :=
| Awaiting (i : nat)   (* the command of unit [i] is running *)
| Settled (i : nat)    (* unit [i] is processed, the worker has not looped yet *)
| Finished.            (* the loop has ended *)

Global Instance worker_eq_dec : EqDecision worker.
Proof. solve_decision. Defined.

Section Pool.
Context {St : Type}.

(** The number of work units, and what a worker does to the shared
    variables when it claims, settles and resumes unit [i]. *)
Variable total : nat.
Variables on_claim on_settle on_resume : nat → St → St.

Record pool := Pool {
  next : nat;               (* the shared index *)
  workers : list worker;    (* the [workers] array *)
  shared : St               (* the variables the workers share *)
}.

(** The head of the loop up to its first [await]: claim the next index
    ([getNextBranchIndex], [getNextDeleteBranch]) and start on it, or
    break. *)
Definition enter (n : nat) (s : St) : worker * nat * St :=
  if decide (total ≤ n)%nat then (Finished, n, s)
  else (Awaiting n, n + 1, on_claim n s).

(** [Array(W).fill(null).map(() => worker())] *)
Fixpoint spawn (W : nat) (p : pool) : pool :=
  match W with
  | 0 => p
  | S W' =>
      let '(w, n, s) := enter (next p) (shared p) in
      spawn W' {| next := n; workers := workers p ++ [w]; shared := s |}
  end.

(** Worker [k] runs from the [await] it is at to its next one. *)
Definition turn (k : nat) (p : pool) : pool :=
  match workers p !! k with
  | Some (Awaiting i) =>
      {| next := next p; workers := <[k := Settled i]> (workers p);
         shared := on_settle i (shared p) |}
  | Some (Settled i) =>
      let '(w, n, s) := enter (next p) (on_resume i (shared p)) in
      {| next := n; workers := <[k := w]> (workers p); shared := s |}
  | Some Finished | None => p
  end.

(** The workers that are at an [await]. *)
Definition pending (ws : list worker) : list nat :=
  filter (λ k, ws !! k ≠ Some Finished) (seq 0 (length ws)).

Fixpoint run (fuel : nat) (schedule : list nat) (p : pool) : pool :=
  match fuel with
  | 0 => p
  | S fuel' =>
      let ready := pending (workers p) in
      match ready !! (hd 0 schedule `mod` length ready) with
      | Some k => run fuel' (tl schedule) (turn k p)
      | None => p
      end
  end.

(** [await Promise.all(workers)]: the promise of a worker is fulfilled
    when its loop has ended. *)
Definition all_fulfilled (p : pool) : bool :=
  bool_decide (Forall (λ w, w = Finished) (workers p)).

(** Each unit takes two turns. *)
Definition execute (W : nat) (schedule : list nat) (s : St) : pool :=
  run (2 * total) schedule (spawn W {| next := 0; workers := []; shared := s |}).

End Pool.

Arguments pool : clear implicits.
Arguments Pool {St} next workers shared.

End WorkerPool.

Import WorkerPool.

(** ** The concurrent batch processor *)

Definition CONCURRENCY_LIMIT : nat := 5.

(** The variables of [checkBranches] its workers share. *)
Record check_state := CheckState {
  resultsMap : gmap string branch_result;
  branchesToDeleteSync : list string;
  check_tool : tool                      (* [this] *)
}.

Definition resultsMap_set (key : string) (r : branch_result) (s : check_state)
    : check_state :=
  {| resultsMap := <[key := r]> (resultsMap s);
     branchesToDeleteSync := branchesToDeleteSync s;
     check_tool := check_tool s |}.

Definition addBranchToDelete (b : string) (s : check_state) : check_state :=
  {| resultsMap := resultsMap s;
     branchesToDeleteSync := branchesToDeleteSync s ++ [b];
     check_tool := check_tool s |}.

Definition check_debug (msg : string) (s : check_state) : check_state :=
  {| resultsMap := resultsMap s;
     branchesToDeleteSync := branchesToDeleteSync s;
     check_tool := Spinner.debug msg (verbose (check_tool s)) (check_tool s) |}.

(** The [switch] of [processBranch]: icon, label, and whether the branch is
    handed to [addBranchToDelete]. *)
Definition classify (prStatus : option string) : string * string * bool :=
  match prStatus with
  | Some status =>
      if String.eqb status "MERGED" then ("✅", "Merged", true)
      else if String.eqb status "CLOSED" then ("🔒", "Closed", true)
      else if String.eqb status "OPEN" then ("⏳", "Open", false)
      else if String.eqb status "__TIMEOUT__" then ("❓", "Timeout", false)
      else ("❌", "No PR", false)
  | None => ("❌", "No PR", false)
  end.

Definition error_result (b : string) : branch_result :=
  {| branch := b; icon := "⚠️"; label := "Error" |}.

Section CheckBranches.

(** [branches], and what [await this.getPRStatus(branches[i])] gives in
    [processBranch(i)]. *)
Variable branches : list string.
Variable getPRStatus_at : nat → outcome (option string).

Definition branch_at (i : nat) : string := default EmptyString (branches !! i).

Definition progress (i : nat) : string :=
  "Checking branch " ++ pretty (i + 1) ++ "/" ++ pretty (length branches) ++ ": "
    ++ branch_at i.

(** [processBranch(i)] up to its [await]: [this.getPRStatus(branch)] has
    run to its own [await], where its [execCommand] call is made. *)
Definition processBranch_claim (i : nat) (s : check_state) : check_state :=
  {| resultsMap := resultsMap s;
     branchesToDeleteSync := branchesToDeleteSync s;
     check_tool := record_call (pr_view_command (branch_at i)) pr_view_options
                     (check_tool s) |}.

(** [processBranch(i)] after its [await]. *)
Definition processBranch_settle (i : nat) (s : check_state) : check_state :=
  match getPRStatus_at i with
  | Returns prStatus =>
      let b := branch_at i in
      let s :=
        if verbose (check_tool s)
        then check_debug (progress i ++ " -> PR state: "
                            ++ match prStatus with
                               | Some st => if String.eqb st EmptyString then "unknown" else st
                               | None => "unknown"
                               end) s
        else s in
      let '(icon, label, deletable) := classify prStatus in
      let s := if deletable then addBranchToDelete b s else s in
      resultsMap_set b {| branch := b; icon := icon; label := label |} s
  | Throws _ => s
  end.

(** [fluidWorker] after [await processBranch(i)]: the [catch] block. *)
Definition fluidWorker_resume (i : nat) (s : check_state) : check_state :=
  match getPRStatus_at i with
  | Returns _ => s
  | Throws error =>
      let b := branch_at i in
      let s := resultsMap_set b (error_result b) s in
      if verbose (check_tool s)
      then check_debug ("Error checking '" ++ b ++ "': " ++ message error) s
      else s
  end.

Definition check_pool (schedule : list nat) (t : tool) : pool check_state :=
  execute (length branches) processBranch_claim processBranch_settle fluidWorker_resume
    (Nat.min CONCURRENCY_LIMIT (length branches)) schedule
    {| resultsMap := ∅; branchesToDeleteSync := []; check_tool := t |}.

(** [checkBranches] from the line after
    [const branches = await this.getTrackedBranches()]. *)
Definition checkBranches_on (schedule : list nat) (t : tool) : tool :=
  if decide (length branches = 0) then
    Spinner.info "You might want to use --untracked-only to see local-only branches."
      (Spinner.warning "No tracked branches found to check." t)
  else
    let s := shared (check_pool schedule t) in
    let t := set_results ((λ b, resultsMap s !! b) <$> branches)
               (branchesToDeleteSync s) (check_tool s) in
    console_log EmptyString
      (Spinner.success ("Finished checking " ++ pretty (length branches)
                          ++ " tracked branches") t).

End CheckBranches.

Definition checkBranches (getTrackedBranches : tool → list string * tool)
    (getPRStatus_at : nat → outcome (option string)) (schedule : list nat) (t : tool)
    : tool :=
  let '(branches, t) := getTrackedBranches t in
  checkBranches_on branches getPRStatus_at schedule t.

(** ** The deletion batch processor *)

Definition DELETE_CONCURRENCY : nat := 3.

(** The variables of [deleteBranches] its workers share. *)
Record delete_state := DeleteState {
  deletedCount : nat;
  failedBranchesSync : list string;
  delete_tool : tool                     (* [this] *)
}.

Definition addFailedBranch (b line : string) (s : delete_state) : delete_state :=
  {| deletedCount := deletedCount s;
     failedBranchesSync := failedBranchesSync s ++ [b];
     delete_tool := Spinner.log line Colors.red (delete_tool s) |}.

Definition incrementDeletedCount (line : string) (s : delete_state) : delete_state :=
  {| deletedCount := deletedCount s + 1;
     failedBranchesSync := failedBranchesSync s;
     delete_tool := Spinner.log line Colors.green (delete_tool s) |}.

Definition delete_command (b : string) : string :=
  "git branch -d " ++ DQUOTE ++ b ++ DQUOTE.

(** [this.prResults.find((r) => r.branch === b)]; reading [.branch] of an
    [undefined] entry throws. *)
Fixpoint find_result (b : string) (results : list (option branch_result))
    : outcome (option branch_result) :=
  match results with
  | [] => Returns None
  | None :: _ =>
      Throws {| message := "Cannot read properties of undefined (reading 'branch')";
                code := None; signal := None |}
  | Some r :: rest =>
      if String.eqb (branch r) b then Returns (Some r) else find_result b rest
  end.

(** The [forEach] that lists the candidates with their icons. *)
Fixpoint list_candidates (candidates : list string) (t : tool) : outcome tool :=
  match candidates with
  | [] => Returns t
  | b :: rest =>
      match find_result b (prResults t) with
      | Returns result =>
          let icon := match result with Some r => icon r | None => "🗑️" end in
          list_candidates rest (Spinner.log ("  " ++ icon ++ " " ++ b) Colors.red t)
      | Throws e => Throws e
      end
  end.

(** [askConfirmation] resolves to this for the line the user types. *)
Definition askConfirmation (answer : string) : bool :=
  String.eqb (toLowerCase answer) "y" || String.eqb (toLowerCase answer) "yes".

Section DeleteBranches.

(** The line typed at the prompt, and what
    [await this.execCommand(`git branch -d "${branch}"`, ...)] gives for
    candidate [i]. *)
Variable answer : string.
Variable execCommand_at : nat → outcome (option string).

Section Workers.
Variable branchesToDeleteCopy : list string.

Definition candidate_at (i : nat) : string :=
  default EmptyString (branchesToDeleteCopy !! i).

(** [deletionWorker] up to [await this.execCommand(...)]. *)
Definition deletionWorker_claim (i : nat) (s : delete_state) : delete_state :=
  {| deletedCount := deletedCount s;
     failedBranchesSync := failedBranchesSync s;
     delete_tool := record_call (delete_command (candidate_at i)) silently (delete_tool s) |}.

(** [deletionWorker] from the result of the command to
    [await this.sleep(50)]. *)
Definition deletionWorker_settle (i : nat) (s : delete_state) : delete_state :=
  let b := candidate_at i in
  match execCommand_at i with
  | Returns (Some result) =>
      if String.eqb result TIMEOUT
      then addFailedBranch b ("❌ Failed to delete branch " ++ b ++ " (timeout)") s
      else incrementDeletedCount ("✅ Deleted branch " ++ b) s
  | Returns None => addFailedBranch b ("❌ Failed to delete branch " ++ b) s
  | Throws _ => addFailedBranch b ("❌ Failed to delete branch " ++ b) s
  end.

Definition delete_pool (schedule : list nat) (t : tool) : pool delete_state :=
  execute (length branchesToDeleteCopy)
    deletionWorker_claim deletionWorker_settle (λ _ s, s)
    (Nat.min DELETE_CONCURRENCY (length branchesToDeleteCopy)) schedule
    {| deletedCount := 0; failedBranchesSync := []; delete_tool := t |}.

End Workers.

(** The final status of a deletion run. *)
Definition delete_summary (s : delete_state) : tool :=
  if decide (length (failedBranchesSync s) = 0) then
    Spinner.success ("Successfully deleted " ++ pretty (deletedCount s) ++ " branches")
      (delete_tool s)
  else
    fold_left (λ t b, Spinner.log ("  Failed: " ++ b) Colors.red t)
      (failedBranchesSync s)
      (Spinner.warning ("Deleted " ++ pretty (deletedCount s) ++ " branches, "
                          ++ pretty (length (failedBranchesSync s)) ++ " failed")
         (delete_tool s)).

Definition deleteBranches (schedule : list nat) (t : tool) : outcome tool :=
  if decide (length (branchesToDelete t) = 0) then
    Returns (if untrackedOnly t
             then Spinner.warning "No untracked local branches found." t
             else Spinner.warning "No branches with merged or closed PRs found." t)
  else
    let t := console_log EmptyString t in
    let t :=
      if dryRun t then Spinner.warning "DRY RUN — branches eligible for deletion:" t
      else if untrackedOnly t
      then Spinner.error "The following untracked local branches will be deleted:" t
      else Spinner.error
             "The following branches have merged or closed PRs and will be deleted:" t in
    match list_candidates (branchesToDelete t) t with
    | Throws e => Throws e
    | Returns t =>
        if dryRun t then
          Returns (if untrackedOnly t
                   then Spinner.info
                          "Run without --dry-run to actually delete untracked branches." t
                   else Spinner.info "Run without --dry-run to actually delete them." t)
        else if askConfirmation answer then
          let t := console_log EmptyString t in
          Returns (delete_summary (shared (delete_pool (branchesToDelete t) schedule t)))
        else Returns (Spinner.info "Cancelled." t)
    end.

End DeleteBranches.

(** * Properties *)

(** ** Counting in lists *)

Local Open Scope list_scope.
Local Open Scope nat_scope.

Section Tally.
Context {A : Type}.

Definition tally (f : A → nat) (l : list A) : nat := sum_list_with f l.

Lemma tally_app f (l1 l2 : list A) : tally f (l1 ++ l2) = tally f l1 + tally f l2.
Proof. apply sum_list_with_app. Qed.

Lemma tally_snoc f (l : list A) x : tally f (l ++ [x]) = tally f l + f x.
Proof. rewrite tally_app. unfold tally. simpl. lia. Qed.

Lemma tally_insert f (l : list A) k x y :
  l !! k = Some x →
  tally f (<[k:=y]> l) + f x = tally f l + f y.
Proof.
  revert k. induction l as [|a l IH]; intros [|k] Hk; simplify_eq/=.
  - unfold tally. simpl. lia.
  - specialize (IH k Hk). unfold tally in *. simpl. lia.
Qed.

Lemma tally_lookup_le f (l : list A) k x : l !! k = Some x → f x ≤ tally f l.
Proof.
  revert k. induction l as [|a l IH]; intros [|k] Hk; simplify_eq/=.
  - unfold tally. simpl. lia.
  - specialize (IH k Hk). unfold tally in *. simpl. lia.
Qed.

Lemma tally_zero f (l : list A) : Forall (λ x, f x = 0) l → tally f l = 0.
Proof.
  induction 1 as [|x l Hx _ IH]; [done|]. unfold tally in *. simpl. lia.
Qed.

Context `{EqDecision A}.

Definition hits (x y : A) : nat := if decide (x = y) then 1 else 0.

End Tally.

Lemma tally_hits_seq (j n : nat) :
  tally (hits j) (seq 0 n) = if decide (j < n) then 1 else 0.
Proof.
  induction n as [|n IH].
  - by case_decide; [lia|].
  - rewrite seq_S, tally_snoc, IH. unfold hits. simpl.
    repeat case_decide; lia.
Qed.

(** Two lists of numbers with the same counts are permutations. *)
Lemma tally_Permutation (l1 l2 : list nat) :
  (∀ j, tally (hits j) l1 = tally (hits j) l2) → l1 ≡ₚ l2.
Proof.
  intros H. apply (Permutation_count_occ Nat.eq_dec). intros j.
  assert (Hc : ∀ l, count_occ Nat.eq_dec l j = tally (hits j) l).
  { induction l as [|a l IH]; [done|]. simpl. unfold tally, hits in *. simpl.
    destruct (Nat.eq_dec a j); case_decide; try lia; congruence. }
  by rewrite !Hc.
Qed.

(** ** The worker pool: every unit is claimed, settled and resumed once *)

Module PoolTheory.

(** What the workers do, in the order they do it. *)
Inductive event : Type :=
| Claim (i : nat)
| Settle (i : nat)
| Resume (i : nat).

Definition claims (tr : list event) : list nat :=
  omap (λ e, match e with Claim i => Some i | _ => None end) tr.
Definition settles (tr : list event) : list nat :=
  omap (λ e, match e with Settle i => Some i | _ => None end) tr.
Definition resumes (tr : list event) : list nat :=
  omap (λ e, match e with Resume i => Some i | _ => None end) tr.

(** The number of turns a worker still takes for the unit it holds. *)
Definition weight (w : worker) : nat :=
  match w with
  | Awaiting _ => 2
  | Settled _ => 1
  | Finished => 0
  end.

Section Theory.
Context {St : Type}.
Variable total : nat.
Variables on_claim on_settle on_resume : nat → St → St.

Definition handle (s : St) (e : event) : St :=
  match e with
  | Claim i => on_claim i s
  | Settle i => on_settle i s
  | Resume i => on_resume i s
  end.

(** The shared variables after the events of [tr]. *)
Definition replay (tr : list event) (s : St) : St := fold_left handle tr s.

Lemma replay_snoc tr e s : replay (tr ++ [e]) s = handle (replay tr s) e.
Proof. unfold replay. by rewrite fold_left_app. Qed.

Local Abbreviation pool := (pool St).
Local Abbreviation enter := (enter total on_claim).
Local Abbreviation spawn := (spawn total on_claim).
Local Abbreviation turn := (turn total on_claim on_settle on_resume).
Local Abbreviation run := (run total on_claim on_settle on_resume).

Definition below (j n : nat) : nat := if decide (j < n) then 1 else 0.

(** The turns the pool still takes. *)
Definition remaining (p : pool) : nat :=
  2 * (total - next p) + tally weight (workers p).

(** [tr] is a history of [p] from the shared variables [s0]. *)
Record history (s0 : St) (p : pool) (tr : list event) : Prop := {
  h_shared : shared p = replay tr s0;
  h_claims : claims tr = seq 0 (next p);
  h_bound : next p ≤ total;
  h_settles : ∀ j,
    tally (hits j) (settles tr) + tally (hits (Awaiting j)) (workers p)
    = below j (next p);
  h_resumes : ∀ j,
    tally (hits j) (resumes tr) + tally (hits (Awaiting j)) (workers p)
      + tally (hits (Settled j)) (workers p)
    = below j (next p);
  h_finished : Finished ∈ workers p → total ≤ next p
}.

Lemma enter_cases n s :
  (total ≤ n ∧ enter n s = (Finished, n, s))
  ∨ (n < total ∧ enter n s = (Awaiting n, n + 1, on_claim n s)).
Proof. unfold WorkerPool.enter. case_decide; [left | right]; split; (done || lia). Qed.

Ltac count :=
  unfold below, hits in *; simpl in *;
  repeat case_decide; simplify_eq;
  repeat match goal with
    | H : Awaiting ?a ≠ Awaiting ?b |- _ => assert (a ≠ b) by congruence; clear H
    | H : Settled ?a ≠ Settled ?b |- _ => assert (a ≠ b) by congruence; clear H
    end;
  try lia; try congruence.

Lemma history_start s0 : history s0 {| next := 0; workers := []; shared := s0 |} [].
Proof. split; simpl; try done; [lia | by intros ?%elem_of_nil]. Qed.

Lemma spawn_history s0 W p tr :
  history s0 p tr →
  ∃ tr', history s0 (spawn W p) tr'
       ∧ length (workers (spawn W p)) = length (workers p) + W
       ∧ remaining (spawn W p) = remaining p.
Proof.
  revert p tr. induction W as [|W IH]; intros p tr H.
  { exists tr. split; [done|]. split; [simpl; lia | done]. }
  simpl. destruct H as [Hs Hc Hb Hse Hre Hf].
  destruct (enter_cases (next p) (shared p)) as [[Hn ->]|[Hn ->]].
  - edestruct (IH {| next := next p; workers := workers p ++ [Finished];
                     shared := shared p |} tr) as (tr' & H' & Hlen & Hrem).
    { split; simpl; try done.
      - intros j. rewrite tally_snoc. specialize (Hse j). count.
      - intros j. rewrite !tally_snoc. specialize (Hre j). count. }
    exists tr'. split; [done|]. split.
    + rewrite Hlen. simpl. rewrite length_app. simpl. lia.
    + rewrite Hrem. unfold remaining. simpl. rewrite tally_snoc. simpl. lia.
  - edestruct (IH {| next := next p + 1; workers := workers p ++ [Awaiting (next p)];
                     shared := on_claim (next p) (shared p) |}
                 (tr ++ [Claim (next p)])) as (tr' & H' & Hlen & Hrem).
    { split; simpl.
      - by rewrite replay_snoc, Hs.
      - unfold claims in *. rewrite omap_app, Hc. simpl.
        by rewrite Nat.add_1_r, seq_S.
      - lia.
      - intros j. unfold settles in *. rewrite omap_app. simpl. rewrite app_nil_r.
        rewrite tally_snoc. specialize (Hse j). count.
      - intros j. unfold resumes in *. rewrite omap_app. simpl. rewrite app_nil_r.
        rewrite !tally_snoc. specialize (Hre j). count.
      - intros [Hin|Hin%list_elem_of_singleton]%elem_of_app; [|done].
        specialize (Hf Hin). lia. }
    exists tr'. split; [done|]. split.
    + rewrite Hlen. simpl. rewrite length_app. simpl. lia.
    + rewrite Hrem. unfold remaining. simpl. rewrite tally_snoc. simpl. lia.
Qed.

Lemma elem_of_insert_inv (ws : list worker) k w x :
  x ∈ <[k:=w]> ws → x = w ∨ x ∈ ws.
Proof.
  intros (i & Hi)%list_elem_of_lookup.
  destruct (decide (i = k)) as [->|Hne].
  - destruct (decide (k < length ws)).
    + rewrite list_lookup_insert_eq in Hi by done. left. congruence.
    + rewrite list_insert_ge in Hi by lia. right. by eapply list_elem_of_lookup_2.
  - rewrite list_lookup_insert_ne in Hi by done. right.
    by eapply list_elem_of_lookup_2.
Qed.

Lemma turn_history s0 p tr k w :
  history s0 p tr →
  workers p !! k = Some w → w ≠ Finished →
  ∃ tr', history s0 (turn k p) tr'
       ∧ length (workers (turn k p)) = length (workers p)
       ∧ remaining (turn k p) + 1 = remaining p.
Proof.
  intros [Hs Hc Hb Hse Hre Hf] Hk Hw. unfold WorkerPool.turn. rewrite Hk.
  destruct w as [i|i|]; [| |done].
  - (* the command of unit i completes *)
    exists (tr ++ [Settle i]). split; [split|]; simpl.
    + by rewrite replay_snoc, Hs.
    + unfold claims in *. rewrite omap_app. simpl. by rewrite app_nil_r.
    + done.
    + intros j. unfold settles in *. rewrite omap_app. simpl. rewrite tally_snoc.
      pose proof (tally_insert (hits (Awaiting j)) _ _ _ (Settled i) Hk).
      specialize (Hse j). count.
    + intros j. unfold resumes in *. rewrite omap_app. simpl. rewrite app_nil_r.
      pose proof (tally_insert (hits (Awaiting j)) _ _ _ (Settled i) Hk).
      pose proof (tally_insert (hits (Settled j)) _ _ _ (Settled i) Hk).
      specialize (Hre j). count.
    + intros [?|Hin]%elem_of_insert_inv; [done | by apply Hf].
    + split; [by rewrite length_insert|]. unfold remaining. simpl.
      pose proof (tally_insert weight _ _ _ (Settled i) Hk). simpl in *. lia.
  - (* the worker loops *)
    destruct (enter_cases (next p) (on_resume i (shared p))) as [[Hn ->]|[Hn ->]].
    + exists (tr ++ [Resume i]). split; [split|]; simpl.
      * by rewrite replay_snoc, Hs.
      * unfold claims in *. rewrite omap_app. simpl. by rewrite app_nil_r.
      * done.
      * intros j. unfold settles in *. rewrite omap_app. simpl. rewrite app_nil_r.
        pose proof (tally_insert (hits (Awaiting j)) _ _ _ Finished Hk).
        specialize (Hse j). count.
      * intros j. unfold resumes in *. rewrite omap_app. simpl. rewrite tally_snoc.
        pose proof (tally_insert (hits (Awaiting j)) _ _ _ Finished Hk).
        pose proof (tally_insert (hits (Settled j)) _ _ _ Finished Hk).
        specialize (Hre j). count.
      * done.
      * split; [by rewrite length_insert|]. unfold remaining. simpl.
        pose proof (tally_insert weight _ _ _ Finished Hk). simpl in *. lia.
    + exists ((tr ++ [Resume i]) ++ [Claim (next p)]).
      split; [split|]; simpl.
      * by rewrite !replay_snoc, Hs.
      * unfold claims in *. rewrite !omap_app, Hc. simpl.
        by rewrite app_nil_r, Nat.add_1_r, seq_S.
      * lia.
      * intros j. unfold settles in *. rewrite !omap_app. simpl. rewrite !app_nil_r.
        pose proof (tally_insert (hits (Awaiting j)) _ _ _ (Awaiting (next p)) Hk).
        specialize (Hse j). count.
      * intros j. unfold resumes in *. rewrite !omap_app. simpl.
        rewrite app_nil_r, tally_snoc.
        pose proof (tally_insert (hits (Awaiting j)) _ _ _ (Awaiting (next p)) Hk).
        pose proof (tally_insert (hits (Settled j)) _ _ _ (Awaiting (next p)) Hk).
        specialize (Hre j). count.
      * intros [?|Hin]%elem_of_insert_inv; [done|]. specialize (Hf Hin). lia.
      * split; [by rewrite length_insert|]. unfold remaining. simpl.
        pose proof (tally_insert weight _ _ _ (Awaiting (next p)) Hk).
        simpl in *. lia.
Qed.

Lemma pending_spec (ws : list worker) k :
  k ∈ pending ws ↔ ∃ w, ws !! k = Some w ∧ w ≠ Finished.
Proof.
  unfold pending. rewrite list_elem_of_filter, elem_of_seq. split.
  - intros [Hne [_ Hlt]].
    destruct (lookup_lt_is_Some_2 ws k) as [w Hw]; [lia|].
    exists w. split; [done | congruence].
  - intros (w & Hw & Hne). split; [congruence|].
    apply lookup_lt_Some in Hw. lia.
Qed.

Lemma pending_nil (ws : list worker) :
  pending ws = [] → Forall (λ w, w = Finished) ws.
Proof.
  intros H. apply Forall_lookup. intros k w Hk.
  destruct (decide (w = Finished)) as [|Hne]; [done|].
  assert (Hin : k ∈ pending ws) by (apply pending_spec; eauto).
  rewrite H in Hin. by apply elem_of_nil in Hin.
Qed.

(** With a turn of fuel for each turn that remains, the run ends with no
    worker at an [await]. *)
Lemma run_history s0 fuel schedule p tr :
  history s0 p tr → remaining p ≤ fuel →
  ∃ tr', history s0 (run fuel schedule p) tr'
       ∧ length (workers (run fuel schedule p)) = length (workers p)
       ∧ pending (workers (run fuel schedule p)) = [].
Proof.
  revert schedule p tr.
  induction fuel as [|fuel IH]; intros schedule p tr H Hrem; simpl.
  - exists tr. split; [done|]. split; [done|].
    destruct (pending (workers p)) as [|k ks] eqn:E; [done|].
    assert (Hin : k ∈ pending (workers p)) by (rewrite E; left).
    apply pending_spec in Hin as (w & Hw & Hne).
    pose proof (tally_lookup_le weight _ _ _ Hw) as Hle.
    unfold remaining in Hrem. destruct w; simpl in *; (done || lia).
  - destruct (pending (workers p) !! _) as [k|] eqn:E.
    + apply list_elem_of_lookup_2, pending_spec in E as (w & Hw & Hne).
      destruct (turn_history _ _ _ _ _ H Hw Hne) as (tr1 & H1 & Hlen1 & Hrem1).
      destruct (IH (tl schedule) _ _ H1) as (tr2 & H2 & Hlen2 & Hp2); [lia|].
      exists tr2. split; [done|]. split; [congruence | done].
    + exists tr. split; [done|]. split; [done|].
      apply lookup_ge_None in E.
      destruct (pending (workers p)) as [|k ks]; [done|].
      pose proof (Nat.mod_upper_bound (hd 0 schedule) (length (k :: ks))) as Hlt.
      simpl in *. lia.
Qed.

(** A run of the pool: the shared variables are those a history leaves
    in which the units are claimed in order and each is settled once and
    resumed once; every worker has ended. *)
Theorem execute_history W schedule s0 :
  total = 0 ∨ 0 < W →
  let p := execute total on_claim on_settle on_resume W schedule s0 in
  ∃ tr, shared p = replay tr s0
      ∧ claims tr = seq 0 total
      ∧ settles tr ≡ₚ seq 0 total
      ∧ resumes tr ≡ₚ seq 0 total
      ∧ length (workers p) = W
      ∧ Forall (λ w, w = Finished) (workers p)
      ∧ next p = total.
Proof.
  intros HW p.
  destruct (spawn_history s0 W _ _ (history_start s0)) as (tr1 & H1 & Hlen1 & Hrem1).
  destruct (run_history s0 (2 * total) schedule _ _ H1) as (tr2 & H2 & Hlen2 & Hp2).
  { rewrite Hrem1. unfold remaining. simpl. lia. }
  fold (execute total on_claim on_settle on_resume W schedule s0) in H2, Hlen2, Hp2.
  fold p in H2, Hlen2, Hp2.
  apply pending_nil in Hp2.
  assert (Hnext : next p = total).
  { pose proof (h_bound _ _ _ H2) as Hb.
    destruct HW as [->|HW]; [lia|].
    assert (Hin : Finished ∈ workers p).
    { rewrite Hlen1 in Hlen2. simpl in Hlen2.
      destruct (workers p) as [|w ws]; [simpl in *; lia|].
      apply Forall_cons in Hp2 as [-> _]. left. }
    pose proof (h_finished _ _ _ H2 Hin). lia. }
  assert (Hnone : ∀ w, w ≠ Finished → tally (hits w) (workers p) = 0).
  { intros w Hw. apply tally_zero. eapply Forall_impl; [exact Hp2|].
    intros x ->. unfold hits. by case_decide. }
  exists tr2. split; [apply H2|]. split.
  { rewrite <- Hnext. apply H2. }
  split; [|split; [|split; [|split]]].
  - apply tally_Permutation. intros j. rewrite tally_hits_seq.
    pose proof (h_settles _ _ _ H2 j) as Hj.
    rewrite Hnone, Hnext in Hj by done. unfold below in Hj. lia.
  - apply tally_Permutation. intros j. rewrite tally_hits_seq.
    pose proof (h_resumes _ _ _ H2 j) as Hj.
    rewrite !Hnone, Hnext in Hj by done. unfold below in Hj. lia.
  - rewrite Hlen2, Hlen1. simpl. lia.
  - done.
  - done.
Qed.

End Theory.

End PoolTheory.

Import PoolTheory.

(** ** The status check *)

(** The record [processBranch] stores for a branch whose status is
    [prStatus]. *)
Definition normal_result (b : string) (prStatus : option string) : branch_result :=
  let '(icon, label, _) := classify prStatus in
  {| branch := b; icon := icon; label := label |}.

(** The status is one that hands the branch to [addBranchToDelete]. *)
Definition deletable (o : outcome (option string)) : bool :=
  match o with
  | Returns (Some status) => String.eqb status "MERGED" || String.eqb status "CLOSED"
  | Returns None | Throws _ => false
  end.

(** The input branches whose status is MERGED or CLOSED, in input order. *)
Definition merged_or_closed (branches : list string)
    (getPRStatus_at : nat → outcome (option string)) : list string :=
  omap (λ i, if deletable (getPRStatus_at i) then branches !! i else None)
    (seq 0 (length branches)).

Lemma classify_deletable prStatus :
  (classify prStatus).2 = deletable (Returns prStatus).
Proof.
  destruct prStatus as [st|]; [|done]. unfold classify, deletable.
  destruct (String.eqb st "MERGED"); [done|].
  destruct (String.eqb st "CLOSED"); [done|].
  destruct (String.eqb st "OPEN"); [done|].
  by destruct (String.eqb st "__TIMEOUT__").
Qed.

Section CheckTheory.

Variable branches : list string.
Variable q : nat → outcome (option string).

Local Abbreviation branch_of := (branch_at branches).
Local Abbreviation settle := (processBranch_settle branches q).
Local Abbreviation resume := (fluidWorker_resume branches q).
Local Abbreviation claim := (processBranch_claim branches).
Local Abbreviation replay := (replay claim settle resume).

(** The record unit [i] stores. *)
Definition stored (i : nat) : branch_result :=
  match q i with
  | Returns prStatus => normal_result (branch_of i) prStatus
  | Throws _ => error_result (branch_of i)
  end.

Lemma settle_resultsMap i s :
  resultsMap (settle i s)
  = match q i with
    | Returns _ => <[branch_of i := stored i]> (resultsMap s)
    | Throws _ => resultsMap s
    end.
Proof.
  unfold processBranch_settle, stored, normal_result.
  destruct (q i) as [st|e]; [|done].
  destruct (classify st) as [[ic lb] d].
  by destruct (verbose (check_tool s)), d.
Qed.

Lemma settle_branchesToDelete i s :
  branchesToDeleteSync (settle i s)
  = branchesToDeleteSync s
      ++ (if deletable (q i) then [branch_of i] else []).
Proof.
  unfold processBranch_settle.
  destruct (q i) as [st|e]; [|by rewrite app_nil_r].
  rewrite <- classify_deletable.
  destruct (classify st) as [[ic lb] d].
  destruct (verbose (check_tool s)), d; simpl; by rewrite ?app_nil_r.
Qed.

Lemma resume_resultsMap i s :
  resultsMap (resume i s)
  = match q i with
    | Returns _ => resultsMap s
    | Throws _ => <[branch_of i := stored i]> (resultsMap s)
    end.
Proof.
  unfold fluidWorker_resume, stored. destruct (q i) as [st|e]; [done|].
  simpl. by destruct (verbose (check_tool s)).
Qed.

Lemma resume_branchesToDelete i s :
  branchesToDeleteSync (resume i s) = branchesToDeleteSync s.
Proof.
  unfold fluidWorker_resume. destruct (q i) as [st|e]; [done|].
  simpl. by destruct (verbose (check_tool s)).
Qed.

Lemma replay_branchesToDelete tr s :
  branchesToDeleteSync (replay tr s)
  = branchesToDeleteSync s
      ++ omap (λ i, if deletable (q i) then Some (branch_of i) else None) (settles tr).
Proof.
  induction tr as [|e tr IH] using rev_ind; [by rewrite app_nil_r|].
  rewrite replay_snoc. unfold settles in *. rewrite omap_app.
  destruct e as [i|i|i]; simpl.
  - by rewrite app_nil_r.
  - rewrite omap_app, settle_branchesToDelete, IH, <- app_assoc. simpl.
    by destruct (deletable (q i)).
  - by rewrite resume_branchesToDelete, IH, app_nil_r.
Qed.

(** A key of the map stays one. *)
Lemma handle_resultsMap_mono s e k :
  is_Some (resultsMap s !! k) →
  is_Some (resultsMap (handle claim settle resume s e) !! k).
Proof.
  intros Hk. destruct e as [i|i|i]; simpl; [done| |].
  - rewrite settle_resultsMap. destruct (q i); [|done].
    destruct (decide (branch_of i = k)) as [->|];
      [rewrite lookup_insert_eq | rewrite lookup_insert_ne]; eauto.
  - rewrite resume_resultsMap. destruct (q i); [done|].
    destruct (decide (branch_of i = k)) as [->|];
      [rewrite lookup_insert_eq | rewrite lookup_insert_ne]; eauto.
Qed.

Lemma replay_settled_key tr s i prStatus :
  q i = Returns prStatus → i ∈ settles tr →
  is_Some (resultsMap (replay tr s) !! branch_of i).
Proof.
  intros Hq. induction tr as [|e tr IH] using rev_ind; [by intros ?%elem_of_nil|].
  unfold settles in *. rewrite omap_app, elem_of_app, replay_snoc.
  intros [Hin|Hin]; [by apply handle_resultsMap_mono; auto|].
  destruct e as [j|j|j]; simpl in Hin; try by apply elem_of_nil in Hin.
  apply list_elem_of_singleton in Hin as ->. simpl.
  rewrite settle_resultsMap, Hq, lookup_insert_eq. eauto.
Qed.

Lemma replay_resumed_key tr s i error :
  q i = Throws error → i ∈ resumes tr →
  is_Some (resultsMap (replay tr s) !! branch_of i).
Proof.
  intros Hq. induction tr as [|e tr IH] using rev_ind; [by intros ?%elem_of_nil|].
  unfold resumes in *. rewrite omap_app, elem_of_app, replay_snoc.
  intros [Hin|Hin]; [by apply handle_resultsMap_mono; auto|].
  destruct e as [j|j|j]; simpl in Hin; try by apply elem_of_nil in Hin.
  apply list_elem_of_singleton in Hin as ->. simpl.
  rewrite resume_resultsMap, Hq, lookup_insert_eq. eauto.
Qed.

(** A unit that is settled and resumed has left a record under its name. *)
Lemma replay_resultsMap_complete tr s i :
  i ∈ settles tr → i ∈ resumes tr →
  is_Some (resultsMap (replay tr s) !! branch_of i).
Proof.
  intros Hs Hr. destruct (q i) eqn:Hq;
    eauto using replay_settled_key, replay_resumed_key.
Qed.

(** Unit [i] is settled or resumed in [tr]. *)
Definition written (tr : list event) (i : nat) : Prop :=
  i ∈ settles tr ∨ i ∈ resumes tr.

Lemma written_snoc tr e i : written tr i → written (tr ++ [e]) i.
Proof.
  unfold written, settles, resumes. rewrite !omap_app, !elem_of_app.
  intros [?|?]; [left | right]; by left.
Qed.

Lemma written_last tr e j : e = Settle j ∨ e = Resume j → written (tr ++ [e]) j.
Proof.
  unfold written, settles, resumes. rewrite !omap_app, !elem_of_app.
  intros [-> | ->]; simpl; [left | right]; right; by left.
Qed.

(** A record of the map is the record of a unit of that name. *)
Lemma replay_resultsMap_sound tr s k r :
  resultsMap (replay tr s) !! k = Some r →
  resultsMap s !! k = Some r
  ∨ ∃ i, written tr i ∧ k = branch_of i ∧ r = stored i.
Proof.
  revert r. induction tr as [|e tr IH] using rev_ind; intros r; [by left|].
  rewrite replay_snoc.
  assert (Hold : resultsMap (replay tr s) !! k = Some r →
    resultsMap s !! k = Some r
    ∨ ∃ i, written (tr ++ [e]) i ∧ k = branch_of i ∧ r = stored i).
  { intros [?|(i & Hi & ? & ?)]%IH; [by left|]. right. exists i.
    split; [by apply written_snoc | done]. }
  assert (Hnew : ∀ j, e = Settle j ∨ e = Resume j →
    <[branch_of j := stored j]> (resultsMap (replay tr s)) !! k = Some r →
    resultsMap s !! k = Some r
    ∨ ∃ i, written (tr ++ [e]) i ∧ k = branch_of i ∧ r = stored i).
  { intros j He. destruct (decide (branch_of j = k)) as [<-|Hne].
    - rewrite lookup_insert_eq. intros [= <-]. right. exists j.
      split; [by apply written_last | done].
    - rewrite lookup_insert_ne by done. apply Hold. }
  destruct e as [j|j|j]; simpl handle.
  - apply Hold.
  - rewrite settle_resultsMap. destruct (q j); [apply Hnew; auto | apply Hold].
  - rewrite resume_resultsMap. destruct (q j); [apply Hold | apply Hnew; auto].
Qed.

Lemma stored_branch i : branch (stored i) = branch_of i.
Proof.
  unfold stored, normal_result. destruct (q i) as [st|e]; [|done].
  by destruct (classify st) as [[ic lb] d].
Qed.

(** The run of the workers of [checkBranches] on a list that is not
    empty. *)
Lemma check_pool_history schedule t :
  length branches ≠ 0 →
  let p := check_pool branches q schedule t in
  ∃ tr, shared p
        = replay tr {| resultsMap := ∅; branchesToDeleteSync := []; check_tool := t |}
      ∧ settles tr ≡ₚ seq 0 (length branches)
      ∧ resumes tr ≡ₚ seq 0 (length branches)
      ∧ length (workers p) = Nat.min CONCURRENCY_LIMIT (length branches)
      ∧ Forall (λ w, w = Finished) (workers p)
      ∧ next p = length branches.
Proof.
  intros HN p.
  destruct (execute_history (length branches) claim settle resume
              (Nat.min CONCURRENCY_LIMIT (length branches)) schedule
              {| resultsMap := ∅; branchesToDeleteSync := []; check_tool := t |})
    as (tr & Hs & _ & Hse & Hre & Hlen & Hfin & Hnext).
  { right. unfold CONCURRENCY_LIMIT. lia. }
  exists tr. by repeat split.
Qed.

(** After the workers, every input branch has its record in the map. *)
Lemma check_pool_resultsMap schedule t i b :
  branches !! i = Some b →
  resultsMap (shared (check_pool branches q schedule t)) !! b = Some (stored i)
  ∨ ∃ j, j ≠ i ∧ branches !! j = Some b
       ∧ resultsMap (shared (check_pool branches q schedule t)) !! b = Some (stored j).
Proof.
  intros Hb.
  assert (HN : length branches ≠ 0) by (apply lookup_lt_Some in Hb; lia).
  destruct (check_pool_history schedule t HN) as (tr & Hs & Hse & Hre & _).
  rewrite Hs.
  assert (Hat : b = branch_of i) by (unfold branch_at; by rewrite Hb).
  assert (Hi : i ∈ seq 0 (length branches)).
  { apply elem_of_seq. apply lookup_lt_Some in Hb. lia. }
  destruct (replay_resultsMap_complete tr
              {| resultsMap := ∅; branchesToDeleteSync := []; check_tool := t |} i)
    as [r Hr]; [by rewrite Hse | by rewrite Hre |].
  rewrite <- Hat in Hr.
  destruct (replay_resultsMap_sound _ _ _ _ Hr) as [Hempty|(j & Hj & Hk & ->)].
  { simpl in Hempty. by rewrite lookup_empty in Hempty. }
  destruct (decide (j = i)) as [->|Hne]; [by left|]. right. exists j.
  split; [done|]. split; [|done].
  assert (Hjn : j ∈ seq 0 (length branches)).
  { destruct Hj as [Hj|Hj]; [by rewrite <- Hse | by rewrite <- Hre]. }
  apply elem_of_seq in Hjn.
  destruct (lookup_lt_is_Some_2 branches j) as [b' Hb']; [lia|].
  unfold branch_at in Hk. rewrite Hb' in Hk. simpl in Hk. by subst.
Qed.

End CheckTheory.

Lemma omap_ext_in {A B} (f g : A → option B) (l : list A) :
  (∀ x, x ∈ l → f x = g x) → omap f l = omap g l.
Proof.
  induction l as [|a l IH]; intros H; [done|]. csimpl.
  rewrite (H a) by left. rewrite IH; [done|]. intros x Hx. apply H. by right.
Qed.

(** [C1]  For every list of N branch names given to [checkBranches] (on a
    tool that holds no results yet), under every schedule of the workers
    and whatever the status queries return or throw, [prResults] has
    length N and its i-th entry is a record whose [branch] is the i-th
    input name: every submitted branch has one result. *)
Theorem checkBranches_results_in_input_order
    (branches : list string) (q : nat → outcome (option string))
    (schedule : list nat) (t : tool) :
  prResults t = [] →
  let t' := checkBranches_on branches q schedule t in
  length (prResults t') = length branches
  ∧ ∀ i b, branches !! i = Some b →
      ∃ r, prResults t' !! i = Some (Some r) ∧ branch r = b.
Proof.
  intros Hfresh t'. subst t'. unfold checkBranches_on.
  case_decide as HN.
  - apply nil_length_inv in HN as ->. simpl. rewrite Hfresh.
    split; [done|]. intros i b Hb. by rewrite lookup_nil in Hb.
  - simpl. rewrite length_fmap. split; [done|]. intros i b Hb.
    rewrite list_lookup_fmap, Hb. simpl.
    destruct (check_pool_resultsMap branches q schedule t i b Hb)
      as [Hr|(j & _ & Hj & Hr)]; rewrite Hr; eexists; (split; [done|]);
      rewrite stored_branch; unfold branch_at.
    + by rewrite Hb.
    + by rewrite Hj.
Qed.

Lemma checkBranches_results_in_input_order_witness :
  prResults new_tool = []
  ∧ let t' := checkBranches_on ["b1"; "b2"; "b3"]%string
                (λ i, match i with
                      | 0 => Throws {| message := "Network error"; code := None;
                                       signal := None |}
                      | 1 => Returns (Some "MERGED"%string)
                      | _ => Returns (Some "OPEN"%string)
                      end) [2; 0; 1] new_tool in
    length (prResults t') = 3
    ∧ ∀ i b, ["b1"; "b2"; "b3"]%string !! i = Some b →
        ∃ r, prResults t' !! i = Some (Some r) ∧ branch r = b.
Proof.
  split; [reflexivity|].
  apply (checkBranches_results_in_input_order ["b1"; "b2"; "b3"]%string). reflexivity.
Defined.

(** The scenario of the specification: six branches, five workers, every
    status MERGED; the results come out in the order b1 to b6 and all six
    branches are to be deleted. *)
Example six_merged_branches :
  let t' := checkBranches_on ["b1"; "b2"; "b3"; "b4"; "b5"; "b6"]%string
              (λ _, Returns (Some "MERGED"%string)) [4; 1; 3; 0; 2; 2; 1] new_tool in
  prResults t'
  = (λ b, Some {| branch := b; icon := "✅"; label := "Merged" |})
      <$> ["b1"; "b2"; "b3"; "b4"; "b5"; "b6"]%string
  ∧ branchesToDelete t' ≡ₚ ["b1"; "b2"; "b3"; "b4"; "b5"; "b6"]%string
  ∧ length (workers (check_pool ["b1"; "b2"; "b3"; "b4"; "b5"; "b6"]%string
                       (λ _, Returns (Some "MERGED"%string)) [4; 1; 3; 0; 2; 2; 1]
                       new_tool)) = 5.
Proof.
  split; [by vm_compute|]. split; [|by vm_compute].
  apply (bool_decide_unpack _). by vm_compute.
Qed.

(** [C2]  When the processing of one branch throws inside a worker (branch
    names being distinct, as those of a repository are), the record of that
    branch is the Error record (icon ⚠️, label "Error"), every branch whose
    query returns has its normal record, the shared index still reaches the
    end of the list, every worker ends its loop, so that [Promise.all]
    resolves, and all the results are there. *)
Theorem checkBranches_isolates_failures
    (branches : list string) (q : nat → outcome (option string))
    (schedule : list nat) (t : tool) (i : nat) (b : string) (error : js_error) :
  NoDup branches → branches !! i = Some b → q i = Throws error →
  let t' := checkBranches_on branches q schedule t in
  let p := check_pool branches q schedule t in
  prResults t' !! i = Some (Some {| branch := b; icon := "⚠️"; label := "Error" |})
  ∧ (∀ j b' prStatus, branches !! j = Some b' → q j = Returns prStatus →
       prResults t' !! j = Some (Some (normal_result b' prStatus)))
  ∧ next p = length branches
  ∧ all_fulfilled p = true
  ∧ length (prResults t') = length branches.
Proof.
  intros Hnodup Hb Hq t' p.
  assert (HN : length branches ≠ 0) by (apply lookup_lt_Some in Hb; lia).
  assert (Hget : ∀ j b', branches !! j = Some b' →
            prResults t' !! j = Some (Some (stored branches q j))).
  { intros j b' Hb'. subst t'. unfold checkBranches_on.
    rewrite decide_False by done. simpl. rewrite list_lookup_fmap, Hb'. simpl.
    destruct (check_pool_resultsMap branches q schedule t j b' Hb')
      as [Hr|(j' & Hne & Hj' & Hr)]; [by rewrite Hr|].
    destruct Hne. eapply NoDup_lookup; eauto. }
  destruct (check_pool_history branches q schedule t HN)
    as (tr & _ & _ & _ & _ & Hfin & Hnext).
  split; [|split; [|split; [|split]]].
  - rewrite (Hget i b Hb). unfold stored, branch_at. by rewrite Hq, Hb.
  - intros j b' st Hb' Hq'. rewrite (Hget j b' Hb').
    unfold stored, branch_at. by rewrite Hq', Hb'.
  - done.
  - unfold all_fulfilled. by apply bool_decide_eq_true.
  - subst t'. unfold checkBranches_on. rewrite decide_False by done.
    simpl. by rewrite length_fmap.
Qed.

Lemma checkBranches_isolates_failures_witness :
  let branches := ["b1"; "b2"; "b3"]%string in
  let error := {| message := "Network error"%string; code := None; signal := None |} in
  let q := λ i, match i with
                | 0 => Throws error
                | 1 => Returns (Some "MERGED"%string)
                | _ => Returns (Some "OPEN"%string)
                end in
  let t' := checkBranches_on branches q [1; 1; 0] new_tool in
  let p := check_pool branches q [1; 1; 0] new_tool in
  prResults t' !! 0 = Some (Some {| branch := "b1"; icon := "⚠️"; label := "Error" |})
  ∧ (∀ j b' prStatus, branches !! j = Some b' → q j = Returns prStatus →
       prResults t' !! j = Some (Some (normal_result b' prStatus)))
  ∧ next p = length branches
  ∧ all_fulfilled p = true
  ∧ length (prResults t') = length branches.
Proof.
  intros branches error q.
  apply (checkBranches_isolates_failures branches q [1; 1; 0] new_tool 0
           "b1"%string error).
  - apply (bool_decide_unpack _). vm_compute. exact I.
  - reflexivity.
  - reflexivity.
Defined.

(** [C3]  The classification of [processBranch] is a function of the status
    alone: MERGED gives (✅, Merged) and the branch is added to the branches
    to delete, CLOSED gives (🔒, Closed) and is added, OPEN gives (⏳, Open)
    and is not, the timeout sentinel gives (❓, Timeout) and is not, anything
    else, [null] included, gives (❌, No PR) and is not; after
    [checkBranches] (on a tool with nothing to delete yet)
    [branchesToDelete] holds exactly the input branches whose status was
    MERGED or CLOSED. *)
Theorem checkBranches_classification
    (branches : list string) (q : nat → outcome (option string))
    (schedule : list nat) (t : tool) :
  branchesToDelete t = [] →
  classify (Some "MERGED"%string) = ("✅", "Merged", true)%string
  ∧ classify (Some "CLOSED"%string) = ("🔒", "Closed", true)%string
  ∧ classify (Some "OPEN"%string) = ("⏳", "Open", false)%string
  ∧ classify (Some TIMEOUT) = ("❓", "Timeout", false)%string
  ∧ (∀ prStatus,
       prStatus ∉ [Some "MERGED"; Some "CLOSED"; Some "OPEN"; Some TIMEOUT]%string →
       classify prStatus = ("❌", "No PR", false)%string)
  ∧ (∀ i s prStatus, q i = Returns prStatus →
       let b := branch_at branches i in
       let s' := processBranch_settle branches q i s in
       resultsMap s' !! b
       = Some {| branch := b; icon := (classify prStatus).1.1;
                 label := (classify prStatus).1.2 |}
       ∧ branchesToDeleteSync s'
         = branchesToDeleteSync s ++ (if (classify prStatus).2 then [b] else []))
  ∧ branchesToDelete (checkBranches_on branches q schedule t)
    ≡ₚ merged_or_closed branches q.
Proof.
  intros Hfresh. repeat split; try reflexivity.
  - intros [st|] Hnot; [|done]. unfold classify.
    destruct (String.eqb_spec st "MERGED") as [->|_]; [destruct Hnot; set_solver|].
    destruct (String.eqb_spec st "CLOSED") as [->|_]; [destruct Hnot; set_solver|].
    destruct (String.eqb_spec st "OPEN") as [->|_]; [destruct Hnot; set_solver|].
    destruct (String.eqb_spec st "__TIMEOUT__") as [->|_]; [destruct Hnot|done].
    unfold TIMEOUT. set_solver.
  - rewrite settle_resultsMap, H, lookup_insert_eq. unfold stored, normal_result.
    rewrite H. by destruct (classify prStatus) as [[ic lb] d].
  - rewrite settle_branchesToDelete, classify_deletable. by rewrite H.
  - unfold checkBranches_on. case_decide as HN.
    + apply nil_length_inv in HN as ->. simpl. by rewrite Hfresh.
    + simpl.
      destruct (check_pool_history branches q schedule t HN) as (tr & -> & Hse & _).
      rewrite replay_branchesToDelete, Hse. simpl. unfold merged_or_closed.
      erewrite omap_ext_in; [done|]. intros i (_ & Hi)%elem_of_seq.
      destruct (deletable (q i)); [|done].
      destruct (lookup_lt_is_Some_2 branches i) as [b Hb]; [lia|].
      unfold branch_at. by rewrite Hb.
Qed.

Lemma checkBranches_classification_witness :
  branchesToDelete new_tool = []
  ∧ branchesToDelete
      (checkBranches_on ["b1"; "b2"; "b3"]%string
         (λ i, match i with
               | 0 => Returns (Some "CLOSED"%string)
               | 1 => Returns (Some "OPEN"%string)
               | _ => Returns (Some "MERGED"%string)
               end) [2; 0] new_tool)
    ≡ₚ ["b1"; "b3"]%string.
Proof.
  split; [reflexivity|].
  apply (checkBranches_classification ["b1"; "b2"; "b3"]%string
           (λ i, match i with
                 | 0 => Returns (Some "CLOSED"%string)
                 | 1 => Returns (Some "OPEN"%string)
                 | _ => Returns (Some "MERGED"%string)
                 end) [2; 0] new_tool).
  reflexivity.
Defined.

(** [C9]  Neither batch has more workers than work units: the status check
    runs exactly min(5, N) workers for N branches and the deletion exactly
    min(3, M) for M candidates; for N = 0 [checkBranches] prints its
    warning and returns before any worker exists. *)
Theorem worker_count_bounded
    (branches candidates : list string) (q del : nat → outcome (option string))
    (schedule : list nat) (t : tool) :
  let checkers := workers (check_pool branches q schedule t) in
  let deleters := workers (delete_pool del candidates schedule t) in
  length checkers = Nat.min 5 (length branches)
  ∧ length checkers ≤ length branches
  ∧ length deleters = Nat.min 3 (length candidates)
  ∧ length deleters ≤ length candidates
  ∧ workers (check_pool [] q schedule t) = []
  ∧ checkBranches_on [] q schedule t
    = Spinner.info "You might want to use --untracked-only to see local-only branches."
        (Spinner.warning "No tracked branches found to check." t).
Proof.
  intros checkers deleters.
  assert (Hc : length checkers = Nat.min 5 (length branches)).
  { destruct (execute_history (length branches) (processBranch_claim branches)
                (processBranch_settle branches q) (fluidWorker_resume branches q)
                (Nat.min CONCURRENCY_LIMIT (length branches)) schedule
                {| resultsMap := ∅; branchesToDeleteSync := []; check_tool := t |})
      as (tr & _ & _ & _ & _ & Hlen & _); [|exact Hlen].
    unfold CONCURRENCY_LIMIT. lia. }
  assert (Hd : length deleters = Nat.min 3 (length candidates)).
  { destruct (execute_history (length candidates) (deletionWorker_claim candidates)
                (deletionWorker_settle del candidates) (λ _ s, s)
                (Nat.min DELETE_CONCURRENCY (length candidates)) schedule
                {| deletedCount := 0; failedBranchesSync := []; delete_tool := t |})
      as (tr & _ & _ & _ & _ & Hlen & _); [|exact Hlen].
    unfold DELETE_CONCURRENCY. lia. }
  repeat split; try done; lia.
Qed.

(** ** The deletion *)

(** [t] with more lines on the terminal and more calls made. *)
Definition extend (lines : list string) (commands : list (string * exec_options))
    (t : tool) : tool :=
  {| dryRun := dryRun t; verbose := verbose t; untrackedOnly := untrackedOnly t;
     countOnly := countOnly t; branchesToDelete := branchesToDelete t;
     prResults := prResults t; currentBranch := currentBranch t;
     terminal := terminal t ++ lines; calls := calls t ++ commands |}.

Lemma extend_nil t : extend [] [] t = t.
Proof. destruct t. unfold extend. simpl. by rewrite !app_nil_r. Qed.

Lemma extend_extend l1 c1 l2 c2 t :
  extend l2 c2 (extend l1 c1 t) = extend (l1 ++ l2) (c1 ++ c2) t.
Proof. unfold extend. simpl. by rewrite !app_assoc. Qed.

Lemma console_log_extend line t : console_log line t = extend [line] [] t.
Proof. unfold console_log, extend. by rewrite app_nil_r. Qed.

Lemma record_call_extend c o t : record_call c o t = extend [] [(c, o)] t.
Proof. unfold record_call, extend. by rewrite app_nil_r. Qed.

(** The three ways a deletion ends. *)
Inductive deletion : Type := Deleted | TimedOut | Failed.

Global Instance deletion_eq_dec : EqDecision deletion.
Proof. solve_decision. Defined.

Definition deletion_of (o : outcome (option string)) : deletion :=
  match o with
  | Returns (Some result) => if String.eqb result TIMEOUT then TimedOut else Deleted
  | Returns None => Failed
  | Throws _ => Failed
  end.

(** The line the worker prints for a branch: green for a deletion, red for
    a failure. *)
Definition deletion_line (b : string) (d : deletion) : string :=
  match d with
  | Deleted => String ESC "[32m✅ Deleted branch " ++ b ++ String ESC "[0m"
  | TimedOut =>
      String ESC "[31m❌ Failed to delete branch " ++ (b ++ " (timeout)") ++ String ESC "[0m"
  | Failed => String ESC "[31m❌ Failed to delete branch " ++ b ++ String ESC "[0m"
  end.

(** The lines of the final status. *)
Definition summary_lines (deleted : nat) (failed : list string) : list string :=
  match failed with
  | [] =>
      [(String ESC "[32m✅ Successfully deleted " ++ (pretty deleted ++ " branches")
          ++ String ESC "[0m")%string]
  | _ =>
      (String ESC "[33m⚠️  Deleted "
         ++ (pretty deleted ++ " branches, " ++ pretty (length failed) ++ " failed")
         ++ String ESC "[0m")%string
      :: ((λ b, (String ESC "[31m  Failed: " ++ b ++ String ESC "[0m")%string) <$> failed)
  end.

(** The lines that announce the candidates before the prompt. *)
Definition announcement (t : tool) : list string :=
  [EmptyString;
   (String ESC "[31m❌ "
      ++ (if untrackedOnly t
          then "The following untracked local branches will be deleted:"
          else "The following branches have merged or closed PRs and will be deleted:")
      ++ String ESC "[0m")%string]
  ++ ((λ b, (String ESC "[31m  "
               ++ (match find_result b (prResults t) with
                   | Returns (Some r) => icon r
                   | _ => "🗑️"
                   end ++ " " ++ b)
               ++ String ESC "[0m")%string)
        <$> branchesToDelete t).

Lemma find_result_defined b results :
  Forall is_Some results → ∃ found, find_result b results = Returns found.
Proof.
  induction 1 as [|[r|] results Hr _ IH]; simpl; eauto.
  - destruct (String.eqb (branch r) b); eauto.
  - by destruct Hr.
Qed.

Lemma list_candidates_extend candidates lines commands t :
  Forall is_Some (prResults t) →
  list_candidates candidates (extend lines commands t)
  = Returns (extend
      (lines ++ ((λ b, Spinner.log_line
                         ("  " ++ match find_result b (prResults t) with
                                  | Returns (Some r) => icon r
                                  | _ => "🗑️"
                                  end ++ " " ++ b) Colors.red)
                   <$> candidates))
      commands t).
Proof.
  intros Hdef. revert lines.
  induction candidates as [|b candidates IH]; intros lines; simpl.
  - by rewrite app_nil_r.
  - destruct (find_result_defined b (prResults t) Hdef) as [found Hfound].
    rewrite Hfound. unfold Spinner.log.
    rewrite console_log_extend, extend_extend, app_nil_r, IH, <- app_assoc. simpl.
    by destruct found.
Qed.

Lemma fmap_at_seq (l : list string) :
  (λ i, default EmptyString (l !! i)) <$> seq 0 (length l) = l.
Proof.
  apply list_eq. intros i. rewrite list_lookup_fmap.
  destruct (decide (i < length l)) as [Hlt|Hge].
  - rewrite lookup_seq_lt by done. simpl.
    destruct (lookup_lt_is_Some_2 l i Hlt) as [x Hx]. by rewrite Hx.
  - rewrite lookup_seq_ge by lia. by rewrite lookup_ge_None_2 by lia.
Qed.

Lemma fold_left_log (f : string → string) (color : string) (l : list string) (t : tool) :
  fold_left (λ t b, Spinner.log (f b) color t) l t
  = extend ((λ b, Spinner.log_line (f b) color) <$> l) [] t.
Proof.
  revert t. induction l as [|b l IH]; intros t; simpl; [by rewrite extend_nil|].
  rewrite IH. unfold Spinner.log. by rewrite console_log_extend, extend_extend.
Qed.

Lemma delete_summary_extend s :
  delete_summary s
  = extend (summary_lines (deletedCount s) (failedBranchesSync s)) [] (delete_tool s).
Proof.
  unfold delete_summary, summary_lines. case_decide as Hlen.
  - apply nil_length_inv in Hlen as ->.
    unfold Spinner.success. by rewrite console_log_extend.
  - destruct (failedBranchesSync s) as [|b failed] eqn:E; [done|].
    rewrite fold_left_log. unfold Spinner.warning.
    by rewrite console_log_extend, extend_extend.
Qed.

Section DeleteTheory.

Variable candidates : list string.
Variable del : nat → outcome (option string).

Local Abbreviation claim := (deletionWorker_claim candidates).
Local Abbreviation settle := (deletionWorker_settle del candidates).
Local Abbreviation replay := (replay claim settle (λ _ s, s)).
Local Abbreviation kind := (λ i, deletion_of (del i)).

Lemma settle_deletedCount i s :
  deletedCount (settle i s)
  = deletedCount s + (if decide (kind i = Deleted) then 1 else 0).
Proof.
  unfold deletionWorker_settle, deletion_of.
  destruct (del i) as [[result|]|e]; simpl; try lia.
  destruct (String.eqb result TIMEOUT); simpl; lia.
Qed.

Lemma settle_failed i s :
  failedBranchesSync (settle i s)
  = failedBranchesSync s
      ++ (if decide (kind i = Deleted) then [] else [candidate_at candidates i]).
Proof.
  unfold deletionWorker_settle, deletion_of.
  destruct (del i) as [[result|]|e]; simpl; try done.
  destruct (String.eqb result TIMEOUT); simpl; by rewrite ?app_nil_r.
Qed.

Lemma settle_tool i s :
  delete_tool (settle i s)
  = extend [deletion_line (candidate_at candidates i) (kind i)] [] (delete_tool s).
Proof.
  unfold deletionWorker_settle, deletion_of, deletion_line.
  destruct (del i) as [[result|]|e]; simpl;
    [destruct (String.eqb result TIMEOUT); simpl| |];
    unfold Spinner.log; by rewrite console_log_extend.
Qed.

Lemma replay_deletedCount tr s :
  deletedCount (replay tr s)
  = deletedCount s + length (filter (λ i, kind i = Deleted) (settles tr)).
Proof.
  induction tr as [|e tr IH] using rev_ind; [simpl; lia|].
  rewrite replay_snoc. unfold settles in *. rewrite omap_app, filter_app, length_app.
  destruct e as [i|i|i]; simpl; [lia| |lia].
  rewrite settle_deletedCount, IH, filter_cons, filter_nil.
  case_decide; simpl; lia.
Qed.

Lemma replay_failed tr s :
  failedBranchesSync (replay tr s)
  = failedBranchesSync s
      ++ omap (λ i, if decide (kind i = Deleted) then None
                    else Some (candidate_at candidates i)) (settles tr).
Proof.
  induction tr as [|e tr IH] using rev_ind; [by rewrite app_nil_r|].
  rewrite replay_snoc. unfold settles in *. rewrite !omap_app.
  destruct e as [i|i|i]; simpl; rewrite ?app_nil_r; try done.
  rewrite settle_failed, IH, <- app_assoc. by case_decide.
Qed.

Lemma replay_tool tr s :
  delete_tool (replay tr s)
  = extend ((λ i, deletion_line (candidate_at candidates i) (kind i)) <$> settles tr)
      ((λ i, (delete_command (candidate_at candidates i), silently)) <$> claims tr)
      (delete_tool s).
Proof.
  induction tr as [|e tr IH] using rev_ind; [by rewrite extend_nil|].
  rewrite replay_snoc. unfold settles, claims in *. rewrite !omap_app, !fmap_app.
  destruct e as [i|i|i]; simpl; rewrite ?app_nil_r.
  - rewrite record_call_extend, IH, extend_extend. by rewrite app_nil_r.
  - rewrite settle_tool, IH, extend_extend. by rewrite app_nil_r.
  - done.
Qed.

End DeleteTheory.

Lemma append_inv_head (s x y : string) : (s ++ x)%string = (s ++ y)%string → x = y.
Proof. induction s as [|c s IH]; simpl; [done|]. intros [= H]. auto. Qed.

Lemma append_cons c (a b : string) : (String c a ++ b)%string = String c (a ++ b)%string.
Proof. reflexivity. Qed.

Lemma length_append (a b : string) :
  String.length (a ++ b) = String.length a + String.length b.
Proof. induction a as [|c a IH]; [done|]. rewrite append_cons. simpl. by rewrite IH. Qed.

Lemma append_inv_tail (a b x : string) : (a ++ x)%string = (b ++ x)%string → a = b.
Proof.
  revert b. induction a as [|c a IH]; intros [|c' b] H.
  - done.
  - apply (f_equal String.length) in H. rewrite !length_append in H. simpl in H. lia.
  - apply (f_equal String.length) in H. rewrite !length_append in H. simpl in H. lia.
  - injection H as -> H. f_equal. by apply IH.
Qed.

Lemma append_assoc (x y z : string) : ((x ++ y) ++ z)%string = (x ++ (y ++ z))%string.
Proof.
  induction x as [|c x IH]; [done|].
  change (String c ((x ++ y) ++ z) = String c (x ++ (y ++ z)))%string. by f_equal.
Qed.

(** [C4]  [deleteBranches], not in a dry run and with candidates (whose
    results are all defined).  When the user declines, no command is issued
    and the tool is as before but for the lines printed: the announcement
    and the blue line "Cancelled.".  When the user confirms, the command
    [git branch -d "<branch>"] is issued once for each candidate, with
    [silent] set; a deletion whose command returns the timeout sentinel or
    [null] (or throws) is counted as failed, with a line for the timeout
    that differs from the line of the other failures, and every other
    return is counted as deleted; the final status gives the number deleted
    and names every failed branch. *)
Theorem deleteBranches_confirmation
    (answer : string) (del : nat → outcome (option string))
    (schedule : list nat) (t : tool) :
  dryRun t = false → branchesToDelete t ≠ [] → Forall is_Some (prResults t) →
  let candidates := branchesToDelete t in
  let kind := λ i, deletion_of (del i) in
  let quote := String (Ascii.ascii_of_N 34) EmptyString in
  (if askConfirmation answer then
     ∃ order, order ≡ₚ seq 0 (length candidates)
       ∧ deleteBranches answer del schedule t
         = Returns (extend
             (announcement t ++ [EmptyString]
                ++ ((λ i, deletion_line (candidate_at candidates i) (kind i)) <$> order)
                ++ summary_lines
                     (length (filter (λ i, kind i = Deleted) (seq 0 (length candidates))))
                     (omap (λ i, if decide (kind i = Deleted) then None
                                 else Some (candidate_at candidates i)) order))
             ((λ b, (("git branch -d " ++ quote ++ b ++ quote)%string,
                     {| silent := true; timeout := None |})) <$> candidates) t)
   else
     deleteBranches answer del schedule t
     = Returns (extend
                  (announcement t
                     ++ [(String ESC "[34mℹ️  Cancelled." ++ String ESC "[0m")%string])
                  [] t))
  ∧ deletion_of (Returns (Some "__TIMEOUT__"%string)) = TimedOut
  ∧ deletion_of (Returns None) = Failed
  ∧ (∀ e, deletion_of (Throws e) = Failed)
  ∧ (∀ result, result ≠ "__TIMEOUT__"%string → deletion_of (Returns (Some result)) = Deleted)
  ∧ (∀ b, deletion_line b TimedOut ≠ deletion_line b Failed).
Proof.
  intros Hdry Hne Hdef candidates kind quote. subst quote.
  split; [|split; [done|split; [done|split; [done|split]]]].
  - assert (Hann : ∀ msg,
      list_candidates candidates (Spinner.error msg (console_log EmptyString t))
      = Returns (extend
          ([EmptyString; Spinner.error_line msg]
             ++ ((λ b, Spinner.log_line
                         ("  " ++ match find_result b (prResults t) with
                                  | Returns (Some r) => icon r
                                  | _ => "🗑️"
                                  end ++ " " ++ b) Colors.red)
                   <$> candidates)) [] t)).
    { intros msg. unfold Spinner.error.
      by rewrite !console_log_extend, extend_extend, list_candidates_extend. }
    assert (Hstart : deleteBranches answer del schedule t
      = if askConfirmation answer then
          Returns (delete_summary (shared (delete_pool del candidates schedule
                     (extend (announcement t ++ [EmptyString]) [] t))))
        else Returns (extend (announcement t ++ [Spinner.info_line "Cancelled."]) [] t)).
    { unfold deleteBranches.
      rewrite decide_False by (by destruct (branchesToDelete t)). cbv zeta.
      change (dryRun (console_log EmptyString t)) with (dryRun t). rewrite Hdry.
      change (untrackedOnly (console_log EmptyString t)) with (untrackedOnly t).
      unfold announcement. fold candidates.
      destruct (untrackedOnly t);
        change (branchesToDelete (Spinner.error _ (console_log EmptyString t)))
          with candidates;
        rewrite Hann;
        change (dryRun (extend _ _ t)) with (dryRun t); rewrite Hdry;
        change (branchesToDelete (console_log _ (extend _ _ t))) with candidates;
        unfold Spinner.info; rewrite !console_log_extend, !extend_extend; done. }
    rewrite Hstart. destruct (askConfirmation answer); [|done].
    rewrite delete_summary_extend.
    destruct (execute_history (length candidates) (deletionWorker_claim candidates)
                (deletionWorker_settle del candidates) (λ _ s, s)
                (Nat.min DELETE_CONCURRENCY (length candidates)) schedule
                {| deletedCount := 0; failedBranchesSync := [];
                   delete_tool := extend (announcement t ++ [EmptyString]) [] t |})
      as (tr & Hs & Hcl & Hse & _).
    { right. unfold DELETE_CONCURRENCY. subst candidates.
      destruct (branchesToDelete t); [done | simpl; lia]. }
    exists (settles tr). split; [done|].
    unfold delete_pool. rewrite Hs.
    rewrite replay_deletedCount, replay_failed, replay_tool, Hcl.
    cbn [deletedCount failedBranchesSync delete_tool].
    assert (Hcount :
      length (filter (λ i, deletion_of (del i) = Deleted) (settles tr))
      = length (filter (λ i, deletion_of (del i) = Deleted) (seq 0 (length candidates))))
      by (by rewrite Hse).
    rewrite !extend_extend, !app_nil_r, Hcount, <- !app_assoc.
    cbn [app Nat.add].
    assert (Hcmds :
      (λ i, (delete_command (candidate_at candidates i), silently))
        <$> seq 0 (length candidates)
      = (λ b, (delete_command b, silently)) <$> candidates).
    { transitivity ((λ b, (delete_command b, silently))
                      <$> ((λ i, default EmptyString (candidates !! i))
                             <$> seq 0 (length candidates)));
        [by rewrite <- list_fmap_compose | by rewrite fmap_at_seq]. }
    by rewrite Hcmds.
  - intros result Hr. unfold deletion_of.
    by destruct (String.eqb_spec result TIMEOUT).
  - intros b. unfold deletion_line. intros H.
    apply append_inv_head in H. rewrite append_assoc in H.
    apply append_inv_head in H. discriminate H.
Qed.

Definition two_candidates : tool :=
  set_results
    [Some {| branch := "b1"; icon := "✅"; label := "Merged" |};
     Some {| branch := "b2"; icon := "🔒"; label := "Closed" |}]%string
    ["b1"; "b2"]%string new_tool.

Definition one_candidate : tool :=
  set_results [Some {| branch := "b1"; icon := "✅"; label := "Merged" |}]%string
    ["b1"%string] new_tool.

(** Two candidates and the answer "n"; one candidate and the answer "y",
    first with a deletion that succeeds, then with one that times out. *)
Lemma deleteBranches_confirmation_witness :
  let quote := String (Ascii.ascii_of_N 34) EmptyString in
  let announced := λ (branches : list string) (lines : list string)
      (commands : list (string * exec_options)) (t : tool),
    {| dryRun := false; verbose := false; untrackedOnly := false; countOnly := false;
       branchesToDelete := branches; prResults := prResults t;
       currentBranch := EmptyString;
       terminal :=
         [EmptyString;
          (String ESC "[31m❌ "
             ++ "The following branches have merged or closed PRs and will be deleted:"
             ++ String ESC "[0m")%string] ++ lines;
       calls := commands |} in
  deleteBranches "n" (λ _, Returns None) [] two_candidates
  = Returns (announced ["b1"; "b2"]%string
               [(String ESC "[31m  ✅ b1" ++ String ESC "[0m")%string;
                (String ESC "[31m  🔒 b2" ++ String ESC "[0m")%string;
                (String ESC "[34mℹ️  Cancelled." ++ String ESC "[0m")%string]
               [] two_candidates)
  ∧ deleteBranches "y" (λ _, Returns (Some "Deleted branch b1 (was 1a2b3c4)."%string)) [0; 0]
      one_candidate
    = Returns (announced ["b1"%string]
                 [(String ESC "[31m  ✅ b1" ++ String ESC "[0m")%string;
                  EmptyString;
                  (String ESC "[32m✅ Deleted branch b1" ++ String ESC "[0m")%string;
                  (String ESC "[32m✅ Successfully deleted 1 branches"
                     ++ String ESC "[0m")%string]
                 [(("git branch -d " ++ quote ++ "b1" ++ quote)%string,
                   {| silent := true; timeout := None |})]
                 one_candidate)
  ∧ deleteBranches "yes" (λ _, Returns (Some "__TIMEOUT__"%string)) [0; 0] one_candidate
    = Returns (announced ["b1"%string]
                 [(String ESC "[31m  ✅ b1" ++ String ESC "[0m")%string;
                  EmptyString;
                  (String ESC "[31m❌ Failed to delete branch b1 (timeout)"
                     ++ String ESC "[0m")%string;
                  (String ESC "[33m⚠️  Deleted 0 branches, 1 failed"
                     ++ String ESC "[0m")%string;
                  (String ESC "[31m  Failed: b1" ++ String ESC "[0m")%string]
                 [(("git branch -d " ++ quote ++ "b1" ++ quote)%string,
                   {| silent := true; timeout := None |})]
                 one_candidate).
Proof.
  intros quote announced. split; [|split].
  - destruct (deleteBranches_confirmation "n" (λ _, Returns None) [] two_candidates)
      as [H _].
    + reflexivity.
    + discriminate.
    + repeat constructor; by eexists.
    + exact H.
  - destruct (deleteBranches_confirmation "y"
                (λ _, Returns (Some "Deleted branch b1 (was 1a2b3c4)."%string)) [0; 0]
                one_candidate) as [(order & Horder & H) _].
    + reflexivity.
    + discriminate.
    + repeat constructor; by eexists.
    + apply Permutation_singleton_r in Horder. subst order. exact H.
  - destruct (deleteBranches_confirmation "yes"
                (λ _, Returns (Some "__TIMEOUT__"%string)) [0; 0] one_candidate)
      as [(order & Horder & H) _].
    + reflexivity.
    + discriminate.
    + repeat constructor; by eexists.
    + apply Permutation_singleton_r in Horder. subst order. exact H.
Defined.

(** ** White space *)

Lemma strip_prefix_spec p s rest : strip_prefix p s = Some rest ↔ s = (p ++ rest)%string.
Proof.
  revert s. induction p as [|a p IH]; intros s; simpl.
  - split; [by intros [= ->] | by intros ->].
  - destruct s as [|b s]; [done|]. rewrite append_cons.
    destruct (Ascii.eqb_spec a b) as [->|Hne].
    + rewrite IH. split; [by intros -> | by intros [= ->]].
    + split; [done | by intros [= <- _]].
Qed.

Lemma white_space_inv s w rest :
  white_space s = Some (w, rest) → w ∈ WHITE_SPACE ∧ s = (w ++ rest)%string.
Proof.
  unfold white_space. intros Hhead%head_Some_elem_of.
  apply list_elem_of_omap in Hhead as (w' & Hw' & Hstrip).
  destruct (strip_prefix w' s) as [rest'|] eqn:E; simplify_eq/=.
  split; [done | by apply strip_prefix_spec].
Qed.

Lemma white_space_here w rest :
  w ∈ WHITE_SPACE → white_space (w ++ rest) = Some (w, rest).
Proof.
  unfold WHITE_SPACE. simpl. intros Hw.
  repeat (apply elem_of_cons in Hw as [->|Hw]; [reflexivity|]).
  by apply elem_of_nil in Hw.
Qed.

Lemma white_space_length w :
  w ∈ WHITE_SPACE → String.length w = 1 ∨ String.length w = 2 ∨ String.length w = 3.
Proof.
  unfold WHITE_SPACE. simpl. intros Hw.
  repeat (apply elem_of_cons in Hw as [->|Hw]; [simpl; tauto|]).
  by apply elem_of_nil in Hw.
Qed.

Lemma white_space_shorter s w rest :
  white_space s = Some (w, rest) → String.length rest < String.length s.
Proof.
  intros (Hw & ->)%white_space_inv. rewrite length_append.
  destruct (white_space_length w Hw) as [->|[->| ->]]; lia.
Qed.

Section FoldCharacters.
Context {A : Type}.
Variable space : string → string → A → A.
Variable byte : ascii → string → A → A.
Variable empty : A.

Lemma fold_characters_space s w rest :
  white_space s = Some (w, rest) →
  fold_characters space byte empty s = space w rest (fold_characters space byte empty rest).
Proof.
  intros Hs. destruct (white_space_inv _ _ _ Hs) as [Hw ->].
  destruct (white_space_length w Hw) as [Hlen|[Hlen|Hlen]];
    destruct w as [|c1 [|c2 [|c3 [|c4 w]]]]; simplify_eq/=;
    rewrite ?append_cons in *; cbn [fold_characters]; rewrite Hs; reflexivity.
Qed.

Lemma fold_characters_byte c s :
  white_space (String c s) = None →
  fold_characters space byte empty (String c s)
  = byte c s (fold_characters space byte empty s).
Proof. intros Hs. cbn [fold_characters]. by rewrite Hs. Qed.

End FoldCharacters.

(** Induction over the characters of a string. *)
Lemma characters_ind (P : string → Prop) :
  P EmptyString →
  (∀ s w rest, white_space s = Some (w, rest) → P rest → P s) →
  (∀ c s, white_space (String c s) = None → P s → P (String c s)) →
  ∀ s, P s.
Proof.
  intros Hempty Hspace Hbyte s.
  remember (String.length s) as n eqn:Hn. revert s Hn.
  induction n as [n IH] using lt_wf_ind. intros s ->.
  destruct s as [|c s]; [done|].
  destruct (white_space (String c s)) as [[w rest]|] eqn:E.
  - apply (Hspace _ w rest E). apply (IH (String.length rest)); [|done].
    by apply white_space_shorter in E.
  - apply Hbyte; [done|]. apply (IH (String.length s)); [simpl; lia | done].
Qed.

(** The UTF-8 bytes of a character of the Basic Multilingual Plane. *)
Definition encode (code : N) : string :=
  if (code <? 128)%N then utf8 [code]
  else if (code <? 2048)%N then utf8 [192 + code / 64; 128 + code mod 64]%N
  else utf8 [224 + code / 4096; 128 + (code / 64) mod 64; 128 + code mod 64]%N.

(** The white space of ECMAScript, character by character: TAB, LF, VT,
    FF, CR, SPACE, NO-BREAK SPACE, OGHAM SPACE MARK, EN QUAD to HAIR SPACE,
    LINE SEPARATOR, PARAGRAPH SEPARATOR, NARROW NO-BREAK SPACE, MEDIUM
    MATHEMATICAL SPACE, IDEOGRAPHIC SPACE and ZERO WIDTH NO-BREAK SPACE are
    trimmed and separate the pieces of a split, alone or in a run; NUL,
    BACKSPACE, FILE SEPARATOR, NEXT LINE, the MONGOLIAN VOWEL SEPARATOR,
    the ZERO WIDTH SPACE and the WORD JOINER are characters like any
    other. *)
Example white_space_characters :
  Forall (λ w, trim (w ++ "a b" ++ w ++ w) = "a b"%string
               ∧ trimStart (w ++ "a" ++ w) = ("a" ++ w)%string
               ∧ trimEnd (w ++ "a" ++ w) = (w ++ "a")%string
               ∧ split_ws ("a" ++ w ++ "b" ++ w ++ w ++ "c") = ["a"; "b"; "c"]%string)
    (encode <$> [9; 10; 11; 12; 13; 32; 160; 5760; 8192; 8193; 8194; 8195; 8196; 8197;
                 8198; 8199; 8200; 8201; 8202; 8232; 8233; 8239; 8287; 12288; 65279]%N)
  ∧ Forall (λ c, trim (c ++ "a" ++ c) = (c ++ "a" ++ c)%string
                 ∧ split_ws ("a" ++ c ++ "b") = [("a" ++ c ++ "b")%string])
      (encode <$> [0; 8; 28; 133; 6158; 8203; 8288]%N).
Proof. split; apply (bool_decide_unpack _); by vm_compute. Qed.

Lemma trimStart_space s w rest :
  white_space s = Some (w, rest) → trimStart s = trimStart rest.
Proof. exact (fold_characters_space _ _ _ s w rest). Qed.

Lemma trimStart_byte c s :
  white_space (String c s) = None → trimStart (String c s) = String c s.
Proof. exact (fold_characters_byte _ _ _ c s). Qed.

Lemma blank_space s w rest : white_space s = Some (w, rest) → blank s = blank rest.
Proof. exact (fold_characters_space _ _ _ s w rest). Qed.

Lemma blank_byte c s : white_space (String c s) = None → blank (String c s) = false.
Proof. exact (fold_characters_byte _ _ _ c s). Qed.

Lemma trimEnd_space s w rest :
  white_space s = Some (w, rest) →
  trimEnd s = if blank rest then EmptyString else (w ++ trimEnd rest)%string.
Proof. exact (fold_characters_space _ _ _ s w rest). Qed.

Lemma trimEnd_byte c s :
  white_space (String c s) = None → trimEnd (String c s) = String c (trimEnd s).
Proof. exact (fold_characters_byte _ _ _ c s). Qed.

Lemma split_ws_space s w rest :
  white_space s = Some (w, rest) →
  split_ws s = if starts_with_space rest then split_ws rest
               else EmptyString :: split_ws rest.
Proof. exact (fold_characters_space _ _ _ s w rest). Qed.

Lemma split_ws_byte c s :
  white_space (String c s) = None → split_ws (String c s) = cons_head c (split_ws s).
Proof. exact (fold_characters_byte _ _ _ c s). Qed.

Lemma white_space_not_empty w : w ∈ WHITE_SPACE → w ≠ EmptyString.
Proof. intros Hw ->. by destruct (white_space_length _ Hw) as [?|[?|?]]. Qed.

(** White space is seen where it is, whatever follows. *)
Lemma white_space_append s w rest tail :
  white_space s = Some (w, rest) →
  white_space (s ++ tail) = Some (w, (rest ++ tail)%string).
Proof.
  intros (Hw & ->)%white_space_inv. rewrite append_assoc. by apply white_space_here.
Qed.

(** A space after a string makes no white space with the end of it. *)
Lemma white_space_before_space c s tail :
  white_space (String c s) = None →
  white_space (String c s ++ String " " tail) = None.
Proof.
  intros Hnone.
  destruct (white_space (String c s ++ String " " tail)) as [[w rest]|] eqn:E; [|done].
  exfalso. apply white_space_inv in E as [Hw E].
  assert (∃ tail', String c s = (w ++ tail')%string) as [tail' Hs].
  { revert E. unfold WHITE_SPACE in Hw. simpl in Hw.
    repeat (apply elem_of_cons in Hw as [->|Hw];
            [destruct s as [|c2 [|c3 s]]; cbv [String.append utf8 fold_right];
             intros [=]; subst; by eexists|]).
    by apply elem_of_nil in Hw. }
  rewrite Hs, white_space_here in Hnone by done. done.
Qed.

Lemma blank_trimStart s : blank (trimStart s) = blank s.
Proof.
  induction s as [|s w rest Hs IH|c s Hs _] using characters_ind; [done| |].
  - by rewrite (trimStart_space _ _ _ Hs), (blank_space _ _ _ Hs).
  - by rewrite trimStart_byte.
Qed.

Lemma trimStart_empty s : String.eqb (trimStart s) EmptyString = blank s.
Proof.
  induction s as [|s w rest Hs IH|c s Hs _] using characters_ind; [done| |].
  - by rewrite (trimStart_space _ _ _ Hs), (blank_space _ _ _ Hs).
  - by rewrite trimStart_byte, blank_byte.
Qed.

Lemma trimEnd_empty s : String.eqb (trimEnd s) EmptyString = blank s.
Proof.
  induction s as [|s w rest Hs IH|c s Hs _] using characters_ind; [done| |].
  - rewrite (trimEnd_space _ _ _ Hs), (blank_space _ _ _ Hs).
    destruct (blank rest); [done|].
    apply white_space_inv in Hs as [Hw%white_space_not_empty _]. by destruct w.
  - by rewrite trimEnd_byte, blank_byte.
Qed.

Lemma trim_empty s : String.eqb (trim s) EmptyString = blank s.
Proof. unfold trim. by rewrite trimEnd_empty, blank_trimStart. Qed.

Lemma blank_append_space p q : blank (p ++ String " " q) = blank p && blank q.
Proof.
  induction p as [|p w rest Hp IH|c p Hp _] using characters_ind.
  - by apply (blank_space _ " " q).
  - rewrite (blank_space _ _ _ (white_space_append _ _ _ _ Hp)), IH.
    by rewrite (blank_space _ _ _ Hp).
  - rewrite (blank_byte _ _ Hp). destruct (String c p ++ String " " q)%string eqn:E; [done|].
    rewrite <- E. pose proof (white_space_before_space c p q Hp) as Hnone.
    rewrite E in *. by apply blank_byte.
Qed.

Lemma blank_join pieces : blank (join " " pieces) = forallb blank pieces.
Proof.
  induction pieces as [|p [|p' pieces] IH]; [done| |].
  - simpl. by rewrite andb_true_r.
  - change (blank (p ++ String " " (join " " (p' :: pieces)))%string
            = blank p && forallb blank (p' :: pieces)).
    by rewrite blank_append_space, IH.
Qed.

(** The code points of ECMAScript's [WhiteSpace] and [LineTerminator]
    productions. *)
Definition ECMA_WHITE_SPACE : list N :=
  [9; 10; 11; 12; 13; 32; 160; 5760; 8192; 8193; 8194; 8195; 8196; 8197; 8198; 8199;
   8200; 8201; 8202; 8232; 8233; 8239; 8287; 12288; 65279]%N.

(** A string made of white-space characters only. *)
Inductive spaces : string → Prop :=
| spaces_nil : spaces EmptyString
| spaces_cons code s :
    code ∈ ECMA_WHITE_SPACE → spaces s → spaces (encode code ++ s).

Lemma WHITE_SPACE_encode : WHITE_SPACE = encode <$> ECMA_WHITE_SPACE.
Proof. reflexivity. Qed.

Lemma white_space_code w : w ∈ WHITE_SPACE ↔ ∃ code, code ∈ ECMA_WHITE_SPACE ∧ w = encode code.
Proof.
  rewrite WHITE_SPACE_encode, list_elem_of_fmap. split; intros (code & ? & ?); by exists code.
Qed.

Lemma spaces_space w s : w ∈ WHITE_SPACE → spaces s → spaces (w ++ s).
Proof. intros (code & Hcode & ->)%white_space_code Hs. by constructor. Qed.

Lemma append_eq_append (a b c d : string) :
  (a ++ b)%string = (c ++ d)%string →
  (∃ x, a = (c ++ x)%string ∧ d = (x ++ b)%string)
  ∨ (∃ x, c = (a ++ x)%string ∧ b = (x ++ d)%string).
Proof.
  revert c. induction a as [|k a IH]; intros c H.
  - right. by exists c.
  - destruct c as [|k' c].
    + left. by exists (String k a).
    + rewrite !append_cons in H. injection H as -> H.
      destruct (IH c H) as [(x & -> & ->)|(x & -> & ->)]; [left | right]; by exists x.
Qed.

Lemma append_nil_r (s : string) : (s ++ EmptyString)%string = s.
Proof. induction s as [|c s IH]; [done|]. rewrite append_cons. by f_equal. Qed.

(** A white-space character starts with no other one. *)
Lemma white_space_alone w : w ∈ WHITE_SPACE → white_space w = Some (w, EmptyString).
Proof.
  intros Hw. rewrite <- (append_nil_r w) at 1. by apply white_space_here.
Qed.

(** The bytes of a white-space character after its first byte start no
    white-space character. *)
Lemma white_space_inside w p x tail :
  w ∈ WHITE_SPACE → w = (p ++ x)%string → p ≠ EmptyString → x ≠ EmptyString →
  white_space (x ++ tail) = None.
Proof.
  intros Hw Heq Hp Hx. revert Heq. unfold WHITE_SPACE in Hw. simpl in Hw.
  repeat (apply elem_of_cons in Hw as [->|Hw];
          [destruct p as [|c1 [|c2 [|c3 p]]]; try done;
           cbv [String.append utf8 fold_right]; intros [=]; subst; try done;
           try (by destruct p)|]).
  by apply elem_of_nil in Hw.
Qed.

Lemma blank_spaces s : blank s = true → spaces s.
Proof.
  induction s as [|s w rest Hs IH|c s Hs _] using characters_ind.
  - constructor.
  - rewrite (blank_space _ _ _ Hs). intros Hrest.
    apply white_space_inv in Hs as [Hw ->]. by apply spaces_space, IH.
  - by rewrite (blank_byte _ _ Hs).
Qed.

Lemma trimStart_spec s :
  ∃ l, s = (l ++ trimStart s)%string ∧ spaces l ∧ white_space (trimStart s) = None.
Proof.
  induction s as [|s w rest Hs (l & Hl & Hsp & Hnone)|c s Hs _] using characters_ind.
  - exists EmptyString. repeat split. constructor.
  - rewrite (trimStart_space _ _ _ Hs). apply white_space_inv in Hs as [Hw ->].
    exists (w ++ l)%string. rewrite append_assoc, <- Hl.
    split; [done|]. split; [by apply spaces_space | done].
  - rewrite (trimStart_byte _ _ Hs). exists EmptyString. repeat split; [constructor|done].
Qed.

Lemma trimEnd_spec s : ∃ r, s = (trimEnd s ++ r)%string ∧ spaces r.
Proof.
  induction s as [|s w rest Hs (r & Hr & Hsp)|c s Hs (r & Hr & Hsp)] using characters_ind.
  - exists EmptyString. split; [done | constructor].
  - rewrite (trimEnd_space _ _ _ Hs). pose proof Hs as [Hw ->]%white_space_inv.
    destruct (blank rest) eqn:Hblank.
    + exists (w ++ rest)%string. split; [done|]. by apply spaces_space, blank_spaces.
    + exists r. by rewrite append_assoc, <- Hr.
  - rewrite (trimEnd_byte _ _ Hs). exists r. rewrite append_cons. by rewrite <- Hr.
Qed.

Lemma trimEnd_no_space s p w : w ∈ WHITE_SPACE → trimEnd s ≠ (p ++ w)%string.
Proof.
  intros Hw. revert p.
  induction s as [|s w0 rest Hs IH|c s Hs IH] using characters_ind; intros p.
  - intros H. destruct p; [|done]. apply (white_space_not_empty w Hw). by symmetry.
  - rewrite (trimEnd_space _ _ _ Hs). pose proof Hs as [Hw0 ->]%white_space_inv.
    destruct (blank rest) eqn:Hblank.
    { intros H. destruct p; [|done]. apply (white_space_not_empty w Hw). by symmetry. }
    intros [(x & Hw0x & Hwx)|(x & -> & Hrest)]%append_eq_append.
    + destruct (decide (x = EmptyString)) as [->|Hx].
      { apply (IH EmptyString). by rewrite Hwx. }
      destruct (decide (p = EmptyString)) as [->|Hp].
      { change (EmptyString ++ x)%string with x in Hw0x. subst x.
        pose proof (white_space_alone w Hw) as Halone.
        rewrite Hwx, (white_space_here w0 (trimEnd rest) Hw0) in Halone.
        injection Halone as _ Hempty.
        pose proof (trimEnd_empty rest) as He. rewrite Hempty, Hblank in He. done. }
      pose proof (white_space_inside w0 p x (trimEnd rest) Hw0 Hw0x Hp Hx) as Hnone.
      rewrite <- Hwx, (white_space_alone w Hw) in Hnone. done.
    + by apply (IH x).
  - rewrite (trimEnd_byte _ _ Hs). destruct p as [|c' p].
    + intros H. change (EmptyString ++ w)%string with w in H.
      destruct (trimEnd_spec s) as (r & Hr & _).
      assert (Hsome : String c s = (w ++ r)%string) by (by rewrite <- H, append_cons, <- Hr).
      rewrite Hsome, white_space_here in Hs by done. done.
    + rewrite append_cons. intros [= _ H]. by apply (IH p).
Qed.

Lemma trimEnd_no_leading s : white_space s = None → white_space (trimEnd s) = None.
Proof.
  intros Hnone. destruct (white_space (trimEnd s)) as [[w rest]|] eqn:E; [|done].
  destruct (trimEnd_spec s) as (r & Hr & _).
  apply (white_space_append _ _ _ r) in E. rewrite <- Hr in E. congruence.
Qed.

(** [trim] removes the white space at both ends, and only that: what it
    returns is the string without a run of white-space characters before
    and a run after, and neither starts nor ends with a white-space
    character. *)
Lemma trim_spec s :
  ∃ before after,
    s = (before ++ trim s ++ after)%string ∧ spaces before ∧ spaces after
    ∧ (∀ code rest, code ∈ ECMA_WHITE_SPACE → trim s ≠ (encode code ++ rest)%string)
    ∧ (∀ code rest, code ∈ ECMA_WHITE_SPACE → trim s ≠ (rest ++ encode code)%string).
Proof.
  destruct (trimStart_spec s) as (l & Hl & Hspl & Hnone).
  destruct (trimEnd_spec (trimStart s)) as (r & Hr & Hspr).
  exists l, r. unfold trim. rewrite <- Hr, <- Hl. repeat split; try done.
  - intros code rest Hcode H.
    pose proof (trimEnd_no_leading _ Hnone) as Hlead.
    rewrite H, white_space_here in Hlead; [done|].
    apply white_space_code. by exists code.
  - intros code rest Hcode. apply trimEnd_no_space, white_space_code. by exists code.
Qed.

(** ** The command executor and the resolver *)

(** [C5]  What [execCommand] does, for every command, every options and
    every behaviour of the command.  With [silent] set it ends as the
    specification says: the standard output trimmed when the command
    succeeds, the sentinel "__TIMEOUT__" exactly when the failure is a
    timeout (code ETIMEDOUT or signal SIGTERM), and [null] for any other
    failure.  Without [silent] a failure of the command goes to the caller
    as it is, message included; but when the command succeeds, [execSync]
    has been given [stdio: "inherit"] and returns [null], [result.trim()]
    throws a [TypeError], and the [catch] block throws it again: the
    trimmed output is not returned.  So [execCommand("echo hi")] throws,
    where [execCommand("echo hi", { silent: true })] returns "hi".
    Trimmed means: without the run of white-space characters before and
    the run after, so that what is left neither starts nor ends with one;
    the last equation shows it on white space of every width. *)
Theorem execCommand_outcomes
    (child : string → sync_options → outcome string)
    (command : string) (options : exec_options) :
  let type_error :=
    {| message := "Cannot read properties of null (reading 'trim')"%string;
       code := None; signal := None |} in
  let echo : string → sync_options → outcome string :=
    λ _ _, Returns (String "h" (String "i" (String LF EmptyString))) in
  match child command (execSync_options options) with
  | Returns stdout =>
      execCommand child command options
      = if silent options then Returns (Some (trim stdout)) else Throws type_error
  | Throws error =>
      if silent options then
        (execCommand child command options = Returns (Some "__TIMEOUT__"%string)
         ↔ code error = Some "ETIMEDOUT"%string ∨ signal error = Some "SIGTERM"%string)
        ∧ (execCommand child command options = Returns None
           ↔ ¬ (code error = Some "ETIMEDOUT"%string ∨ signal error = Some "SIGTERM"%string))
      else execCommand child command options = Throws error
  end
  ∧ execCommand echo "echo hi" {| silent := false; timeout := None |} = Throws type_error
  ∧ execCommand echo "echo hi" {| silent := true; timeout := None |}
    = Returns (Some "hi"%string)
  ∧ (∀ stdout, ∃ before after,
       stdout = (before ++ trim stdout ++ after)%string
       ∧ spaces before ∧ spaces after
       ∧ (∀ code rest, code ∈ ECMA_WHITE_SPACE →
            trim stdout ≠ (encode code ++ rest)%string)
       ∧ (∀ code rest, code ∈ ECMA_WHITE_SPACE →
            trim stdout ≠ (rest ++ encode code)%string))
  ∧ trim (utf8 [10; 32; 194; 160; 104; 32; 227; 128; 128; 105; 226; 128; 131; 9; 13; 10]%N)
    = utf8 [104; 32; 227; 128; 128; 105]%N.
Proof.
  intros type_error echo.
  split; [|split; [by vm_compute|split; [by vm_compute|split; [|by vm_compute]]]];
    [|exact trim_spec].
  unfold execCommand, execSync.
  destruct (child command (execSync_options options)) as [out|e];
    unfold execSync_options, execCommand_catch; simpl.
  { by destruct (silent options). }
  destruct (silent options); simpl; [|done].
  unfold is_timeout.
  destruct (decide (code e = Some "ETIMEDOUT"%string)) as [Hc|Hc];
    destruct (decide (signal e = Some "SIGTERM"%string)) as [Hs|Hs];
    rewrite ?(bool_decide_eq_true_2 _ Hc), ?(bool_decide_eq_false_2 _ Hc),
      ?(bool_decide_eq_true_2 _ Hs), ?(bool_decide_eq_false_2 _ Hs); simpl;
    split; split; (done || tauto).
Qed.

(** [C7]  When the listing command gives [null], throws or times out,
    [getBranches] makes that one call, prints one line and returns the
    empty list: the failure does not reach the caller.  The line is the
    red one of the spinner, "Failed to get <mode> branches", with
    "(timeout)" added for a timeout; it tells the modes apart, and a
    timeout from another failure.  So it is with the real executor
    whenever the command itself fails. *)
Theorem getBranches_fail_soft
    (exec : string → exec_options → outcome (option string))
    (mode : string) (t : tool) :
  let listed := exec list_branches_command silently in
  let listing :=
    ("git for-each-ref --format=" ++ DQUOTE ++ "%(refname:short) %(upstream:short)"
       ++ DQUOTE ++ " refs/heads/")%string in
  let failed (mode : string) : string :=
    (String ESC "[31m❌ " ++ ("Failed to get " ++ mode ++ " branches")
       ++ String ESC "[0m")%string in
  let timed_out (mode : string) : string :=
    (String ESC "[31m❌ " ++ ("Failed to get " ++ mode ++ " branches (timeout)")
       ++ String ESC "[0m")%string in
  let reported (line : string) : tool :=
    {| dryRun := dryRun t; verbose := verbose t; untrackedOnly := untrackedOnly t;
       countOnly := countOnly t; branchesToDelete := branchesToDelete t;
       prResults := prResults t; currentBranch := currentBranch t;
       terminal := terminal t ++ [line];
       calls := calls t ++ [(listing, {| silent := true; timeout := None |})] |} in
  ((listed = Returns None ∨ ∃ e, listed = Throws e) →
     getBranches exec mode t = ([], reported (failed mode)))
  ∧ (listed = Returns (Some "__TIMEOUT__"%string) →
     getBranches exec mode t = ([], reported (timed_out mode)))
  ∧ (∀ child error,
      child listing (execSync_options silently) = Throws error →
      getBranches (execCommand child) mode t
      = ([], reported (if is_timeout error then timed_out mode else failed mode)))
  ∧ (∀ other, failed mode = failed other ∨ timed_out mode = timed_out other → mode = other)
  ∧ failed mode ≠ timed_out mode.
Proof.
  intros listed listing failed timed_out reported.
  subst listed listing failed timed_out reported. unfold getBranches. repeat split.
  - by intros [-> | [e ->]].
  - by intros ->.
  - intros child error Hfail. unfold execCommand, execSync.
    change (child list_branches_command (execSync_options silently) = Throws error) in Hfail.
    rewrite Hfail. unfold execCommand_catch. simpl.
    by destruct (is_timeout error).
  - intros other [H|H]; apply append_inv_head in H; rewrite !append_assoc in H;
      apply append_inv_head in H; by apply append_inv_tail in H.
  - intros H. apply append_inv_head in H. rewrite !append_assoc in H.
    do 2 apply append_inv_head in H. discriminate H.
Qed.

Lemma getBranches_fail_soft_witness :
  getBranches (λ _ _, Returns (Some TIMEOUT)) "tracked" new_tool
  = ([], {| dryRun := false; verbose := false; untrackedOnly := false; countOnly := false;
            branchesToDelete := []; prResults := []; currentBranch := EmptyString;
            terminal := [(String ESC "[31m❌ Failed to get tracked branches (timeout)"
                            ++ String ESC "[0m")%string];
            calls := [(list_branches_command, {| silent := true; timeout := None |})] |}).
Proof.
  destruct (getBranches_fail_soft (λ _ _, Returns (Some TIMEOUT)) "tracked" new_tool)
    as (_ & H & _).
  apply H. reflexivity.
Defined.

(** The reading of C8 as it is written: an exception during the query of a
    branch makes the status of that branch the ERROR one, the record
    (⚠️, Error). *)
Definition exception_degrades_to_error : Prop :=
  ∀ (exec : string → exec_options → outcome (option string)) (b : string) (e : js_error),
    exec (pr_view_command b) pr_view_options = Throws e →
    prResults (checkBranches_on [b] (λ _, (getPRStatus exec b new_tool).1) []
                 new_tool)
    = [Some (error_result b)].

(** The query of "feature1" throws: [getPRStatus] returns [null], and the
    record of the branch is (❌, No PR), not the Error record. *)
Lemma getPRStatus_exception_is_no_pr :
  (getPRStatus (λ _ _, Throws {| message := "Failed"; code := None; signal := None |})
     "feature1" new_tool).1 = Returns None
  ∧ prResults
      (checkBranches_on ["feature1"%string]
         (λ _, (getPRStatus
                  (λ _ _, Throws {| message := "Failed"; code := None; signal := None |})
                  "feature1" new_tool).1) [] new_tool)
    = [Some {| branch := "feature1"; icon := "❌"; label := "No PR" |}]
  ∧ ¬ exception_degrades_to_error.
Proof.
  split; [reflexivity|]. split; [by vm_compute|].
  intros H.
  specialize (H (λ _ _, Throws {| message := "Failed"; code := None; signal := None |})
                "feature1"%string
                {| message := "Failed"; code := None; signal := None |} eq_refl).
  vm_compute in H. discriminate H.
Qed.

(** [C8, amended]  [getPRStatus] makes one [execCommand] call for the
    branch, with a timeout of 10 seconds where the default is 30, and never
    throws: what the call returns is returned, and an exception of the call
    becomes [null].  With the real executor a query that times out gives
    the timeout sentinel, which the classification reports as Timeout, and
    a query that fails otherwise gives [null], which it reports as No PR. *)
Theorem getPRStatus_never_throws
    (exec : string → exec_options → outcome (option string))
    (child : string → sync_options → outcome string)
    (b : string) (t : tool) :
  let command := pr_view_command b in
  let options := {| silent := true; timeout := Some 10000%N |} in
  calls (getPRStatus exec b t).2 = calls t ++ [(command, options)]
  ∧ sync_timeout (execSync_options options) = 10000%N
  ∧ sync_timeout (execSync_options silently) = 30000%N
  ∧ (getPRStatus exec b t).1
    = match exec command options with
      | Returns state => Returns state
      | Throws _ => Returns None
      end
  ∧ (∀ e, (getPRStatus exec b t).1 ≠ Throws e)
  ∧ (getPRStatus (execCommand child) b t).1
    = match child command (execSync_options options) with
      | Returns stdout => Returns (Some (trim stdout))
      | Throws error => Returns (if is_timeout error then Some TIMEOUT else None)
      end
  ∧ classify (Some TIMEOUT) = ("❓", "Timeout", false)%string
  ∧ classify None = ("❌", "No PR", false)%string.
Proof.
  intros command options. subst command options.
  unfold getPRStatus, pr_view_options.
  repeat split.
  - by destruct (exec _ _).
  - by destruct (exec _ _).
  - intros e. by destruct (exec _ _).
  - unfold execCommand, execSync. destruct (child _ _) as [out|error]; [done|].
    unfold execCommand_catch. simpl.
    by destruct (is_timeout error).
Qed.

(** ** The branch classifier *)

(** The name of a line: what precedes its first white space. *)
Definition name_of : string → string :=
  fold_characters (λ _ _ _, EmptyString) (λ c _ name, String c name) EmptyString.

(** The upstream remainder of a line: what follows the run of white space
    that ends its name. *)
Definition upstream_of : string → string :=
  fold_characters (λ _ rest _, trimStart rest) (λ _ _ upstream, upstream) EmptyString.

(** A line is tracked when its upstream remainder is not empty once
    trimmed. *)
Definition tracked (line : string) : bool :=
  negb (String.eqb (trim (upstream_of line)) EmptyString).

(** The subset a mode selects. *)
Definition selected (mode line : string) : bool :=
  String.eqb mode "all"
  || (String.eqb mode "tracked" && tracked line)
  || (String.eqb mode "untracked" && negb (tracked line)).

(** The classifier in the words of the specification: of the lines that are
    not blank, trimmed, those whose name is not protected and that the mode
    selects give their names, in the order of the text. *)
Definition classified (current mode text : string) : list string :=
  let lines := trim <$> filter (λ line, trim line ≠ EmptyString) (split_char LF text) in
  name_of
    <$> filter (λ line, (name_of line ∉ ["main"; "master"; current]%string)
                        ∧ (selected mode line = true)) lines.

Lemma name_of_space s w rest : white_space s = Some (w, rest) → name_of s = EmptyString.
Proof. exact (fold_characters_space _ _ _ s w rest). Qed.

Lemma name_of_byte c s :
  white_space (String c s) = None → name_of (String c s) = String c (name_of s).
Proof. exact (fold_characters_byte _ _ _ c s). Qed.

Lemma upstream_of_space s w rest :
  white_space s = Some (w, rest) → upstream_of s = trimStart rest.
Proof. exact (fold_characters_space _ _ _ s w rest). Qed.

Lemma upstream_of_byte c s :
  white_space (String c s) = None → upstream_of (String c s) = upstream_of s.
Proof. exact (fold_characters_byte _ _ _ c s). Qed.

Lemma name_of_prefix s : ∃ tail, s = (name_of s ++ tail)%string.
Proof.
  induction s as [|s w rest Hs _|c s Hs [tail IH]] using characters_ind.
  - by exists EmptyString.
  - exists s. by rewrite (name_of_space _ _ _ Hs).
  - exists tail. rewrite (name_of_byte _ _ Hs).
    change (String c s = String c (name_of s ++ tail)). by f_equal.
Qed.

(** The name of a line joins no white space with the byte before it. *)
Lemma white_space_name_of c s :
  white_space (String c s) = None → white_space (String c (name_of s)) = None.
Proof.
  intros Hnone. destruct (white_space (String c (name_of s))) as [[w rest]|] eqn:E; [|done].
  destruct (name_of_prefix s) as [tail Hs].
  apply (white_space_append _ _ _ tail) in E.
  change (String c (name_of s) ++ tail)%string with (String c (name_of s ++ tail)) in E.
  rewrite <- Hs in E. congruence.
Qed.

Lemma white_space_not_in_empty code before after :
  code ∈ ECMA_WHITE_SPACE → EmptyString ≠ (before ++ encode code ++ after)%string.
Proof.
  intros Hcode. destruct before; [|done].
  assert (Hw : encode code ∈ WHITE_SPACE) by (apply white_space_code; by exists code).
  apply white_space_not_empty in Hw. by destruct (encode code).
Qed.

(** The parts of a line: the name, a run of white space, the upstream
    remainder; the name holds no white space and the remainder starts with
    none; without white space the line is its name. *)
Lemma line_parts line :
  ∃ gap,
    line = (name_of line ++ gap ++ upstream_of line)%string
    ∧ spaces gap
    ∧ (gap = EmptyString → upstream_of line = EmptyString)
    ∧ (∀ code before after, code ∈ ECMA_WHITE_SPACE →
         name_of line ≠ (before ++ encode code ++ after)%string)
    ∧ (∀ code after, code ∈ ECMA_WHITE_SPACE →
         upstream_of line ≠ (encode code ++ after)%string).
Proof.
  induction line as [|s w rest Hs _|c s Hs (gap & Hgap & Hsp & Hnone & Hname & Hup)]
    using characters_ind.
  - exists EmptyString. split; [done|]. split; [constructor|]. split; [done|].
    split; [intros code before after | intros code after];
      [apply white_space_not_in_empty | apply (white_space_not_in_empty code EmptyString)].
  - rewrite (name_of_space _ _ _ Hs), (upstream_of_space _ _ _ Hs).
    pose proof Hs as [Hw ->]%white_space_inv.
    destruct (trimStart_spec rest) as (l & Hl & Hspl & Hstart).
    exists (w ++ l)%string.
    split; [by rewrite append_assoc, <- Hl|]. split; [by apply spaces_space|].
    split; [|split].
    + intros Hempty. apply white_space_not_empty in Hw. by destruct w.
    + intros code before after. apply white_space_not_in_empty.
    + intros code after Hcode H. rewrite H, white_space_here in Hstart; [done|].
      apply white_space_code. by exists code.
  - rewrite (name_of_byte _ _ Hs), (upstream_of_byte _ _ Hs).
    exists gap. rewrite append_cons, <- Hgap.
    split; [done|]. split; [done|]. split; [done|]. split; [|done].
    intros code [|c' before] after Hcode.
    + intros H. pose proof (white_space_name_of _ _ Hs) as Hnot.
      change (EmptyString ++ encode code ++ after)%string
        with (encode code ++ after)%string in H.
      rewrite H, white_space_here in Hnot; [done|].
      apply white_space_code. by exists code.
    + rewrite append_cons. intros [= _ H]. by apply (Hname code before after).
Qed.

Lemma split_ws_cons s : ∃ p ps, split_ws s = p :: ps.
Proof.
  induction s as [|s w rest Hs (p & ps & IH)|c s Hs (p & ps & IH)] using characters_ind.
  - by eexists _, _.
  - rewrite (split_ws_space _ _ _ Hs). destruct (starts_with_space rest); by eexists _, _.
  - rewrite (split_ws_byte _ _ Hs), IH. by eexists _, _.
Qed.

Lemma hd_split_ws s : hd EmptyString (split_ws s) = name_of s.
Proof.
  induction s as [|s w rest Hs IH|c s Hs IH] using characters_ind; [done| |].
  - rewrite (split_ws_space _ _ _ Hs), (name_of_space _ _ _ Hs).
    unfold starts_with_space. destruct (white_space rest) as [[w' rest']|] eqn:E; [|done].
    by rewrite IH, (name_of_space _ _ _ E).
  - rewrite (split_ws_byte _ _ Hs), (name_of_byte _ _ Hs).
    destruct (split_ws_cons s) as (p & ps & E). rewrite E in *. simpl in *.
    by rewrite IH.
Qed.

Lemma blank_split_ws s : forallb blank (split_ws s) = blank s.
Proof.
  induction s as [|s w rest Hs IH|c s Hs IH] using characters_ind; [done| |].
  - rewrite (split_ws_space _ _ _ Hs), (blank_space _ _ _ Hs).
    by destruct (starts_with_space rest).
  - rewrite (split_ws_byte _ _ Hs), (blank_byte _ _ Hs).
    pose proof (hd_split_ws s) as Hhd.
    destruct (split_ws_cons s) as (p & ps & E). rewrite E in *. simpl in *. subst p.
    by rewrite (blank_byte _ _ (white_space_name_of _ _ Hs)).
Qed.

Lemma blank_tl_split_ws s : forallb blank (tl (split_ws s)) = blank (upstream_of s).
Proof.
  induction s as [|s w rest Hs IH|c s Hs IH] using characters_ind; [done| |].
  - rewrite (split_ws_space _ _ _ Hs), (upstream_of_space _ _ _ Hs).
    unfold starts_with_space. destruct (white_space rest) as [[w' rest']|] eqn:E.
    + by rewrite IH, (upstream_of_space _ _ _ E), (trimStart_space _ _ _ E).
    + cbn [tl]. by rewrite blank_split_ws, blank_trimStart.
  - rewrite (split_ws_byte _ _ Hs), (upstream_of_byte _ _ Hs).
    destruct (split_ws_cons s) as (p & ps & E). rewrite E in *. done.
Qed.

(** [isTracked] of the source is [tracked]. *)
Lemma isTracked_tracked line :
  let upstream := join " " (tl (split_ws line)) in
  negb (String.eqb upstream EmptyString) && negb (String.eqb (trim upstream) EmptyString)
  = tracked line.
Proof.
  intros upstream. unfold tracked. rewrite !trim_empty. subst upstream.
  rewrite blank_join, blank_tl_split_ws.
  destruct (blank (upstream_of line)) eqn:E; [by rewrite andb_false_r|].
  rewrite andb_true_r.
  destruct (String.eqb_spec (join " " (tl (split_ws line))) EmptyString) as [Hj|]; [|done].
  pose proof (blank_join (tl (split_ws line))) as Hb.
  rewrite Hj, blank_tl_split_ws, E in Hb. done.
Qed.

Lemma includes_true a x : includes a x = true ↔ x ∈ a.
Proof.
  unfold includes. induction a as [|y a IH]; simpl.
  - split; [done | by intros ?%elem_of_nil].
  - rewrite orb_true_iff, IH, elem_of_cons, String.eqb_eq. done.
Qed.

Section ClassifierTheory.

Variable mode : string.
Variable t : tool.

(** The lines [getBranches] keeps. *)
Definition kept (line : string) : Prop :=
  (name_of line ∉ ["main"; "master"; currentBranch t]%string)
  ∧ (selected mode line = true).

Lemma visit_spec result line :
  visit mode t result line
  = result ++ (if decide (kept line) then [name_of line] else []).
Proof.
  unfold visit, kept. cbv zeta. rewrite hd_split_ws.
  rewrite (isTracked_tracked line).
  destruct (includes (PROTECTED t) (name_of line)) eqn:Hp.
  - apply includes_true in Hp. rewrite decide_False by tauto. by rewrite app_nil_r.
  - assert (Hn : name_of line ∉ PROTECTED t).
    { intros Hin%includes_true. congruence. }
    unfold selected.
    destruct (String.eqb mode "tracked"), (String.eqb mode "untracked"),
      (String.eqb mode "all"), (tracked line); simpl;
      (rewrite decide_True by done) || (rewrite decide_False by (intros [_ ?]; done));
      by rewrite ?app_nil_r.
Qed.

Lemma fold_visit lines result :
  fold_left (visit mode t) lines result = result ++ (name_of <$> filter kept lines).
Proof.
  revert result. induction lines as [|line lines IH]; intros result; simpl.
  - by rewrite app_nil_r.
  - rewrite IH, visit_spec, filter_cons.
    case_decide; [|by rewrite app_nil_r]. by rewrite <- app_assoc.
Qed.

End ClassifierTheory.

(** The reading of C6 as it is written: whatever text the listing command
    gives, [getBranches] returns the names the classifier selects in it. *)
Definition classifies_every_listing : Prop :=
  ∀ (exec : string → exec_options → outcome (option string)) (mode : string) (t : tool)
    (text : string),
    exec list_branches_command silently = Returns (Some text) →
    (getBranches exec mode t).1 = classified (currentBranch t) mode text.

(** A repository whose one branch is named "__TIMEOUT__" and has no
    upstream, with HEAD detached: the command prints "__TIMEOUT__ " and a
    line feed, [execCommand] returns "__TIMEOUT__", and [getBranches] takes
    it for the sentinel of a timeout: it prints the error and returns no
    branch, where the classifier finds the branch "__TIMEOUT__". *)
Lemma getBranches_sentinel_listing :
  getBranches (execCommand (λ _ _, Returns ("__TIMEOUT__ " ++ String LF EmptyString)%string))
    "all" new_tool
  = ([], {| dryRun := false; verbose := false; untrackedOnly := false; countOnly := false;
            branchesToDelete := []; prResults := []; currentBranch := EmptyString;
            terminal := [(String ESC "[31m❌ Failed to get all branches (timeout)"
                            ++ String ESC "[0m")%string];
            calls := [(list_branches_command, {| silent := true; timeout := None |})] |})
  ∧ classified EmptyString "all" "__TIMEOUT__" = ["__TIMEOUT__"%string]
  ∧ ¬ classifies_every_listing.
Proof.
  split; [by vm_compute|]. split; [by vm_compute|].
  intros H.
  specialize (H (λ _ _, Returns (Some "__TIMEOUT__"%string)) "all"%string new_tool
                "__TIMEOUT__"%string eq_refl).
  vm_compute in H. discriminate H.
Qed.

(** [C6, amended]  For every listing text other than the timeout sentinel
    and every mode, [getBranches] returns what the specification
    describes: each non-blank line, trimmed, is split at its first run of
    white space into a name and an upstream remainder, the lines named
    "main", "master" or as the current branch are dropped, a line is
    tracked exactly when its upstream remainder is not empty once trimmed,
    and the names of the subset the mode selects come out in the order of
    the lines.  The text "__TIMEOUT__" is taken for a timeout and gives no
    branch.  Whatever the command gives, no name returned is "main",
    "master" or the current branch.  The last part says what the name and
    the upstream remainder of a line are: the line is the name, a run of
    white-space characters and the remainder, the name holds no white
    space, and the remainder starts with none and is empty when the line
    has no white space. *)
Theorem getBranches_classifies
    (exec : string → exec_options → outcome (option string)) (mode : string) (t : tool) :
  (∀ text, exec list_branches_command silently = Returns (Some text) →
           text ≠ "__TIMEOUT__"%string →
           (getBranches exec mode t).1 = classified (currentBranch t) mode text)
  ∧ (exec list_branches_command silently = Returns (Some "__TIMEOUT__"%string) →
     (getBranches exec mode t).1 = [])
  ∧ (∀ b, b ∈ (getBranches exec mode t).1 →
          b ≠ "main"%string ∧ b ≠ "master"%string ∧ b ≠ currentBranch t)
  ∧ (∀ line, ∃ gap,
       line = (name_of line ++ gap ++ upstream_of line)%string
       ∧ spaces gap
       ∧ (gap = EmptyString → upstream_of line = EmptyString)
       ∧ (∀ code before after, code ∈ ECMA_WHITE_SPACE →
            name_of line ≠ (before ++ encode code ++ after)%string)
       ∧ (∀ code after, code ∈ ECMA_WHITE_SPACE →
            upstream_of line ≠ (encode code ++ after)%string)).
Proof.
  split; [|split; [|split; [|exact line_parts]]].
  - intros text Hexec Htext. unfold getBranches. rewrite Hexec.
    destruct (String.eqb_spec text TIMEOUT) as [|_]; [done|].
    simpl. by rewrite fold_visit.
  - intros Hexec. unfold getBranches. by rewrite Hexec.
  - intros b. unfold getBranches.
    destruct (exec _ _) as [[text|]|e]; simpl; try by intros ?%elem_of_nil.
    destruct (String.eqb text TIMEOUT); simpl; [by intros ?%elem_of_nil|].
    rewrite fold_visit. simpl.
    intros (line & -> & [[Hname _] _]%list_elem_of_filter)%list_elem_of_fmap.
    set_solver.
Qed.

Definition sample_listing : string :=
  "feature1    origin/feature1" ++ String LF "feature2  upstream/feature2"
    ++ String LF "main origin/main".

(** A listing whose white space is not all ASCII: a no-break space and an
    ideographic space after the first name, a tabulation after the second,
    an em space alone on the third line. *)
Definition wide_listing : string :=
  ("feature1" ++ utf8 [194; 160; 227; 128; 128]%N ++ "origin/feature1"
     ++ String LF ("feature2" ++ utf8 [9]%N ++ String LF (utf8 [226; 128; 131]%N)))%string.

Definition on_main : tool :=
  {| dryRun := false; verbose := false; untrackedOnly := false; countOnly := false;
     branchesToDelete := []; prResults := []; currentBranch := "main";
     terminal := []; calls := [] |}.

Lemma getBranches_classifies_witness :
  (getBranches (λ _ _, Returns (Some sample_listing)) "tracked" on_main).1
  = classified "main" "tracked" sample_listing
  ∧ classified "main" "tracked" sample_listing = ["feature1"; "feature2"]%string
  ∧ classified "main" "tracked" wide_listing = ["feature1"%string]
  ∧ classified "main" "untracked" wide_listing = ["feature2"%string]
  ∧ (getBranches (λ _ _, Returns (Some wide_listing)) "all" on_main).1
    = ["feature1"; "feature2"]%string.
Proof.
  split.
  - apply (getBranches_classifies (λ _ _, Returns (Some sample_listing)) "tracked" on_main).
    + reflexivity.
    + discriminate.
  - by vm_compute.
Defined.

(** ** Tracked and untracked partition all *)

(** The entries of [l] whose flag in [mask] is [keep]. *)
Definition masked (keep : bool) (mask : list bool) (l : list string) : list string :=
  (filter (λ p, p.2 = keep) (zip l mask)).*1.

Lemma masked_sublist keep mask l : masked keep mask l `sublist_of` l.
Proof.
  unfold masked. revert mask. induction l as [|x l IH]; intros [|m mask]; simpl;
    try apply sublist_nil_l.
  rewrite filter_cons. case_decide; simpl.
  - by apply sublist_skip.
  - by apply sublist_cons.
Qed.

Lemma masked_Permutation mask l :
  length mask = length l → masked true mask l ++ masked false mask l ≡ₚ l.
Proof.
  unfold masked. revert mask. induction l as [|x l IH]; intros [|m mask] Hlen;
    simplify_eq/=; [done|].
  rewrite !filter_cons. destruct m; simpl.
  - constructor. by apply IH.
  - rewrite <- Permutation_middle. constructor. by apply IH.
Qed.

Lemma kept_cases (t : tool) (line : string) :
  (¬ kept "all" t line ∧ ¬ kept "tracked" t line ∧ ¬ kept "untracked" t line)
  ∨ (kept "all" t line ∧ kept "tracked" t line ∧ ¬ kept "untracked" t line)
  ∨ (kept "all" t line ∧ ¬ kept "tracked" t line ∧ kept "untracked" t line).
Proof.
  unfold kept, selected. simpl.
  destruct (decide (name_of line ∉ ["main"; "master"; currentBranch t]%string));
    destruct (tracked line); simpl; intuition congruence.
Qed.

Lemma kept_partition (t : tool) (lines : list string) :
  ∃ mask,
    length mask = length (name_of <$> filter (kept "all" t) lines)
    ∧ name_of <$> filter (kept "tracked" t) lines
      = masked true mask (name_of <$> filter (kept "all" t) lines)
    ∧ name_of <$> filter (kept "untracked" t) lines
      = masked false mask (name_of <$> filter (kept "all" t) lines).
Proof.
  induction lines as [|line lines (mask & Hlen & Htr & Hun)]; [by exists []|].
  rewrite !filter_cons.
  destruct (kept_cases t line) as [(Ha & Ht & Hu)|[(Ha & Ht & Hu)|(Ha & Ht & Hu)]].
  - exists mask.
    rewrite (decide_False (P := kept "all" t line)),
      (decide_False (P := kept "tracked" t line)),
      (decide_False (P := kept "untracked" t line)) by done.
    done.
  - exists (true :: mask).
    rewrite (decide_True (P := kept "all" t line)),
      (decide_True (P := kept "tracked" t line)),
      (decide_False (P := kept "untracked" t line)) by done.
    unfold masked in *. simpl.
    split; [f_equal; exact Hlen|]. split; [f_equal; exact Htr | exact Hun].
  - exists (false :: mask).
    rewrite (decide_True (P := kept "all" t line)),
      (decide_False (P := kept "tracked" t line)),
      (decide_True (P := kept "untracked" t line)) by done.
    unfold masked in *. simpl.
    split; [f_equal; exact Hlen|]. split; [exact Htr | f_equal; exact Hun].
Qed.

(** [C10]  For every outcome of the listing command and every current
    branch, the "tracked" and "untracked" results of [getBranches]
    partition its "all" result line by line: a flag for each entry of "all"
    tells which of the two holds it, so that each entry is in exactly one,
    each of the two is a subsequence of "all" in the same order, and
    together they are "all". *)
Theorem getBranches_partition
    (exec : string → exec_options → outcome (option string)) (t : tool) :
  let all := (getBranches exec "all" t).1 in
  let tr := (getBranches exec "tracked" t).1 in
  let un := (getBranches exec "untracked" t).1 in
  (∃ mask, length mask = length all
         ∧ tr = masked true mask all ∧ un = masked false mask all)
  ∧ tr `sublist_of` all
  ∧ un `sublist_of` all
  ∧ tr ++ un ≡ₚ all.
Proof.
  intros all tr un.
  assert (Hmask : ∃ mask, length mask = length all
                        ∧ tr = masked true mask all ∧ un = masked false mask all).
  { subst all tr un. unfold getBranches.
    destruct (exec _ _) as [[text|]|e]; simpl; try by exists [].
    destruct (String.eqb text TIMEOUT); simpl; [by exists []|].
    rewrite !fold_visit.
    apply (kept_partition (record_call list_branches_command silently t)). }
  split; [done|]. destruct Hmask as (mask & Hlen & -> & ->).
  split; [apply masked_sublist|]. split; [apply masked_sublist|].
  by apply masked_Permutation.
Qed.

(** * The rest of the program

    The methods of [GitCleanupTool] that the worker pools do not need
    ([parseArguments], [checkDependencies], [getCurrentBranch],
    [countBranches], [checkUntrackedBranches], [displayResults], [run])
    and the entry point [bin.js], each followed by what the code shows
    about it; then the two pools while they run and a whole run of the
    program; then the [Spinner] object with its timer, [askConfirmation],
    the script [fix-junit.js] and [clearTerminal]. *)

(** How a method of the program ends: it returns a value, the process
    exits with a code ([process.exit] does not return), or it throws.  The
    state at that point comes with it. *)
Inductive ending (St A : Type) : Type :=
| Done (a : A) (s : St)
| Exit (code : nat) (s : St)
| Raise (e : js_error) (s : St).
Arguments Done {St A} a s.
Arguments Exit {St A} code s.
Arguments Raise {St A} e s.

(** The state an ending carries. *)
Definition final {St A : Type} (m : ending St A) : St :=
  match m with
  | Done _ s | Exit _ s | Raise _ s => s
  end.

(** The rest of a method runs when what precedes returns. *)
Definition and_then {St A B : Type} (m : ending St A) (k : A → St → ending St B)
    : ending St B :=
  match m with
  | Done a s => k a s
  | Exit code s => Exit code s
  | Raise e s => Raise e s
  end.

(** ** The command line *)

Definition bold : string := String ESC "[1m".

(** The text of [showHelp], line by line. *)
Definition help_lines : list string :=
    [EmptyString;
     bold ++ "git-cleanup-merged" ++ Colors.reset ++ " - Clean up merged Git branches";
     EmptyString;
     bold ++ "USAGE:" ++ Colors.reset;
     "    git-cleanup-merged [DIRECTORY] [OPTIONS]";
     EmptyString;
     bold ++ "DIRECTORY (optional):" ++ Colors.reset;
     "    Path to a git repository to operate on. Defaults to the current directory if omitted.";
     EmptyString;
     bold ++ "OPTIONS:" ++ Colors.reset;
     "    -n, --dry-run         Show what would be deleted without actually deleting";
     "    -v, --verbose         Show detailed information during processing";
     "    -u, --untracked-only  Only process untracked local branches (no remote tracking branch)";
     "    -c, --count           Display branch count summary and exit (no deletion)";
     "    -V, --version         Show version information";
     "    -h, --help            Show this help message";
     EmptyString;
     bold ++ "DESCRIPTION:" ++ Colors.reset;
     "    This tool checks your local Git branches against GitHub PRs to find";
     "    branches that have been merged and are safe to delete locally.";
     "    ";
     "    When using --untracked-only, it will only process local branches that";
     "    don't have a corresponding remote tracking branch.";
     EmptyString;
     bold ++ "REQUIREMENTS:" ++ Colors.reset;
     "    - Git repository";
     "    - GitHub CLI (gh) installed and authenticated (only for normal mode)";
     "    - Internet connection to check GitHub PR status (only for normal mode)";
     EmptyString;
     bold ++ "EXAMPLES:" ++ Colors.reset;
     "    git-cleanup-merged                    # Clean up merged branches in current directory";
     "    git-cleanup-merged ../my/repo         # Clean up merged branches in another repo";
     "    git-cleanup-merged --dry-run          # Preview what would be deleted";
     "    git-cleanup-merged --verbose          # Show detailed processing info";
     "    git-cleanup-merged --untracked-only   # Clean up untracked local branches only";
     "    git-cleanup-merged -u                 # Same as --untracked-only";
     "    git-cleanup-merged --untracked-only --dry-run  # Preview untracked branches";
     "    git-cleanup-merged -u -n              # Same as above with shorthand";
     "    git-cleanup-merged --count            # Display branch count summary";
     "    git-cleanup-merged -c                 # Same as --count";
     "        "]%string.

(** [showHelp]: one [console.log] of the whole text. *)
Definition showHelp (t : tool) : tool :=
  console_log (join (String LF EmptyString) help_lines) t.

(** The tool object with its [version] field, and the directories handed
    to [process.chdir] so far. *)
Record program := Program {
  this : tool;
  version : string;
  chdirs : list string
}.

Definition on_this (f : tool → tool) (p : program) : program :=
  {| this := f (this p); version := version p; chdirs := chdirs p |}.

Definition record_chdir (dir : string) (p : program) : program :=
  {| this := this p; version := version p; chdirs := chdirs p ++ [dir] |}.

Definition set_flags (dry verb untracked count : bool) (t : tool) : tool :=
  {| dryRun := dry; verbose := verb; untrackedOnly := untracked; countOnly := count;
     branchesToDelete := branchesToDelete t; prResults := prResults t;
     currentBranch := currentBranch t; terminal := terminal t; calls := calls t |}.

Definition set_dryRun (t : tool) : tool :=
  set_flags true (verbose t) (untrackedOnly t) (countOnly t) t.
Definition set_verbose (t : tool) : tool :=
  set_flags (dryRun t) true (untrackedOnly t) (countOnly t) t.
Definition set_untrackedOnly (t : tool) : tool :=
  set_flags (dryRun t) (verbose t) true (countOnly t) t.
Definition set_countOnly (t : tool) : tool :=
  set_flags (dryRun t) (verbose t) (untrackedOnly t) true t.

(** [arg.startsWith("-")] *)
Definition startsWith_dash (arg : string) : bool :=
  match arg with
  | String c _ => Ascii.eqb c "-"
  | EmptyString => false
  end.

(** The [for] loop of [parseArguments] with its [switch]. *)
Fixpoint parse_options (args : list string) (p : program) : ending program (option nat) :=
  match args with
  | [] => Done None p
  | arg :: rest =>
      if String.eqb arg "--dry-run" || String.eqb arg "-n"
      then parse_options rest (on_this set_dryRun p)
      else if String.eqb arg "--verbose" || String.eqb arg "-v"
      then parse_options rest (on_this set_verbose p)
      else if String.eqb arg "--untracked-only" || String.eqb arg "-u"
      then parse_options rest (on_this set_untrackedOnly p)
      else if String.eqb arg "--count" || String.eqb arg "-c"
      then parse_options rest (on_this set_countOnly p)
      else if String.eqb arg "--version" || String.eqb arg "-V"
      then Done (Some 0) (on_this (console_log (version p)) p)
      else if String.eqb arg "--help" || String.eqb arg "-h"
      then Done (Some 0) (on_this showHelp p)
      else
        Exit 1 (on_this (Spinner.info "Use --help for usage information.")
                  (on_this (Spinner.error ("Unknown option: " ++ arg)) p))
  end.

Section CommandLine.

(** [process.argv.slice(2)], and whether the n-th [process.chdir] of the
    process succeeds. *)
Variable argv : list string.
Variable chdir : nat → string → outcome unit.

Definition parseArguments (p : program) : ending program (option nat) :=
  match argv with
  | arg0 :: rest =>
      if negb (String.eqb arg0 EmptyString) && negb (startsWith_dash arg0) then
        match chdir (length (chdirs p)) arg0 with
        | Returns _ => parse_options rest (record_chdir arg0 p)
        | Throws _ =>
            Exit 1 (on_this (Spinner.error ("Failed to change directory to: " ++ arg0))
                      (record_chdir arg0 p))
        end
      else parse_options argv p
  | [] => parse_options argv p
  end.

End CommandLine.

(** ** The set-up, the count and the untracked branches *)

Definition set_currentBranch (b : string) (t : tool) : tool :=
  {| dryRun := dryRun t; verbose := verbose t; untrackedOnly := untrackedOnly t;
     countOnly := countOnly t; branchesToDelete := branchesToDelete t;
     prResults := prResults t; currentBranch := b;
     terminal := terminal t; calls := calls t |}.

Section Methods.

(** [this.execCommand] *)
Variable exec : string → exec_options → outcome (option string).

(** One of the checks of [checkDependencies]: the command is run silently;
    on [null] or on the timeout sentinel the message for that case is
    printed and the process exits with code 1. *)
Definition dependency (command timed_out failed : string) (t : tool) : ending tool unit :=
  let t := record_call command silently t in
  match exec command silently with
  | Throws e => Raise e t
  | Returns None => Exit 1 (Spinner.error failed t)
  | Returns (Some result) =>
      if String.eqb result TIMEOUT then Exit 1 (Spinner.error timed_out t)
      else Done tt t
  end.

Definition checkDependencies (t : tool) : ending tool unit :=
  and_then (dependency "git rev-parse --git-dir"
              "Git repository check timed out" "Not in a git repository" t)
    (λ _ t,
       if negb (untrackedOnly t) && negb (countOnly t) then
         and_then (dependency "gh --version"
                     "GitHub CLI check timed out. Please check your connection."
                     "GitHub CLI (gh) is not installed. Please install it from https://cli.github.com/"
                     t)
           (λ _ t,
              and_then (dependency "gh auth status"
                          "GitHub authentication check timed out. Please check your connection."
                          "GitHub CLI is not authenticated. Run: gh auth login" t)
                (λ _ t, Done tt (Spinner.success "Dependencies checked" t)))
       else Done tt (Spinner.success "Dependencies checked" t)).

Definition getCurrentBranch (t : tool) : ending tool unit :=
  let t := record_call "git branch --show-current" silently t in
  match exec "git branch --show-current" silently with
  | Returns None => Exit 1 (Spinner.error "Failed to get current branch" t)
  | Returns (Some branchResult) =>
      if String.eqb branchResult TIMEOUT
      then Exit 1 (Spinner.error "Failed to get current branch (timeout)" t)
      else
        let t := set_currentBranch branchResult t in
        Done tt (Spinner.success ("Current branch: " ++ currentBranch t) t)
  | Throws _ => Exit 1 (Spinner.error "Failed to get current branch" t)
  end.

End Methods.

Section BranchLists.

(** [this.getTrackedBranches] and [this.getUntrackedBranches] *)
Variable getTracked getUntracked : tool → list string * tool.

Definition countBranches (t : tool) : tool :=
  let '(trackedBranches, t) := getTracked t in
  let '(untrackedBranches, t) := getUntracked t in
  let total := length trackedBranches + length untrackedBranches in
  let t := Spinner.success "Branch count complete" t in
  let t := console_log EmptyString t in
  let t := console_log (bold ++ "📊 Branch Count Summary" ++ Colors.reset) t in
  let t := console_log ("  Total branches: " ++ pretty total) t in
  let t := console_log ("  Tracked: " ++ pretty (length trackedBranches)) t in
  console_log ("  Untracked: " ++ pretty (length untrackedBranches)) t.

(** The body of the [for] loop of [checkUntrackedBranches]. *)
Definition process_untracked (t : tool) (b : string) : tool :=
  let t := if verbose t
           then Spinner.debug ("Processing untracked branch " ++ b) (verbose t) t
           else t in
  set_results (prResults t ++ [Some {| branch := b; icon := "🏷️"; label := "Untracked" |}])
    (branchesToDelete t ++ [b]) t.

Definition checkUntrackedBranches (t : tool) : tool :=
  let '(untrackedBranches, t) := getUntracked t in
  if decide (length untrackedBranches = 0) then
    Spinner.warning "No untracked local branches found." t
  else
    let t := fold_left process_untracked untrackedBranches t in
    console_log EmptyString
      (Spinner.success ("Finished processing " ++ pretty (length untrackedBranches)
                          ++ " untracked branches") t).

End BranchLists.

(** ** The table of results *)

(** The UTF-16 code units a byte of UTF-8 stands for: one for a byte that
    starts a character of up to three bytes, two for one that starts a
    character of four bytes (a surrogate pair), none for a byte that
    continues a character. *)
Definition code_units (c : ascii) : nat :=
  let n := Ascii.N_of_ascii c in
  if (n <? 128)%N then 1
  else if (n <? 192)%N then 0
  else if (n <? 240)%N then 1
  else 2.

(** [s.length] *)
Fixpoint js_length (s : string) : nat :=
  match s with
  | EmptyString => 0
  | String c rest => code_units c + js_length rest
  end.

(** [s.repeat(n)] *)
Fixpoint repeat_string (s : string) (n : nat) : string :=
  match n with
  | 0 => EmptyString
  | S n' => s ++ repeat_string s n'
  end.

(** [s.padEnd(n)] *)
Definition padEnd (s : string) (n : nat) : string :=
  s ++ repeat_string " " (n - js_length s).

Definition table_row (branch icon label : string) : string :=
  padEnd branch 40 ++ " " ++ padEnd icon 6 ++ " " ++ padEnd label 10.

(** The [forEach] of [displayResults]; the destructuring of an [undefined]
    entry throws. *)
Fixpoint display_rows (results : list (option branch_result)) (t : tool)
    : ending tool unit :=
  match results with
  | [] => Done tt t
  | Some r :: rest =>
      display_rows rest (Spinner.log (table_row (branch r) (icon r) (label r)) EmptyString t)
  | None :: _ =>
      Raise {| message := "Cannot destructure property 'branch' of 'undefined' as it is undefined.";
               code := None; signal := None |} t
  end.

Definition displayResults (t : tool) : ending tool unit :=
  let rule := repeat_string "─" 60 in
  let t := Spinner.log rule EmptyString t in
  let t := Spinner.log (table_row "Branch" "Icon" "Status") EmptyString t in
  let t := Spinner.log rule EmptyString t in
  and_then (display_rows (prResults t) t)
    (λ _ t, Done tt (Spinner.log rule EmptyString t)).

(** ** The main sequence *)

(** A method of the tool as a method of the program. *)
Definition lift {A : Type} (f : tool → ending tool A) (p : program) : ending program A :=
  let with_this t := {| this := t; version := version p; chdirs := chdirs p |} in
  match f (this p) with
  | Done a t => Done a (with_this t)
  | Exit code t => Exit code (with_this t)
  | Raise e t => Raise e (with_this t)
  end.

(** What [deleteBranches] has printed when its listing throws. *)
Fixpoint listed_until_throw (candidates : list string) (t : tool) : tool :=
  match candidates with
  | [] => t
  | b :: rest =>
      match find_result b (prResults t) with
      | Returns result =>
          let icon := match result with Some r => icon r | None => "🗑️" end in
          listed_until_throw rest (Spinner.log ("  " ++ icon ++ " " ++ b) Colors.red t)
      | Throws _ => t
      end
  end.

Section Run.

Variable argv : list string.
Variable chdir : nat → string → outcome unit.
(** [path.basename(process.cwd())] when [run] starts *)
Variable repository : string.
(** [this.execCommand] for the set-up and the listing, [this.getPRStatus]
    for the i-th branch, the line typed at the prompt,
    [this.execCommand] for the i-th deletion, and the two schedules. *)
Variable exec : string → exec_options → outcome (option string).
Variable getPRStatus_at : nat → outcome (option string).
Variable answer : string.
Variable execCommand_at : nat → outcome (option string).
Variable check_schedule delete_schedule : list nat.

(** [await this.deleteBranches()] *)
Definition deleteBranches_step (t : tool) : ending tool unit :=
  match deleteBranches answer execCommand_at delete_schedule t with
  | Returns t' => Done tt t'
  | Throws e =>
      let t := console_log EmptyString t in
      let t :=
        if dryRun t then Spinner.warning "DRY RUN — branches eligible for deletion:" t
        else if untrackedOnly t
        then Spinner.error "The following untracked local branches will be deleted:" t
        else Spinner.error
               "The following branches have merged or closed PRs and will be deleted:" t in
      Raise e (listed_until_throw (branchesToDelete t) t)
  end.

(** The [try] block of [run] after [parseArguments]. *)
Definition cleanup (t : tool) : ending tool unit :=
  and_then (checkDependencies exec t) (λ _ t,
  and_then (getCurrentBranch exec t) (λ _ t,
    if countOnly t then
      Done tt (countBranches (getTrackedBranches exec) (getUntrackedBranches exec) t)
    else
      let t := if untrackedOnly t
               then checkUntrackedBranches (getUntrackedBranches exec) t
               else checkBranches (getTrackedBranches exec) getPRStatus_at
                      check_schedule t in
      and_then (displayResults t) (λ _ t, deleteBranches_step t))).

(** [run]: [clearTerminal] prints no line; an error thrown in the [try]
    block is reported and the process exits with code 1. *)
Definition run (p : program) : ending program unit :=
  let p := on_this (Spinner.log ("📂 Scanning repository: " ++ repository) Colors.blue) p in
  let tried :=
    and_then (parseArguments argv chdir p) (λ parseResult p,
      match parseResult with
      | Some 0 => Done tt p
      | _ => lift cleanup p
      end) in
  match tried with
  | Raise error p =>
      Exit 1 (on_this (Spinner.error ("An error occurred: " ++ message error)) p)
  | _ => tried
  end.

(** [bin.js], for the version of [package.json] *)
Definition main (package_version : string) : ending program unit :=
  let tool := {| this := new_tool; version := package_version; chdirs := [] |} in
  match parseArguments argv chdir tool with
  | Done (Some code) p => Exit code p
  | Done None p => run p
  | Exit code p => Exit code p
  | Raise e p => Raise e p
  end.

End Run.

(** ** The command line: properties *)

Definition mode_flags : list string :=
  ["--dry-run"; "-n"; "--verbose"; "-v"; "--untracked-only"; "-u"; "--count"; "-c"]%string.

Definition stop_flags : list string := ["--version"; "-V"; "--help"; "-h"]%string.

(** One of the two spellings of an option is among the arguments. *)
Definition mentions (long short : string) (args : list string) : bool :=
  existsb (λ arg, String.eqb arg long || String.eqb arg short) args.

(** The flags after the mode options [args]: an option switches its flag
    on, nothing switches a flag off. *)
Definition switched_on (args : list string) (t : tool) : tool :=
  set_flags (dryRun t || mentions "--dry-run" "-n" args)
    (verbose t || mentions "--verbose" "-v" args)
    (untrackedOnly t || mentions "--untracked-only" "-u" args)
    (countOnly t || mentions "--count" "-c" args) t.

(** The long spelling of an option. *)
Definition long_form (arg : string) : string :=
  if String.eqb arg "-n" then "--dry-run"
  else if String.eqb arg "-v" then "--verbose"
  else if String.eqb arg "-u" then "--untracked-only"
  else if String.eqb arg "-c" then "--count"
  else if String.eqb arg "-V" then "--version"
  else if String.eqb arg "-h" then "--help"
  else arg.

Lemma switched_on_nil t : switched_on [] t = t.
Proof. destruct t. unfold switched_on, set_flags. simpl. by rewrite !orb_false_r. Qed.

Lemma parse_options_mode_flags args rest p :
  Forall (λ arg, arg ∈ mode_flags) args →
  parse_options (args ++ rest) p = parse_options rest (on_this (switched_on args) p).
Proof.
  intros Hargs. revert p. induction Hargs as [|arg args Harg _ IH]; intros p.
  { simpl. unfold on_this. rewrite switched_on_nil. by destruct p. }
  assert (Hstep : ∀ f, (∀ t, switched_on args (f t) = switched_on (arg :: args) t) →
            parse_options (args ++ rest) (on_this f p)
            = parse_options rest (on_this (switched_on (arg :: args)) p)).
  { intros f Hf. rewrite IH. f_equal. unfold on_this. simpl. by rewrite Hf. }
  unfold mode_flags in Harg.
  repeat (apply elem_of_cons in Harg as [->|Harg]); [..|by apply elem_of_nil in Harg];
    simpl; apply Hstep; intros t; unfold switched_on, set_dryRun, set_verbose,
      set_untrackedOnly, set_countOnly, set_flags; simpl;
    by rewrite ?orb_true_r.
Qed.

Lemma mentions_Permutation long short (args args' : list string) :
  args ≡ₚ args' → mentions long short args = mentions long short args'.
Proof.
  unfold mentions. induction 1 as [|x l l' _ IH|x y l|l l' l'' _ IH1 _ IH2]; simpl.
  - done.
  - by rewrite IH.
  - destruct (String.eqb y long || String.eqb y short),
      (String.eqb x long || String.eqb x short); done.
  - by rewrite IH1.
Qed.

(** Closed goals about concrete lists and strings. *)
Ltac decided := apply (bool_decide_unpack _); vm_compute; exact I.

(** [X1]  When every argument is one of the mode options (--dry-run,
    --verbose, --untracked-only, --count or their short spellings),
    [parseArguments] returns [undefined] and has only switched flags on:
    each flag is on when it was on before or when its option is among the
    arguments.  So repeating an option or giving the options in another
    order changes nothing. *)
Theorem parseArguments_mode_flags
    (argv : list string) (chdir : nat → string → outcome unit) (p : program) :
  Forall (λ arg, arg ∈ mode_flags) argv →
  parseArguments argv chdir p = Done None (on_this (switched_on argv) p)
  ∧ ∀ argv', argv ≡ₚ argv' → parseArguments argv' chdir p = parseArguments argv chdir p.
Proof.
  intros Hflags.
  assert (Hparse : ∀ args, Forall (λ arg, arg ∈ mode_flags) args →
            parseArguments args chdir p = Done None (on_this (switched_on args) p)).
  { intros args Hargs. unfold parseArguments.
    assert (Hopt : parse_options args p = Done None (on_this (switched_on args) p)).
    { rewrite <- (app_nil_r args) at 1. by rewrite parse_options_mode_flags. }
    destruct args as [|arg0 rest]; [done|].
    assert (Hdash : startsWith_dash arg0 = true).
    { apply Forall_cons in Hargs as [Harg _]. unfold mode_flags in Harg.
      repeat (apply elem_of_cons in Harg as [->|Harg]); try done.
      by apply elem_of_nil in Harg. }
    by rewrite Hdash, andb_false_r. }
  split; [by apply Hparse|].
  intros argv' Hperm. rewrite !Hparse; [|done|by rewrite <- Hperm].
  f_equal. unfold on_this. f_equal. unfold switched_on.
  by rewrite !(mentions_Permutation _ _ _ _ Hperm).
Qed.

Lemma parseArguments_mode_flags_witness :
  parseArguments ["-n"; "--verbose"; "-n"]%string (λ _ _, Returns tt)
    {| this := new_tool; version := "1.0.0"; chdirs := [] |}
  = Done None {| this := set_flags true true false false new_tool;
                 version := "1.0.0"; chdirs := [] |}.
Proof.
  destruct (parseArguments_mode_flags ["-n"; "--verbose"; "-n"]%string (λ _ _, Returns tt)
              {| this := new_tool; version := "1.0.0"; chdirs := [] |}) as [H _].
  - decided.
  - exact H.
Defined.

(** When the first argument is not a directory (it is empty or starts with
    a dash, or there is none), [parseArguments] is its loop. *)
Lemma parseArguments_options argv chdir p :
  match argv with
  | arg0 :: _ => arg0 = EmptyString ∨ startsWith_dash arg0 = true
  | [] => True
  end →
  parseArguments argv chdir p = parse_options argv p.
Proof.
  unfold parseArguments. destruct argv as [|arg0 rest]; [done|].
  intros [-> | ->]; [done | by rewrite andb_false_r].
Qed.

Lemma mode_flag_dash arg : arg ∈ mode_flags ++ stop_flags → startsWith_dash arg = true.
Proof.
  unfold mode_flags, stop_flags. simpl. intros Harg.
  repeat (apply elem_of_cons in Harg as [->|Harg]); try done.
  by apply elem_of_nil in Harg.
Qed.

(** [X2]  After mode options, the first --help, -h, --version or -V ends
    the parsing: the help text or the version is printed, 0 is returned,
    and what follows on the command line, recognised or not, is not even
    looked at. *)
Theorem parseArguments_help_stops
    (flags rest : list string) (stop : string)
    (chdir : nat → string → outcome unit) (p : program) :
  Forall (λ arg, arg ∈ mode_flags) flags → stop ∈ stop_flags →
  parseArguments (flags ++ stop :: rest) chdir p
  = Done (Some 0)
      (on_this (if bool_decide (stop ∈ ["--version"; "-V"]%string)
                then console_log (version p) else showHelp)
         (on_this (switched_on flags) p)).
Proof.
  intros Hflags Hstop. rewrite parseArguments_options.
  - rewrite parse_options_mode_flags by done.
    unfold stop_flags in Hstop.
    repeat (apply elem_of_cons in Hstop as [->|Hstop]); try done.
    by apply elem_of_nil in Hstop.
  - destruct Hflags as [|flag flags Hflag _]; simpl; right;
      apply mode_flag_dash, elem_of_app; auto.
Qed.

Lemma parseArguments_help_stops_witness :
  parseArguments ["-n"; "--help"; "--no-such-option"]%string (λ _ _, Returns tt)
    {| this := new_tool; version := "1.0.0"; chdirs := [] |}
  = Done (Some 0)
      {| this := showHelp (set_flags true false false false new_tool);
         version := "1.0.0"; chdirs := [] |}.
Proof.
  apply (parseArguments_help_stops ["-n"]%string ["--no-such-option"]%string
           "--help"%string (λ _ _, Returns tt)
           {| this := new_tool; version := "1.0.0"; chdirs := [] |}).
  - decided.
  - decided.
Defined.

(** [X3]  After mode options, the first argument that is not an option of
    the tool ends the process with code 1, after the two lines "Unknown
    option: ..." and "Use --help for usage information."; the arguments
    after it are not looked at.  A directory is such an argument when it
    is not the first one, and so is an empty argument anywhere. *)
Theorem parseArguments_unknown_option
    (flags rest : list string) (arg : string)
    (chdir : nat → string → outcome unit) (p : program) :
  Forall (λ arg, arg ∈ mode_flags) flags →
  arg ∉ mode_flags → arg ∉ stop_flags →
  flags ≠ [] ∨ arg = EmptyString ∨ startsWith_dash arg = true →
  parseArguments (flags ++ arg :: rest) chdir p
  = Exit 1
      (on_this (Spinner.info "Use --help for usage information.")
         (on_this (Spinner.error ("Unknown option: " ++ arg))
            (on_this (switched_on flags) p))).
Proof.
  intros Hflags Hmode Hstop Hfirst. rewrite parseArguments_options.
  - rewrite parse_options_mode_flags by done.
    unfold mode_flags in Hmode. unfold stop_flags in Hstop. simpl.
    repeat match goal with
      | |- context [String.eqb arg ?lit] =>
          destruct (String.eqb_spec arg lit) as [->|_];
            [exfalso; first [apply Hmode; decided | apply Hstop; decided]|]
      end.
    done.
  - destruct Hflags as [|flag flags Hflag _]; simpl.
    + destruct Hfirst as [?|[?|?]]; auto.
    + right. apply mode_flag_dash, elem_of_app; auto.
Qed.

Lemma parseArguments_unknown_option_witness :
  parseArguments ["-n"; "../repo"; "--help"]%string (λ _ _, Returns tt)
    {| this := new_tool; version := "1.0.0"; chdirs := [] |}
  = Exit 1
      {| this := Spinner.info "Use --help for usage information."
                   (Spinner.error "Unknown option: ../repo"
                      (set_flags true false false false new_tool));
         version := "1.0.0"; chdirs := [] |}.
Proof.
  apply (parseArguments_unknown_option ["-n"]%string ["--help"]%string "../repo"%string
           (λ _ _, Returns tt) {| this := new_tool; version := "1.0.0"; chdirs := [] |}).
  - decided.
  - decided.
  - decided.
  - by left.
Defined.

Lemma long_form_no_dash arg : startsWith_dash arg = false → long_form arg = arg.
Proof.
  intros Hdash. unfold long_form.
  repeat match goal with
    | |- context [String.eqb arg ?lit] =>
        destruct (String.eqb_spec arg lit) as [->|_]; [done|]
    end.
  done.
Qed.

Lemma long_form_dash arg : startsWith_dash (long_form arg) = startsWith_dash arg.
Proof.
  unfold long_form.
  repeat match goal with
    | |- context [String.eqb arg ?lit] =>
        destruct (String.eqb_spec arg lit) as [->|_]; [done|]
    end.
  done.
Qed.

Lemma parse_options_long_form args p :
  parse_options (long_form <$> args) p = parse_options args p.
Proof.
  revert p. induction args as [|arg args IH]; intros p; [done|].
  rewrite fmap_cons. unfold long_form at 1.
  repeat match goal with
    | |- context [String.eqb arg ?lit] =>
        destruct (String.eqb_spec arg lit) as [->|?]; [simpl; by rewrite ?IH|]
    end.
  simpl. by repeat (case_match; rewrite ?IH).
Qed.

(** [X4]  The short spelling of an option stands for the long one: a
    command line and the same command line with every -n, -v, -u, -c, -V
    and -h written in full end alike, in the same state. *)
Theorem parseArguments_short_is_long
    (argv : list string) (chdir : nat → string → outcome unit) (p : program) :
  parseArguments (long_form <$> argv) chdir p = parseArguments argv chdir p.
Proof.
  unfold parseArguments. destruct argv as [|arg0 rest]; [done|].
  rewrite fmap_cons, long_form_dash.
  destruct (startsWith_dash arg0) eqn:Hdash.
  - rewrite !andb_false_r. apply (parse_options_long_form (arg0 :: rest)).
  - pose proof (parse_options_long_form (arg0 :: rest) p) as Hall.
    rewrite fmap_cons in Hall. rewrite (long_form_no_dash arg0 Hdash) in *.
    destruct (negb (String.eqb arg0 EmptyString)); simpl; [|done].
    destruct (chdir _ _); [apply parse_options_long_form | done].
Qed.

(** ** The set-up: properties *)

(** A command answers: [execCommand] returns an output for it, and not the
    timeout sentinel. *)
Definition answers (exec : string → exec_options → outcome (option string))
    (command : string) : Prop :=
  ∃ out, exec command silently = Returns (Some out) ∧ out ≠ TIMEOUT.

Lemma dependency_cases exec command timed_out failed t :
  (answers exec command
   ∧ dependency exec command timed_out failed t
     = Done tt (extend [] [(command, silently)] t))
  ∨ (¬ answers exec command
     ∧ ((∃ line, dependency exec command timed_out failed t
                 = Exit 1 (extend [line] [(command, silently)] t))
        ∨ (∃ e, dependency exec command timed_out failed t
                = Raise e (extend [] [(command, silently)] t)))).
Proof.
  unfold dependency, answers, Spinner.error.
  rewrite !console_log_extend, !record_call_extend, !extend_extend. simpl.
  destruct (exec command silently) as [[out|]|e].
  - destruct (String.eqb_spec out TIMEOUT) as [->|Hout].
    + right. split; [by intros (out & [= <-] & ?)|]. left. by eexists.
    + left. split; [by exists out|done].
  - right. split; [by intros (out & [=] & ?)|]. left. by eexists.
  - right. split; [by intros (out & [=] & ?)|]. right. by eexists.
Qed.

(** [X5]  In the untracked-only and the count modes [checkDependencies]
    runs one command, [git rev-parse --git-dir]: whatever the commands
    would answer, the GitHub CLI is not called. *)
Theorem checkDependencies_offline
    (exec : string → exec_options → outcome (option string)) (t : tool) :
  untrackedOnly t = true ∨ countOnly t = true →
  calls (final (checkDependencies exec t))
  = calls t ++ [("git rev-parse --git-dir"%string, silently)].
Proof.
  intros Hmode. unfold checkDependencies.
  assert (Hoff : negb (untrackedOnly t) && negb (countOnly t) = false).
  { destruct Hmode as [-> | ->]; [done | by rewrite andb_false_r]. }
  destruct (dependency_cases exec "git rev-parse --git-dir"
              "Git repository check timed out" "Not in a git repository" t)
    as [[_ ->]|[_ [[line ->]|[e ->]]]]; simpl; [|done..].
  by rewrite Hoff.
Qed.

Lemma checkDependencies_offline_witness :
  calls (final (checkDependencies (λ _ _, Returns (Some "ok"%string))
                  (set_flags false false true false new_tool)))
  = [("git rev-parse --git-dir"%string, silently)].
Proof.
  apply (checkDependencies_offline (λ _ _, Returns (Some "ok"%string))
           (set_flags false false true false new_tool)).
  by left.
Defined.

Ltac outcome_cases :=
  intuition idtac;
  repeat match goal with
    | H : ∃ _, _ |- _ => destruct H
    | H : _ ∧ _ |- _ => destruct H
    end;
  simplify_eq; try done; try (by eexists); try tauto.

(** [X6]  [checkDependencies] returns exactly when every check it has to
    make answers: the repository check, and outside the untracked-only and
    count modes the two checks of the GitHub CLI.  It stops at the first
    check that does not answer: the checks after it are not run, and when
    the process exits the code is 1. *)
Theorem checkDependencies_outcome
    (exec : string → exec_options → outcome (option string)) (t : tool) :
  let online := untrackedOnly t = false ∧ countOnly t = false in
  let git := "git rev-parse --git-dir"%string in
  let gh := "gh --version"%string in
  let auth := "gh auth status"%string in
  ((∃ t', checkDependencies exec t = Done tt t')
   ↔ answers exec git ∧ (online → answers exec gh ∧ answers exec auth))
  ∧ (∀ code t', checkDependencies exec t = Exit code t' → code = 1)
  ∧ (¬ answers exec git →
     calls (final (checkDependencies exec t)) = calls t ++ [(git, silently)])
  ∧ (online → answers exec git → ¬ answers exec gh →
     calls (final (checkDependencies exec t))
     = calls t ++ [(git, silently); (gh, silently)]).
Proof.
  intros online git gh auth. subst online git gh auth. unfold checkDependencies.
  destruct (dependency_cases exec "git rev-parse --git-dir"
              "Git repository check timed out" "Not in a git repository" t)
    as [[Hgit ->]|[Hgit [[line ->]|[e ->]]]]; simpl; [|outcome_cases..].
  destruct (untrackedOnly t) eqn:Hu; simpl; [outcome_cases|].
  destruct (countOnly t) eqn:Hc; simpl; [outcome_cases|].
  destruct (dependency_cases exec "gh --version"
              "GitHub CLI check timed out. Please check your connection."
              "GitHub CLI (gh) is not installed. Please install it from https://cli.github.com/"
              (extend [] [("git rev-parse --git-dir"%string, silently)] t))
    as [[Hgh ->]|[Hgh [[line ->]|[e ->]]]]; simpl;
    [|rewrite <- app_assoc; outcome_cases..].
  destruct (dependency_cases exec "gh auth status"
              "GitHub authentication check timed out. Please check your connection."
              "GitHub CLI is not authenticated. Run: gh auth login"
              (extend [] [("gh --version"%string, silently)]
                 (extend [] [("git rev-parse --git-dir"%string, silently)] t)))
    as [[Hauth ->]|[Hauth [[line ->]|[e ->]]]]; simpl; outcome_cases.
Qed.

Example checkDependencies_outcome_gh_missing :
  let exec := λ (command : string) (_ : exec_options),
                if String.eqb command "gh --version" then Returns None
                else Returns (Some "ok"%string) in
  checkDependencies exec new_tool
  = Exit 1
      (extend [Spinner.error_line
                 "GitHub CLI (gh) is not installed. Please install it from https://cli.github.com/"]
         [("git rev-parse --git-dir"%string, silently); ("gh --version"%string, silently)]
         new_tool).
Proof. reflexivity. Qed.

Lemma getBranches_tool exec mode t :
  ∃ lines, (getBranches exec mode t).2
           = extend lines [(list_branches_command, silently)] t
         ∧ (answers exec list_branches_command → lines = [])
         ∧ (¬ answers exec list_branches_command →
            (getBranches exec mode t).1 = [] ∧ length lines = 1).
Proof.
  unfold getBranches, Spinner.error, answers.
  rewrite !console_log_extend, !record_call_extend, !extend_extend. simpl.
  destruct (exec _ _) as [[text|]|e]; [destruct (String.eqb_spec text TIMEOUT)|..];
    simpl; eexists; (split; [reflexivity|split]); try done;
    try (intros (out & ? & ?); by simplify_eq).
  intros []. by eexists.
Qed.

Lemma getBranches_unprotected exec mode t b :
  b ∈ (getBranches exec mode t).1 → b ∉ ["main"; "master"; currentBranch t]%string.
Proof.
  unfold getBranches.
  destruct (exec _ _) as [[text|]|e]; simpl; try by intros ?%elem_of_nil.
  destruct (String.eqb text TIMEOUT); simpl; [by intros ?%elem_of_nil|].
  rewrite fold_visit. simpl.
  by intros (line & -> & [[Hname _] _]%list_elem_of_filter)%list_elem_of_fmap.
Qed.



(** [X7]  [getCurrentBranch] never throws.  When the command answers, its
    output becomes [currentBranch] (and nothing else of the tool changes
    but the terminal and the calls), and from then on no mode of
    [getBranches] returns that branch.  When the command gives [null],
    times out or throws, one error line is printed, the process exits
    with code 1 and [currentBranch] is as before. *)
Theorem getCurrentBranch_outcome
    (exec : string → exec_options → outcome (option string)) (t : tool) :
  let command := "git branch --show-current"%string in
  (∀ out, exec command silently = Returns (Some out) → out ≠ TIMEOUT →
     getCurrentBranch exec t
     = Done tt (extend [Spinner.success_line ("Current branch: " ++ out)]
                  [(command, silently)] (set_currentBranch out t))
     ∧ ∀ exec' mode, out ∉ (getBranches exec' mode (final (getCurrentBranch exec t))).1)
  ∧ (¬ answers exec command →
     ∃ line, getCurrentBranch exec t
             = Exit 1 (extend [line] [(command, silently)] t)).
Proof.
  intros command. subst command. unfold getCurrentBranch, Spinner.success, Spinner.error.
  rewrite !console_log_extend, !record_call_extend, !extend_extend. split.
  - intros out -> Hout. destruct (String.eqb_spec out TIMEOUT) as [|_]; [done|].
    split.
    { unfold console_log, set_currentBranch, extend. simpl. by rewrite app_nil_r. }
    intros exec' mode Hin%getBranches_unprotected.
    simpl in Hin. apply Hin. do 2 right. left.
  - intros Hno. destruct (exec _ _) as [[out|]|e] eqn:Hexec;
      [|eexists; simpl; reflexivity..].
    destruct (String.eqb_spec out TIMEOUT) as [->|Hout];
      [eexists; simpl; reflexivity|].
    destruct Hno. by exists out.
Qed.

Lemma getCurrentBranch_outcome_witness :
  getCurrentBranch (λ _ _, Returns (Some "main"%string)) new_tool
  = Done tt (extend [Spinner.success_line "Current branch: main"]
               [("git branch --show-current"%string, silently)]
               (set_currentBranch "main" new_tool)).
Proof.
  destruct (getCurrentBranch_outcome (λ _ _, Returns (Some "main"%string)) new_tool)
    as [H _].
  destruct (H "main"%string) as [H' _]; [reflexivity | discriminate | exact H'].
Defined.

(** ** The count, the untracked branches and the table: properties *)



Lemma set_results_extend results to_delete lines commands results' to_delete' lines' t :
  set_results results' to_delete'
    (extend lines' [] (set_results results to_delete (extend lines commands t)))
  = set_results results' to_delete' (extend (lines ++ lines') commands t).
Proof. unfold set_results, extend. simpl. by rewrite app_nil_r, app_assoc. Qed.

Lemma set_results_same lines commands t :
  set_results (prResults t) (branchesToDelete t) (extend lines commands t)
  = extend lines commands t.
Proof. done. Qed.

Definition untracked_result (b : string) : option branch_result :=
  Some {| branch := b; icon := "🏷️"; label := "Untracked" |}.

Lemma fold_process_untracked (branches : list string) (t : tool) :
  ∃ lines,
    fold_left process_untracked branches t
    = set_results (prResults t ++ (untracked_result <$> branches))
        (branchesToDelete t ++ branches) (extend lines [] t)
    ∧ (verbose t = false → lines = []).
Proof.
  revert t. induction branches as [|b branches IH]; intros t.
  { exists []. simpl. rewrite !app_nil_r, set_results_same, extend_nil. done. }
  simpl.
  assert (∃ line, process_untracked t b
            = set_results (prResults t ++ [untracked_result b]) (branchesToDelete t ++ [b])
                (extend line [] t)
            ∧ (verbose t = false → line = [])) as (line & -> & Hline).
  { unfold process_untracked, Spinner.debug.
    destruct (verbose t) eqn:Hv; rewrite ?console_log_extend; eexists.
    - split; [reflexivity | done].
    - rewrite <- (extend_nil t) at 1 2 3. split; [reflexivity | done]. }
  destruct (IH (set_results (prResults t ++ [untracked_result b]) (branchesToDelete t ++ [b])
                  (extend line [] t))) as (lines & -> & Hlines).
  exists (line ++ lines). split.
  - unfold set_results, extend. simpl. by rewrite !app_nil_r, <- !app_assoc.
  - intros Hv. rewrite Hline, Hlines by done. done.
Qed.

Lemma checkUntrackedBranches_extend
    (getUntracked : tool → list string * tool) (t : tool) :
  let untracked := (getUntracked t).1 in
  let listed := (getUntracked t).2 in
  ∃ lines,
    checkUntrackedBranches getUntracked t
    = set_results
        (prResults listed
           ++ ((λ b, Some {| branch := b; icon := "🏷️"; label := "Untracked" |})
                 <$> untracked))
        (branchesToDelete listed ++ untracked)
        (extend lines [] listed)
    ∧ (untracked = [] → lines = [Spinner.warning_line "No untracked local branches found."])
    ∧ (verbose listed = false → untracked ≠ [] →
       lines = [Spinner.success_line ("Finished processing " ++ pretty (length untracked)
                                        ++ " untracked branches"); EmptyString]).
Proof.
  intros untracked listed. subst untracked listed. unfold checkUntrackedBranches.
  destruct (getUntracked t) as [branches t1]. simpl. case_decide as Hlen.
  - apply nil_length_inv in Hlen as ->.
    exists [Spinner.warning_line "No untracked local branches found."].
    split; [|split; [done|done]].
    unfold Spinner.warning. rewrite console_log_extend. simpl.
    by rewrite !app_nil_r, set_results_same.
  - destruct (fold_process_untracked branches t1) as (lines & -> & Hlines).
    exists (lines ++ [Spinner.success_line
                        ("Finished processing " ++ pretty (length branches)
                           ++ " untracked branches"); EmptyString]%string).
    split; [|split].
    + unfold Spinner.success. rewrite !console_log_extend.
      unfold console_log, set_results, extend. simpl.
      by rewrite <- !app_assoc.
    + intros ->. done.
    + intros Hv _. by rewrite Hlines.
Qed.

(** [X9]  [checkUntrackedBranches] makes every untracked branch a
    candidate without asking GitHub: the branches are appended, in order,
    to the branches to delete, each with a result (🏷️, Untracked)
    appended to the results, and no command is run but the listing.  When
    the list is empty only a warning is printed. *)
Theorem checkUntrackedBranches_results
    (getUntracked : tool → list string * tool) (t : tool) :
  let untracked := (getUntracked t).1 in
  let listed := (getUntracked t).2 in
  ∃ lines,
    checkUntrackedBranches getUntracked t
    = set_results
        (prResults listed
           ++ ((λ b, Some {| branch := b; icon := "🏷️"; label := "Untracked" |})
                 <$> untracked))
        (branchesToDelete listed ++ untracked)
        (extend lines [] listed)
    ∧ (untracked = [] → lines = [Spinner.warning_line "No untracked local branches found."])
    ∧ (verbose listed = false → untracked ≠ [] →
       lines = [Spinner.success_line ("Finished processing " ++ pretty (length untracked)
                                        ++ " untracked branches"); EmptyString]).
Proof. apply checkUntrackedBranches_extend. Qed.

Lemma display_rows_defined (defined : list branch_result)
    (rest : list (option branch_result)) (t : tool) :
  ∃ t', t' = extend ((λ r, Spinner.log_line (table_row (branch r) (icon r) (label r))
                               EmptyString) <$> defined) [] t
      ∧ display_rows ((Some <$> defined) ++ rest) t = display_rows rest t'.
Proof.
  revert t. induction defined as [|r defined IH]; intros t.
  { exists t. by rewrite extend_nil. }
  change (display_rows ((Some <$> r :: defined) ++ rest) t)
    with (display_rows ((Some <$> defined) ++ rest)
            (Spinner.log (table_row (branch r) (icon r) (label r)) EmptyString t)).
  destruct (IH (Spinner.log (table_row (branch r) (icon r) (label r)) EmptyString t))
    as (t' & -> & ->).
  eexists. split; [reflexivity|]. f_equal.
  unfold Spinner.log. by rewrite console_log_extend, extend_extend.
Qed.

(** [X10]  [displayResults] prints a rule, the header, a rule, one row per
    result in the order of [prResults], and a closing rule, and runs no
    command.  At the first [undefined] entry the destructuring throws: the
    rows before it are printed, the closing rule is not. *)
Theorem displayResults_rows (t : tool) (defined : list branch_result)
    (rest : list (option branch_result)) :
  prResults t = (Some <$> defined) ++ rest →
  let rule := Spinner.log_line (repeat_string "─" 60) EmptyString in
  let header := Spinner.log_line (table_row "Branch" "Icon" "Status") EmptyString in
  let rows := (λ r, Spinner.log_line (table_row (branch r) (icon r) (label r)) EmptyString)
                <$> defined in
  (rest = [] →
   displayResults t = Done tt (extend ([rule; header; rule] ++ rows ++ [rule]) [] t))
  ∧ (∀ rest', rest = None :: rest' →
     ∃ e, displayResults t = Raise e (extend ([rule; header; rule] ++ rows) [] t)).
Proof.
  intros Hresults rule header rows. unfold displayResults, Spinner.log.
  rewrite !console_log_extend, !extend_extend. simpl prResults. rewrite Hresults.
  match goal with
  | |- context [display_rows _ ?t0] => change t0 with (extend [rule; header; rule] [] t)
  end.
  destruct (display_rows_defined defined rest
              (extend [rule; header; rule] [] t)) as (t' & -> & ->).
  rewrite extend_extend. split.
  - intros ->. simpl. by rewrite console_log_extend, extend_extend.
  - intros rest' ->. simpl. by eexists.
Qed.

Lemma displayResults_rows_witness :
  displayResults
    (set_results [Some {| branch := "feature/a"; icon := "✅"; label := "Merged" |}]
       ["feature/a"] new_tool)
  = Done tt
      (extend
         [Spinner.log_line (repeat_string "─" 60) EmptyString;
          Spinner.log_line (table_row "Branch" "Icon" "Status") EmptyString;
          Spinner.log_line (repeat_string "─" 60) EmptyString;
          Spinner.log_line (table_row "feature/a" "✅" "Merged") EmptyString;
          Spinner.log_line (repeat_string "─" 60) EmptyString] []
         (set_results [Some {| branch := "feature/a"; icon := "✅"; label := "Merged" |}]
            ["feature/a"] new_tool)).
Proof.
  exact (proj1 (displayResults_rows
                  (set_results
                     [Some {| branch := "feature/a"; icon := "✅"; label := "Merged" |}]
                     ["feature/a"] new_tool)
                  [{| branch := "feature/a"; icon := "✅"; label := "Merged" |}] []
                  eq_refl) eq_refl).
Defined.

Lemma js_length_app (a b : string) : js_length (a ++ b) = js_length a + js_length b.
Proof.
  induction a as [|c a IH]; [done|].
  change (code_units c + js_length (a ++ b) = code_units c + js_length a + js_length b).
  lia.
Qed.

Lemma js_length_spaces (n : nat) : js_length (repeat_string " " n) = n.
Proof.
  induction n as [|n IH]; [done|].
  change (js_length (" " ++ repeat_string " " n) = S n).
  rewrite js_length_app, IH. done.
Qed.

Lemma padEnd_length (s : string) (n : nat) :
  js_length (padEnd s n) = Nat.max n (js_length s).
Proof. unfold padEnd. rewrite js_length_app, js_length_spaces. lia. Qed.

(** [X11]  The columns of the table: [padEnd] never shortens a string and
    pads it with spaces to at least the width asked for, so a row is
    [max 40 |branch| + 1 + max 6 |icon| + 1 + max 10 |label|] UTF-16 code
    units long: 58 whenever the three fields fit their columns, and the
    row starts with the branch name as it is. *)
Theorem table_row_width (branch icon label : string) :
  js_length (table_row branch icon label)
  = Nat.max 40 (js_length branch) + 1 + Nat.max 6 (js_length icon) + 1
    + Nat.max 10 (js_length label)
  ∧ (js_length branch ≤ 40 → js_length icon ≤ 6 → js_length label ≤ 10 →
     js_length (table_row branch icon label) = 58)
  ∧ ∃ rest, table_row branch icon label = (branch ++ rest)%string.
Proof.
  assert (js_length (table_row branch icon label)
          = Nat.max 40 (js_length branch) + 1 + Nat.max 6 (js_length icon) + 1
            + Nat.max 10 (js_length label)) as Hwidth.
  { unfold table_row. rewrite !js_length_app, !padEnd_length.
    change (js_length " ") with 1. lia. }
  split; [done|split].
  - intros. rewrite Hwidth. lia.
  - exists (repeat_string " " (40 - js_length branch) ++ " " ++ padEnd icon 6 ++ " "
              ++ padEnd label 10)%string.
    unfold table_row, padEnd at 1. apply append_assoc.
Qed.

(** ** The pools while they run *)

Section PoolSteps.
Context {St : Type}.
Variable total : nat.
Variables on_claim on_settle on_resume : nat → St → St.

Local Abbreviation enter := (WorkerPool.enter total on_claim).
Local Abbreviation spawn := (WorkerPool.spawn total on_claim).
Local Abbreviation turn := (WorkerPool.turn total on_claim on_settle on_resume).
Local Abbreviation run_pool := (WorkerPool.run total on_claim on_settle on_resume).

Definition awaiting (w : worker) : nat :=
  match w with
  | Awaiting _ => 1
  | _ => 0
  end.

(** The units whose command is running. *)
Definition in_flight (ws : list worker) : nat := tally awaiting ws.

(** The unit a worker holds has been claimed. *)
Definition claimed (n : nat) (w : worker) : Prop :=
  match w with
  | Awaiting i | Settled i => i < n
  | Finished => True
  end.

Lemma in_flight_le (ws : list worker) : in_flight ws ≤ length ws.
Proof.
  induction ws as [|w ws IH]; [done|].
  unfold in_flight, tally in *. destruct w; simpl; lia.
Qed.

Lemma spawn_length W (p : pool St) :
  length (workers (spawn W p)) = length (workers p) + W.
Proof.
  revert p. induction W as [|W IH]; intros p; simpl; [lia|].
  unfold WorkerPool.enter. case_decide; rewrite IH; simpl; rewrite length_app; simpl; lia.
Qed.

Lemma turn_length k (p : pool St) : length (workers (turn k p)) = length (workers p).
Proof.
  unfold WorkerPool.turn. destruct (workers p !! k) as [[i|i|]|]; simpl; try done.
  - by rewrite length_insert.
  - unfold WorkerPool.enter. case_decide; simpl; by rewrite length_insert.
Qed.

Lemma run_length fuel schedule (p : pool St) :
  length (workers (run_pool fuel schedule p)) = length (workers p).
Proof.
  revert schedule p. induction fuel as [|fuel IH]; intros schedule p; simpl; [done|].
  destruct (pending (workers p) !! _); [|done]. by rewrite IH, turn_length.
Qed.

(** An invariant of the shared index, the units in flight and the shared
    variables that every step of a worker keeps is kept by the pool. *)
Variable J : nat → nat → St → Prop.
Hypothesis J_claim : ∀ n a s, n < total → J n a s → J (n + 1) (a + 1) (on_claim n s).
Hypothesis J_settle : ∀ i n a s,
  i < n → n ≤ total → J n (a + 1) s → J n a (on_settle i s).
Hypothesis J_resume : ∀ i n a s,
  i < n → n ≤ total → J n a s → J n a (on_resume i s).

Definition steady (p : pool St) : Prop :=
  J (next p) (in_flight (workers p)) (shared p)
  ∧ Forall (claimed (next p)) (workers p)
  ∧ next p ≤ total.

Lemma claimed_mono n w : claimed n w → claimed (n + 1) w.
Proof. destruct w; simpl; lia. Qed.

Lemma enter_steady n a s ws (replace : list worker → worker → list worker) :
  J n a s → Forall (claimed n) ws → n ≤ total →
  (∀ w, in_flight (replace ws w) = a + awaiting w) →
  (∀ m w, Forall (claimed m) ws → claimed m w → Forall (claimed m) (replace ws w)) →
  let '(w, n', s') := enter n s in
  steady {| next := n'; workers := replace ws w; shared := s' |}.
Proof.
  intros HJ Hws Hn Hin Hall. unfold WorkerPool.enter. case_decide.
  - split; [|split]; simpl; [|by apply Hall|done].
    rewrite Hin. simpl. by rewrite Nat.add_0_r.
  - split; [|split]; simpl; [| |lia].
    + rewrite Hin. simpl. apply J_claim; [lia | done].
    + apply Hall; [|simpl; lia]. eapply Forall_impl; [exact Hws|].
      intros w. apply claimed_mono.
Qed.

Lemma spawn_steady W (p : pool St) : steady p → steady (spawn W p).
Proof.
  revert p. induction W as [|W IH]; intros p (HJ & Hws & Hn); [done|].
  simpl.
  pose proof (enter_steady (next p) _ (shared p) (workers p) (λ ws w, ws ++ [w])
                HJ Hws Hn) as Hstep.
  destruct (enter (next p) (shared p)) as [[w n'] s']. apply IH, Hstep.
  - intros w0. unfold in_flight. by rewrite tally_snoc.
  - intros m w0 H1 H2. apply Forall_app. split; [done | by apply Forall_singleton].
Qed.

Lemma turn_steady k (p : pool St) : steady p → steady (turn k p).
Proof.
  intros (HJ & Hws & Hn). unfold WorkerPool.turn.
  destruct (workers p !! k) as [w|] eqn:Hk; [|done].
  pose proof (Forall_lookup_1 _ _ _ _ Hws Hk) as Hw.
  destruct w as [i|i|]; simpl in Hw; [| |done].
  - pose proof (tally_insert awaiting _ _ _ (Settled i) Hk) as Hcount. simpl in Hcount.
    split; [|split]; simpl; [| |done].
    + apply J_settle; [done..|].
      replace (in_flight (<[k:=Settled i]> (workers p)) + 1)
        with (in_flight (workers p)) by (unfold in_flight; lia).
      done.
    + by apply Forall_insert.
  - pose proof (enter_steady (next p) (in_flight (workers p))
                  (on_resume i (shared p)) (workers p) (λ ws w, <[k:=w]> ws)) as Hstep.
    destruct (enter (next p) (on_resume i (shared p))) as [[w n'] s']. apply Hstep.
    + by apply J_resume.
    + done.
    + done.
    + intros w0.
      pose proof (tally_insert awaiting _ _ _ w0 Hk) as Hcount. simpl in Hcount.
      unfold in_flight. lia.
    + intros m w0 H1 H2. by apply Forall_insert.
Qed.

Lemma run_steady fuel schedule (p : pool St) : steady p → steady (run_pool fuel schedule p).
Proof.
  revert schedule p. induction fuel as [|fuel IH]; intros schedule p Hp; simpl; [done|].
  destruct (pending (workers p) !! _); [|done]. by apply IH, turn_steady.
Qed.

End PoolSteps.

(** The deletion pool of [deleteBranches] after [turns] turns of its
    workers. *)
Definition deleting (del : nat → outcome (option string)) (candidates : list string)
    (turns : nat) (schedule : list nat) (t : tool) : pool delete_state :=
  WorkerPool.run (length candidates) (deletionWorker_claim candidates)
    (deletionWorker_settle del candidates) (λ _ s, s) turns schedule
    (WorkerPool.spawn (length candidates) (deletionWorker_claim candidates)
       (Nat.min DELETE_CONCURRENCY (length candidates))
       {| next := 0; workers := [];
          shared := {| deletedCount := 0; failedBranchesSync := []; delete_tool := t |} |}).

(** The checking pool of [checkBranches] after [turns] turns of its
    workers. *)
Definition checking (branches : list string) (q : nat → outcome (option string))
    (turns : nat) (schedule : list nat) (t : tool) : pool check_state :=
  WorkerPool.run (length branches) (processBranch_claim branches)
    (processBranch_settle branches q) (fluidWorker_resume branches q) turns schedule
    (WorkerPool.spawn (length branches) (processBranch_claim branches)
       (Nat.min CONCURRENCY_LIMIT (length branches))
       {| next := 0; workers := [];
          shared := {| resultsMap := ∅; branchesToDeleteSync := []; check_tool := t |} |}).

Lemma take_candidate (candidates : list string) n :
  n < length candidates →
  take (n + 1) candidates = take n candidates ++ [candidate_at candidates n].
Proof.
  intros Hn. destruct (lookup_lt_is_Some_2 candidates n Hn) as [b Hb].
  unfold candidate_at. rewrite Hb, Nat.add_1_r. simpl. by apply take_S_r.
Qed.

Lemma deleting_steady del candidates turns schedule t :
  steady (length candidates)
    (λ n a s,
       (∃ lines, delete_tool s
                 = extend lines ((λ b, (delete_command b, silently)) <$> take n candidates) t)
       ∧ deletedCount s + length (failedBranchesSync s) + a = n)
    (deleting del candidates turns schedule t).
Proof.
  assert (Hclaim : ∀ n a s, n < length candidates →
    (∃ lines, delete_tool s
              = extend lines ((λ b, (delete_command b, silently)) <$> take n candidates) t)
    ∧ deletedCount s + length (failedBranchesSync s) + a = n →
    (∃ lines, delete_tool (deletionWorker_claim candidates n s)
              = extend lines
                  ((λ b, (delete_command b, silently)) <$> take (n + 1) candidates) t)
    ∧ deletedCount (deletionWorker_claim candidates n s)
        + length (failedBranchesSync (deletionWorker_claim candidates n s)) + (a + 1)
      = n + 1).
  { intros n a s Hn [[lines Ht] Hcount]. split; [|simpl; lia].
    exists lines. simpl. rewrite Ht, record_call_extend, extend_extend.
    by rewrite take_candidate, fmap_app, app_nil_r. }
  apply run_steady, spawn_steady.
  - exact Hclaim.
  - intros i n a s Hi Hn [[lines Ht] Hcount]. split.
    + eexists. by rewrite settle_tool, Ht, extend_extend, app_nil_r.
    + rewrite settle_deletedCount, settle_failed, length_app.
      case_decide; simpl; lia.
  - intros i n a s Hi Hn [[lines Ht] Hcount]. split; [by exists lines | done].
  - exact Hclaim.
  - split; [|split]; simpl; [|done|lia].
    split; [|done]. exists []. by rewrite extend_nil.
Qed.

(** [X12]  The deletion while it runs.  After any number of turns of the
    workers, under any schedule: the commands issued so far are the
    [git branch -d] commands of the candidates claimed so far, in the order
    of the candidates and each once; every claimed candidate is counted as
    deleted, listed as failed, or has its command running; at most three
    commands run at a time; and the workers touch nothing of the tool but
    its terminal and its calls.  After [2 M] turns the pool is the one
    [deleteBranches] waits for. *)
Theorem deletion_in_progress
    (del : nat → outcome (option string)) (candidates : list string)
    (turns : nat) (schedule : list nat) (t : tool) :
  let p := deleting del candidates turns schedule t in
  (∃ lines, delete_tool (shared p)
            = extend lines
                ((λ b, (delete_command b, silently)) <$> take (next p) candidates) t)
  ∧ deletedCount (shared p) + length (failedBranchesSync (shared p))
      + in_flight (workers p) = next p
  ∧ in_flight (workers p) ≤ 3
  ∧ next p ≤ length candidates
  ∧ deleting del candidates (2 * length candidates) schedule t
    = delete_pool del candidates schedule t.
Proof.
  intros p. destruct (deleting_steady del candidates turns schedule t)
    as ((Htool & Hcount) & _ & Hnext).
  split; [done|]. split; [done|]. split; [|done].
  etransitivity; [apply in_flight_le|]. unfold p, deleting.
  rewrite run_length, spawn_length. unfold DELETE_CONCURRENCY.
  cbn [workers length]. lia.
Qed.

Lemma processBranch_tool branches q i s :
  ∃ lines, check_tool (processBranch_settle branches q i s)
           = extend lines [] (check_tool s)
         ∧ (verbose (check_tool s) = false → lines = []).
Proof.
  unfold processBranch_settle.
  destruct (q i) as [st|e]; [|exists []; by rewrite extend_nil].
  destruct (classify st) as [[ic lb] d].
  destruct (verbose (check_tool s)) eqn:Hv.
  - eexists. split; [|intros [=]]. destruct d; simpl; rewrite Hv; unfold Spinner.debug;
      rewrite console_log_extend; reflexivity.
  - exists []. rewrite extend_nil. by destruct d.
Qed.

Lemma fluidWorker_tool branches q i s :
  ∃ lines, check_tool (fluidWorker_resume branches q i s)
           = extend lines [] (check_tool s)
         ∧ (verbose (check_tool s) = false → lines = []).
Proof.
  unfold fluidWorker_resume.
  destruct (q i) as [st|e]; [exists []; by rewrite extend_nil|]. simpl.
  destruct (verbose (check_tool s)) eqn:Hv.
  - eexists. split; [|intros [=]]. simpl. rewrite Hv. unfold Spinner.debug.
    rewrite console_log_extend. reflexivity.
  - exists []. by rewrite extend_nil.
Qed.

Lemma branch_at_claimed (branches : list string) i n :
  i < n → n ≤ length branches → branch_at branches i ∈ take n branches.
Proof.
  intros Hi Hn. destruct (lookup_lt_is_Some_2 branches i) as [b Hb]; [lia|].
  unfold branch_at. rewrite Hb. simpl.
  apply (list_elem_of_lookup_2 _ i). by rewrite lookup_take_lt.
Qed.

Lemma take_claim (branches : list string) n b :
  b ∈ take n branches → b ∈ take (n + 1) branches.
Proof.
  intros (i & Hi)%list_elem_of_lookup. apply (list_elem_of_lookup_2 _ i).
  pose proof (lookup_lt_Some _ _ _ Hi) as Hlt. rewrite length_take in Hlt.
  rewrite lookup_take_lt in Hi by lia. rewrite lookup_take_lt by lia. done.
Qed.

Lemma take_branch (branches : list string) n :
  n < length branches →
  take (n + 1) branches = take n branches ++ [branch_at branches n].
Proof. apply take_candidate. Qed.

Definition check_steady (branches : list string) (t : tool)
    (n a : nat) (s : check_state) : Prop :=
  (∃ lines, check_tool s
            = extend lines
                ((λ b, (pr_view_command b, pr_view_options)) <$> take n branches) t
            ∧ (verbose t = false → lines = []))
  ∧ (∀ k, is_Some (resultsMap s !! k) → k ∈ take n branches)
  ∧ (∀ b, b ∈ branchesToDeleteSync s → b ∈ take n branches)
  ∧ length (branchesToDeleteSync s) + a ≤ n.

Lemma checking_steady branches q turns schedule t :
  steady (length branches) (check_steady branches t) (checking branches q turns schedule t).
Proof.
  assert (Hclaim : ∀ n a s, n < length branches →
            check_steady branches t n a s →
            check_steady branches t (n + 1) (a + 1) (processBranch_claim branches n s)).
  { intros n a s Hn ((lines & Ht & Hquiet) & Hmap & Hdel & Hcount).
    split; [|split; [|split]]; simpl; [|eauto using take_claim..|lia].
    exists lines. split; [|done].
    rewrite Ht, record_call_extend, extend_extend.
    by rewrite take_branch, fmap_app, app_nil_r. }
  apply run_steady, spawn_steady.
  - exact Hclaim.
  - intros i n a s Hi Hn ((lines & Ht & Hquiet) & Hmap & Hdel & Hcount).
    destruct (processBranch_tool branches q i s) as (lines' & Ht' & Hquiet').
    split; [|split; [|split]].
    + exists (lines ++ lines'). rewrite Ht', Ht, extend_extend, app_nil_r.
      split; [done|].
      intros Hv. rewrite Hquiet by done. rewrite Hquiet' by (by rewrite Ht). done.
    + intros k. rewrite settle_resultsMap. destruct (q i); [|by auto].
      intros [<-|?]%lookup_insert_is_Some'; [by apply branch_at_claimed | auto].
    + intros b. rewrite settle_branchesToDelete.
      intros [?|Hin]%elem_of_app; [auto|].
      destruct (deletable (q i)); [|by apply elem_of_nil in Hin].
      apply list_elem_of_singleton in Hin as ->. by apply branch_at_claimed.
    + rewrite settle_branchesToDelete, length_app.
      destruct (deletable (q i)); simpl; lia.
  - intros i n a s Hi Hn ((lines & Ht & Hquiet) & Hmap & Hdel & Hcount).
    destruct (fluidWorker_tool branches q i s) as (lines' & Ht' & Hquiet').
    split; [|split; [|split]].
    + exists (lines ++ lines'). rewrite Ht', Ht, extend_extend, app_nil_r.
      split; [done|].
      intros Hv. rewrite Hquiet by done. rewrite Hquiet' by (by rewrite Ht). done.
    + intros k. rewrite resume_resultsMap. destruct (q i); [by auto|].
      intros [<-|?]%lookup_insert_is_Some'; [by apply branch_at_claimed | auto].
    + intros b. rewrite resume_branchesToDelete. auto.
    + rewrite resume_branchesToDelete. lia.
  - exact Hclaim.
  - split; [|split]; simpl; [|done|lia].
    split; [|split; [|split]]; simpl.
    + exists []. by rewrite extend_nil.
    + intros k [r Hr]. by rewrite lookup_empty in Hr.
    + by intros b ?%elem_of_nil.
    + unfold in_flight, tally. simpl. lia.
Qed.

(** [X13]  The status check while it runs.  After any number of turns of
    the workers, under any schedule: at most five [getPRStatus] requests
    are in flight; the results stored and the branches handed to
    [addBranchToDelete] are names of branches claimed so far, and the
    branches to delete together with the requests in flight are no more
    than the branches claimed; the commands run so far are the
    [gh pr view] queries of the branches claimed so far, in the order of
    the branches and each once, with [silent] set and a timeout of ten
    seconds; the workers print nothing unless the tool is verbose, and
    touch nothing of the tool but its terminal and its calls.  After [2 N]
    turns the pool is the one [checkBranches] waits for. *)
Theorem check_in_progress
    (branches : list string) (q : nat → outcome (option string))
    (turns : nat) (schedule : list nat) (t : tool) :
  let p := checking branches q turns schedule t in
  in_flight (workers p) ≤ 5
  ∧ next p ≤ length branches
  ∧ (∀ k, is_Some (resultsMap (shared p) !! k) → k ∈ take (next p) branches)
  ∧ (∀ b, b ∈ branchesToDeleteSync (shared p) → b ∈ take (next p) branches)
  ∧ length (branchesToDeleteSync (shared p)) + in_flight (workers p) ≤ next p
  ∧ (∃ lines,
       check_tool (shared p)
       = extend lines
           ((λ b, (("gh pr view " ++ DQUOTE ++ b ++ DQUOTE ++ " --json state --jq .state")%string,
                   {| silent := true; timeout := Some 10000%N |}))
              <$> take (next p) branches) t
       ∧ (verbose t = false → lines = []))
  ∧ checking branches q (2 * length branches) schedule t
    = check_pool branches q schedule t.
Proof.
  intros p. destruct (checking_steady branches q turns schedule t)
    as ((Htool & Hmap & Hdel & Hcount) & _ & Hnext).
  split; [|done].
  etransitivity; [apply in_flight_le|]. unfold p, checking.
  rewrite run_length, spawn_length. unfold CONCURRENCY_LIMIT.
  cbn [workers length]. lia.
Qed.

(** ** The deletion: what is run, and when nothing is *)

Definition delete_call (b : string) : string * exec_options :=
  (delete_command b, silently).

Lemma list_candidates_returns candidates t t' :
  list_candidates candidates t = Returns t' →
  ∃ lines, t' = extend lines [] t ∧ length lines = length candidates.
Proof.
  revert t. induction candidates as [|b candidates IH]; intros t; simpl.
  { intros [= <-]. exists []. by rewrite extend_nil. }
  destruct (find_result b (prResults t)) as [result|e]; [|done].
  intros (lines & -> & Hlen)%IH. unfold Spinner.log.
  rewrite console_log_extend, extend_extend. eexists. split; [reflexivity|].
  simpl. by rewrite Hlen.
Qed.


Lemma delete_pool_tool del candidates schedule t :
  ∃ lines, delete_tool (shared (delete_pool del candidates schedule t))
           = extend lines (delete_call <$> candidates) t.
Proof.
  destruct (deleting_steady del candidates (2 * length candidates) schedule t)
    as (((lines & Htool) & _) & _ & _).
  destruct (execute_history (length candidates) (deletionWorker_claim candidates)
              (deletionWorker_settle del candidates) (λ _ s, s)
              (Nat.min DELETE_CONCURRENCY (length candidates)) schedule
              {| deletedCount := 0; failedBranchesSync := []; delete_tool := t |})
    as (tr & _ & _ & _ & _ & _ & _ & Hnext).
  { unfold DELETE_CONCURRENCY. lia. }
  change (deleting del candidates (2 * length candidates) schedule t)
    with (delete_pool del candidates schedule t) in Htool.
  unfold delete_pool. unfold delete_pool in Htool.
  rewrite Hnext, take_ge in Htool by done. by exists lines.
Qed.

(** What [deleteBranches] leaves when it returns: the tool with lines
    printed and, when it is not a dry run and the user confirms, one
    deletion command for each branch to delete. *)
Lemma deleteBranches_returns answer del schedule t t' :
  deleteBranches answer del schedule t = Returns t' →
  ∃ lines, t' = extend lines
                  (delete_call
                     <$> (if negb (dryRun t) && askConfirmation answer
                          then branchesToDelete t else [])) t.
Proof.
  unfold deleteBranches. case_decide as Hlen.
  { intros [= <-]. apply nil_length_inv in Hlen as ->.
    rewrite Tauto.if_same. simpl.
    unfold Spinner.warning. destruct (untrackedOnly t);
      rewrite console_log_extend; by eexists. }
  cbv zeta. set (t1 := if dryRun (console_log EmptyString t) then _ else _).
  assert (∃ line, t1 = extend [EmptyString; line] [] t) as [line Ht1].
  { subst t1. unfold Spinner.warning, Spinner.error.
    change (dryRun (console_log EmptyString t)) with (dryRun t).
    change (untrackedOnly (console_log EmptyString t)) with (untrackedOnly t).
    destruct (dryRun t), (untrackedOnly t);
      rewrite !console_log_extend, extend_extend; by eexists. }
  rewrite Ht1. clearbody t1. clear Ht1 t1.
  change (branchesToDelete (extend _ _ t)) with (branchesToDelete t).
  destruct (list_candidates _ _) as [t2|e] eqn:Hlist; [|done].
  apply list_candidates_returns in Hlist as (lines & -> & _).
  rewrite extend_extend.
  change (dryRun (extend _ _ t)) with (dryRun t).
  change (untrackedOnly (extend _ _ t)) with (untrackedOnly t).
  destruct (dryRun t); simpl negb; simpl andb.
  { intros [= <-]. unfold Spinner.info. destruct (untrackedOnly t);
      rewrite console_log_extend, extend_extend; by eexists. }
  destruct (askConfirmation answer).
  - intros [= <-]. rewrite delete_summary_extend.
    change (branchesToDelete (console_log _ (extend _ _ t))) with (branchesToDelete t).
    destruct (delete_pool_tool del (branchesToDelete t) schedule
                (console_log EmptyString (extend (EmptyString :: line :: lines) [] t)))
      as (lines' & ->).
    rewrite console_log_extend, !extend_extend. simpl. rewrite app_nil_r. by eexists.
  - intros [= <-]. unfold Spinner.info. rewrite console_log_extend, extend_extend.
    by eexists.
Qed.

(** [X14]  [deleteBranches] in a dry run, or with nothing to delete: the
    user is not asked and no command is run.  The result is the same
    whatever would be typed at the prompt and whatever the deletion
    commands would give, and a tool it returns is the tool it was given
    but for the lines printed. *)
Theorem deleteBranches_dry_run
    (answer : string) (del : nat → outcome (option string))
    (schedule : list nat) (t : tool) :
  dryRun t = true ∨ branchesToDelete t = [] →
  (∀ answer' del' schedule',
     deleteBranches answer' del' schedule' t = deleteBranches answer del schedule t)
  ∧ (∀ t', deleteBranches answer del schedule t = Returns t' →
       ∃ lines, t' = extend lines [] t).
Proof.
  intros Hquiet. split.
  - intros answer' del' schedule'. unfold deleteBranches.
    case_decide as Hlen; [done|]. cbv zeta.
    destruct Hquiet as [Hdry | Hnil]; [|by rewrite Hnil in Hlen].
    change (dryRun (console_log EmptyString t)) with (dryRun t). rewrite Hdry.
    destruct (list_candidates _ _) as [t2|e] eqn:Hlist; [|done].
    apply list_candidates_returns in Hlist as (lines & -> & _).
    change (dryRun (extend _ _ _)) with (dryRun t). by rewrite Hdry.
  - intros t' (lines & ->)%deleteBranches_returns. exists lines.
    destruct Hquiet as [-> | ->]; [done|]. by rewrite Tauto.if_same.
Qed.

Lemma deleteBranches_dry_run_witness :
  deleteBranches "no" (λ _, Returns None) [2; 1]
    (set_dryRun (set_results [Some {| branch := "feature/a"; icon := "✅";
                                      label := "Merged" |}]
                   ["feature/a"] new_tool))
  = deleteBranches "yes" (λ _, Returns (Some EmptyString)) []
      (set_dryRun (set_results [Some {| branch := "feature/a"; icon := "✅";
                                        label := "Merged" |}]
                     ["feature/a"] new_tool)).
Proof.
  exact (proj1 (deleteBranches_dry_run "yes" (λ _, Returns (Some EmptyString)) []
                  (set_dryRun (set_results [Some {| branch := "feature/a"; icon := "✅";
                                                    label := "Merged" |}]
                                 ["feature/a"] new_tool))
                  (or_introl eq_refl))
           "no"%string (λ _, Returns None) [2; 1]).
Defined.

(** ** A whole run: what is run, and what is deleted *)

(** The commands of the set-up and of the listing. *)
Definition setup_calls : list (string * exec_options) :=
  [("git rev-parse --git-dir", silently); ("gh --version", silently);
   ("gh auth status", silently); ("git branch --show-current", silently);
   (list_branches_command, silently)]%string.

(** The query of the pull request of a branch. *)
Definition pr_view_call (b : string) : string * exec_options :=
  (pr_view_command b, pr_view_options).

(** The command runs the GitHub CLI. *)
Definition to_github (c : string * exec_options) : bool := String.prefix "gh " c.1.

(** [command.startsWith("git branch -d ")] *)
Definition deletes (command : string) : bool := String.prefix "git branch -d " command.


Lemma deletes_pr_view_command b : deletes (pr_view_command b) = false.
Proof. reflexivity. Qed.


Ltac among := solve [repeat (first [by left | right])].
Ltac all_among := repeat first [apply Forall_nil_2 | apply Forall_cons_2; [among|]].
Ltac none_github := repeat first [apply Forall_nil_2 | apply Forall_cons_2; [reflexivity|]].










Section Shapes.

Variable exec : string → exec_options → outcome (option string).

Lemma dependency_final command timed_out failed t :
  ∃ lines, final (dependency exec command timed_out failed t)
           = extend lines [(command, silently)] t.
Proof.
  destruct (dependency_cases exec command timed_out failed t)
    as [[_ ->]|[_ [[line ->]|[e ->]]]]; by eexists.
Qed.

Lemma checkDependencies_final t :
  ∃ lines commands, final (checkDependencies exec t) = extend lines commands t
    ∧ Forall (λ c, c ∈ setup_calls) commands
    ∧ (untrackedOnly t = true ∨ countOnly t = true →
       Forall (λ c, to_github c = false) commands).
Proof.
  unfold checkDependencies.
  destruct (dependency_cases exec "git rev-parse --git-dir"
              "Git repository check timed out" "Not in a git repository" t)
    as [[_ ->]|[_ [[line ->]|[e ->]]]]; simpl;
    [|eexists _, _; (split; [reflexivity|split; [all_among|intros _; none_github]])..].
  destruct (untrackedOnly t) eqn:Hu; simpl.
  { unfold Spinner.success. rewrite console_log_extend, extend_extend.
    eexists _, _. split; [reflexivity|]. split; [all_among|].
    intros _. none_github. }
  destruct (countOnly t) eqn:Hc; simpl.
  { unfold Spinner.success. rewrite console_log_extend, extend_extend.
    eexists _, _. split; [reflexivity|]. split; [all_among|].
    intros _. none_github. }
  match goal with
  | |- context [dependency exec ?c ?a ?b ?t0] =>
      destruct (dependency_cases exec c a b t0) as [[_ ->]|[_ [[line ->]|[e ->]]]]
  end; simpl; rewrite ?extend_extend;
    [|eexists _, _; (split; [reflexivity|split; [all_among|by intros [|]]])..].
  match goal with
  | |- context [dependency exec ?c ?a ?b ?t0] =>
      destruct (dependency_cases exec c a b t0) as [[_ ->]|[_ [[line ->]|[e ->]]]]
  end; simpl; unfold Spinner.success; rewrite ?console_log_extend, ?extend_extend;
    eexists _, _; (split; [reflexivity|split; [all_among|by intros [|]]]).
Qed.

Lemma getCurrentBranch_final t :
  ∃ lines,
    (∃ out, getCurrentBranch exec t
            = Done tt (extend lines [("git branch --show-current"%string, silently)]
                         (set_currentBranch out t)))
    ∨ (getCurrentBranch exec t
       = Exit 1 (extend lines [("git branch --show-current"%string, silently)] t)).
Proof.
  unfold getCurrentBranch, Spinner.error, Spinner.success.
  destruct (exec _ _) as [[out|]|e];
    [destruct (String.eqb out TIMEOUT)|..];
    rewrite ?console_log_extend, ?record_call_extend, ?extend_extend.
  - eexists. right. reflexivity.
  - exists [Spinner.success_line ("Current branch: " ++ out)]. left. exists out.
    f_equal. unfold extend, set_currentBranch. simpl. by rewrite !app_nil_r.
  - eexists. right. reflexivity.
  - eexists. right. reflexivity.
Qed.


End Shapes.



Section Stages.

Variable exec : string → exec_options → outcome (option string).

Definition unprotected (t : tool) (b : string) : Prop :=
  b ∉ ["main"; "master"; currentBranch t]%string.



End Stages.

Lemma display_rows_final results t :
  ∃ lines, display_rows results t = Done tt (extend lines [] t)
         ∨ ∃ e, display_rows results t = Raise e (extend lines [] t).
Proof.
  revert t. induction results as [|[r|] results IH]; intros t; simpl.
  - exists []. left. by rewrite extend_nil.
  - destruct (IH (Spinner.log (table_row (branch r) (icon r) (label r)) EmptyString t))
      as (lines & [->| [e ->]]); unfold Spinner.log;
      rewrite console_log_extend, extend_extend; eexists; [left | right; exists e];
      reflexivity.
  - exists []. right. eexists. by rewrite extend_nil.
Qed.

Lemma displayResults_final t :
  ∃ lines, displayResults t = Done tt (extend lines [] t)
         ∨ ∃ e, displayResults t = Raise e (extend lines [] t).
Proof.
  unfold displayResults, Spinner.log. rewrite !console_log_extend, !extend_extend.
  match goal with
  | |- context [display_rows ?r ?t0] =>
      destruct (display_rows_final r t0) as (lines & [->| [e ->]])
  end; simpl; rewrite ?console_log_extend, !extend_extend; eexists;
    [left | right; exists e]; reflexivity.
Qed.


Section WholeRun.

Variable argv : list string.
Variable chdir : nat → string → outcome unit.
Variable repository : string.
Variable exec : string → exec_options → outcome (option string).
Variable getPRStatus_at : nat → outcome (option string).
Variable answer : string.
Variable execCommand_at : nat → outcome (option string).
Variable check_schedule delete_schedule : list nat.

Local Abbreviation cleanup_of :=
  (cleanup exec getPRStatus_at answer execCommand_at check_schedule delete_schedule).
Local Abbreviation run_of :=
  (run argv chdir repository exec getPRStatus_at answer execCommand_at
     check_schedule delete_schedule).
Local Abbreviation main_of :=
  (main argv chdir repository exec getPRStatus_at answer execCommand_at
     check_schedule delete_schedule).

(** The tool [t'] a run leaves from the tool [t]: the flags are those of
    [t]; set-up commands have been run, then queries, then deletion
    commands, both for branches that are not protected; no query is made
    with --untracked-only or --count; and branches are deleted only when
    the run is no dry run and no count and the user confirms, and then
    they are the branches to delete. *)
Definition safe (t t' : tool) : Prop :=
  dryRun t' = dryRun t ∧ untrackedOnly t' = untrackedOnly t
  ∧ countOnly t' = countOnly t ∧ verbose t' = verbose t
  ∧ ∃ setup queried deleted,
      calls t' = calls t ++ setup ++ (pr_view_call <$> queried) ++ (delete_call <$> deleted)
      ∧ Forall (λ c, c ∈ setup_calls) setup
      ∧ (untrackedOnly t = true ∨ countOnly t = true →
         Forall (λ c, to_github c = false) setup ∧ queried = [])
      ∧ (∀ b, b ∈ queried ∨ b ∈ deleted → unprotected t' b)
      ∧ (deleted ≠ [] →
         deleted = branchesToDelete t' ∧ dryRun t = false ∧ countOnly t = false
         ∧ askConfirmation answer = true).


Lemma safe_extend_lines t t' lines : safe t t' → safe t (extend lines [] t').
Proof.
  intros (? & ? & ? & ? & setup & queried & deleted & Hcalls & Hrest).
  repeat split; try done.
  exists setup, queried, deleted. simpl. by rewrite app_nil_r.
Qed.











Lemma lift_final {A : Type} (f : tool → ending tool A) p :
  this (final (lift f p)) = final (f (this p))
  ∧ chdirs (final (lift f p)) = chdirs p.
Proof. unfold lift. by destruct (f (this p)). Qed.



(** An ending by an error thrown. *)
Definition raises {St A : Type} (m : ending St A) : bool :=
  match m with
  | Raise _ _ => true
  | _ => false
  end.

Lemma raises_and_then {St A B : Type} (m : ending St A) (k : A → St → ending St B) :
  raises m = false → (∀ a, m = Done a (final m) → raises (k a (final m)) = false) →
  raises (and_then m k) = false.
Proof. destruct m; simpl; auto. Qed.

Lemma checkBranches_on_defined branches q schedule t :
  Forall is_Some (prResults t) →
  Forall is_Some (prResults (checkBranches_on branches q schedule t)).
Proof.
  intros Hdef. unfold checkBranches_on. case_decide; [done|]. simpl.
  apply Forall_fmap, Forall_lookup. intros i b Hb. simpl.
  destruct (check_pool_resultsMap branches q schedule t i b Hb) as [->|(j & _ & _ & ->)];
    by eexists.
Qed.

Lemma display_rows_all_defined results t :
  Forall is_Some results → raises (display_rows results t) = false.
Proof.
  intros Hdef. revert t. induction Hdef as [|r results [x ->] _ IH]; intros t; [done|].
  simpl. apply IH.
Qed.

Lemma displayResults_all_defined t :
  Forall is_Some (prResults t) → raises (displayResults t) = false.
Proof.
  intros Hdef. unfold displayResults. apply raises_and_then; [|done].
  by apply display_rows_all_defined.
Qed.

Lemma deleteBranches_step_all_defined t :
  Forall is_Some (prResults t) →
  raises (deleteBranches_step answer execCommand_at delete_schedule t) = false.
Proof.
  intros Hdef. unfold deleteBranches_step, deleteBranches.
  case_decide; [done|]. cbv zeta.
  set (t1 := if dryRun (console_log EmptyString t) then _ else _).
  assert (∃ line, t1 = extend [EmptyString; line] [] t) as [line ->].
  { subst t1. unfold Spinner.warning, Spinner.error.
    change (dryRun (console_log EmptyString t)) with (dryRun t).
    change (untrackedOnly (console_log EmptyString t)) with (untrackedOnly t).
    destruct (dryRun t), (untrackedOnly t);
      rewrite !console_log_extend, extend_extend; by eexists. }
  rewrite list_candidates_extend by done.
  by repeat match goal with |- context [if ?b then _ else _] => destruct b end.
Qed.

(** [X22]  The [catch] block of [run] is for errors of [execCommand]
    alone.  As long as the commands of the set-up do not throw (and
    [execCommand] does not when it is called silently, as it is here), the
    steps after [parseArguments] end by returning or by exiting: every
    branch that is listed for deletion has a result, so neither the table
    nor the deletion ever meets an undefined entry, whatever the statuses,
    the failures of [getPRStatus] and the schedules. *)
Theorem cleanup_never_raises (t : tool) :
  (∀ command, ∃ result, exec command silently = Returns result) →
  prResults t = [] →
  raises (cleanup_of t) = false.
Proof.
  intros Hexec Hnone.
  assert (Hdep : ∀ command timed_out failed t0,
            raises (dependency exec command timed_out failed t0) = false).
  { intros command timed_out failed t0. unfold dependency.
    destruct (Hexec command) as [[out|] ->]; [by destruct (String.eqb out TIMEOUT) | done]. }
  unfold cleanup.
  destruct (checkDependencies_final exec t) as (l0 & c0 & Hf0 & _).
  apply raises_and_then.
  { unfold checkDependencies.
    repeat first
      [ apply Hdep
      | apply raises_and_then; [|intros [] _]
      | match goal with |- raises (if ?b then _ else _) = false => destruct b end
      | reflexivity ]. }
  intros [] _. rewrite Hf0.
  destruct (getCurrentBranch_final exec (extend l0 c0 t)) as (l1 & [(out & ->)| ->]);
    [|done]. simpl and_then.
  match goal with |- raises (if ?b then _ else _) = false => destruct b end; [done|].
  match goal with
  | |- context [and_then (displayResults ?t4) _] =>
      assert (Hdef : Forall is_Some (prResults t4))
  end.
  { match goal with |- context [if ?b then _ else _] => destruct b end.
    - destruct (checkUntrackedBranches_extend (getUntrackedBranches exec)
                  (extend l1 [("git branch --show-current"%string, silently)]
                     (set_currentBranch out (extend l0 c0 t)))) as (lines & -> & _).
      unfold getUntrackedBranches.
      destruct (getBranches_tool exec "untracked"
                  (extend l1 [("git branch --show-current"%string, silently)]
                     (set_currentBranch out (extend l0 c0 t)))) as (l & Hl & _).
      destruct (getBranches exec "untracked" _) as [branches t1]. simpl in Hl. subst t1.
      simpl. rewrite Hnone. simpl. apply Forall_fmap, Forall_true. by eexists.
    - unfold checkBranches, getTrackedBranches.
      destruct (getBranches_tool exec "tracked"
                  (extend l1 [("git branch --show-current"%string, silently)]
                     (set_currentBranch out (extend l0 c0 t)))) as (l & Hl & _).
      destruct (getBranches exec "tracked" _) as [branches t1]. simpl in Hl. subst t1.
      apply checkBranches_on_defined. simpl. by rewrite Hnone. }
  apply raises_and_then; [by apply displayResults_all_defined|].
  intros [] Hdone. apply deleteBranches_step_all_defined.
  match goal with
  | |- context [displayResults ?t4] =>
      destruct (displayResults_final t4) as (lines & [Hd | [e Hd]]); rewrite Hd
  end; simpl; exact Hdef.
Qed.










(** [X17]  The directory argument is used twice.  bin.js calls
    [parseArguments] and then [run], which calls it again, so with a
    directory as first argument (followed by mode options only)
    [process.chdir] is called with it a second time, from inside the
    directory the first call has entered.  When that second call throws,
    the program prints the failure and exits with code 1 without having
    run a single command; when it succeeds, both calls are on record at
    the end of the run. *)
Theorem main_directory_twice
    (dir : string) (flags : list string) (package_version : string) :
  argv = dir :: flags →
  dir ≠ EmptyString → startsWith_dash dir = false →
  Forall (λ arg, arg ∈ mode_flags) flags →
  chdir 0 dir = Returns tt →
  (∀ e, chdir 1 dir = Throws e →
     main_of package_version
     = Exit 1
         {| this := extend
                      [Spinner.log_line ("📂 Scanning repository: " ++ repository)
                         Colors.blue;
                       Spinner.error_line ("Failed to change directory to: " ++ dir)]
                      [] (switched_on flags new_tool);
            version := package_version;
            chdirs := [dir; dir] |})
  ∧ (chdir 1 dir = Returns tt →
     chdirs (final (main_of package_version)) = [dir; dir]).
Proof.
  intros Hargv Hdir Hdash Hflags Hfirst.
  assert (Hparse : ∀ p, chdir (length (chdirs p)) dir = Returns tt →
            parseArguments argv chdir p
            = Done None (on_this (switched_on flags) (record_chdir dir p))).
  { intros p Hok. unfold parseArguments. rewrite Hargv, Hdash.
    destruct (String.eqb_spec dir EmptyString) as [|_]; [done|]. simpl. rewrite Hok.
    rewrite <- (app_nil_r flags) at 1. by rewrite parse_options_mode_flags. }
  unfold main. rewrite Hparse by done. unfold run.
  set (p1 := on_this _ (on_this (switched_on flags) _)). split.
  - intros e Hsecond. unfold parseArguments. rewrite Hargv, Hdash.
    destruct (String.eqb_spec dir EmptyString) as [|_]; [done|]. simpl.
    rewrite Hsecond. simpl. subst p1. unfold Spinner.error, Spinner.log, on_this, record_chdir.
    cbn [this version chdirs app]. by rewrite !console_log_extend, extend_extend.
  - intros Hsecond. rewrite Hparse by done. simpl.
    set (p2 := on_this (switched_on flags) (record_chdir dir p1)).
    destruct (lift_final cleanup_of p2) as [_ Hchdirs].
    destruct (lift cleanup_of p2); simpl in *; by rewrite Hchdirs.
Qed.

End WholeRun.

Lemma main_directory_twice_witness :
  chdirs (final (main ["repo"; "--dry-run"]%string (λ _ _, Returns tt) "repo"
                   (λ _ _, Returns None) (λ _, Returns None) "n"
                   (λ _, Returns None) [] [] "1.0.0"))
  = ["repo"; "repo"]%string.
Proof.
  apply (main_directory_twice ["repo"; "--dry-run"]%string (λ _ _, Returns tt) "repo"
           (λ _ _, Returns None) (λ _, Returns None) "n" (λ _, Returns None) [] []
           "repo" ["--dry-run"]%string "1.0.0" eq_refl).
  - discriminate.
  - reflexivity.
  - repeat constructor.
  - reflexivity.
  - reflexivity.
Defined.

(** A repository on main with the branches feature/a (tracked), main and
    wip (local only); every other command prints "ok". *)
Definition sample_exec (command : string) (_ : exec_options) : outcome (option string) :=
  if String.eqb command "git branch --show-current" then Returns (Some "main"%string)
  else if String.eqb command list_branches_command
  then Returns (Some ("feature/a origin/feature/a" ++ String LF "main origin/main"
                        ++ String LF "wip")%string)
  else Returns (Some "ok"%string).

(** The run goes through every step: the pull request of feature/a is
    merged, the user answers y, and the branch is deleted. *)
Lemma cleanup_never_raises_witness :
  raises (cleanup sample_exec (λ _, Returns (Some "MERGED"%string)) "y"
            (λ _, Returns (Some "Deleted branch feature/a."%string)) [] [] new_tool)
  = false
  ∧ calls (final (cleanup sample_exec (λ _, Returns (Some "MERGED"%string)) "y"
                    (λ _, Returns (Some "Deleted branch feature/a."%string)) [] []
                    new_tool))
    = [("git rev-parse --git-dir"%string, silently); ("gh --version"%string, silently);
       ("gh auth status"%string, silently);
       ("git branch --show-current"%string, silently);
       (list_branches_command, silently);
       (pr_view_command "feature/a", pr_view_options);
       (delete_command "feature/a", silently)].
Proof.
  split; [|by vm_compute].
  apply (cleanup_never_raises sample_exec (λ _, Returns (Some "MERGED"%string)) "y"
           (λ _, Returns (Some "Deleted branch feature/a."%string)) [] [] new_tool).
  - intros command. unfold sample_exec.
    destruct (String.eqb command "git branch --show-current"); [by eexists|].
    destruct (String.eqb command list_branches_command); by eexists.
  - reflexivity.
Defined.

(** A run that deletes: one tracked branch whose pull request is merged,
    the current branch main, and the answer y. *)
Example main_deletes_merged_branch :
  let t' :=
    this (final (main [] (λ _ _, Returns tt) "repo" sample_exec
                   (λ _, Returns (Some "MERGED"%string)) "y"
                   (λ _, Returns (Some "Deleted branch feature/a."%string))
                   [] [] "1.0.0")) in
  calls t'
  = [("git rev-parse --git-dir"%string, silently); ("gh --version"%string, silently);
     ("gh auth status"%string, silently); ("git branch --show-current"%string, silently);
     (list_branches_command, silently);
     (pr_view_command "feature/a", pr_view_options);
     (delete_command "feature/a", silently)]
  ∧ branchesToDelete t' = ["feature/a"%string]
  ∧ prResults t' = [Some {| branch := "feature/a"; icon := "✅"; label := "Merged" |}].
Proof. by vm_compute. Qed.

(** ** The spinner object *)

(** The [Spinner] class of utils/spinner.js with the standard output, the
    console and the timers of the process.  The tool above keeps the
    lines the spinner prints with [console.log]; here is the rest of it:
    the animation, the cursor and the timer. *)
Module SpinnerClass.

Definition CR : ascii := Ascii.ascii_of_N 13.

Definition frames : list string :=
  ["⠋"; "⠙"; "⠹"; "⠸"; "⠼"; "⠴"; "⠦"; "⠧"; "⠇"; "⠏"]%string.

Definition hide_cursor : string := String ESC "[?25l".
Definition show_cursor : string := String ESC "[?25h".
Definition clear_line : string := String CR (String ESC "[K").

Record spinner := {
  message : string;
  current : nat;
  interval : option nat;      (* the timer [setInterval] returned, or [null] *)
  isSpinning : bool
}.

Record world := {
  this : spinner;
  stdout : list string;       (* the chunks written to [process.stdout] *)
  console : list string;      (* the lines of [console.log] *)
  timers : list nat;          (* the intervals that are active *)
  created : nat               (* the number of timers created so far *)
}.

(** [new Spinner(message)] in a fresh process *)
Definition new_spinner (msg : string) : world :=
  {| this := {| message := msg; current := 0; interval := None; isSpinning := false |};
     stdout := []; console := []; timers := []; created := 0 |}.

Definition write (chunk : string) (w : world) : world :=
  {| this := this w; stdout := stdout w ++ [chunk]; console := console w;
     timers := timers w; created := created w |}.

Definition console_log (line : string) (w : world) : world :=
  {| this := this w; stdout := stdout w; console := console w ++ [line];
     timers := timers w; created := created w |}.

Definition start (w : world) : world :=
  if isSpinning (this w) then w
  else
    let w := write hide_cursor w in
    {| this := {| message := message (this w); current := current (this w);
                  interval := Some (created w); isSpinning := true |};
       stdout := stdout w; console := console w;
       timers := timers w ++ [created w]; created := created w + 1 |}.

(** The callback of [setInterval]; [frames[current]] is [undefined] out
    of range. *)
Definition frame_line (s : spinner) : string :=
  clear_line ++ Colors.blue ++ default "undefined" (frames !! current s) ++ " "
    ++ message s ++ Colors.reset.

Definition animate (w : world) : world :=
  let w := write (frame_line (this w)) w in
  {| this := {| message := message (this w);
                current := (current (this w) + 1) `mod` length frames;
                interval := interval (this w); isSpinning := isSpinning (this w) |};
     stdout := stdout w; console := console w; timers := timers w;
     created := created w |}.

(** Timer [id] fires: its callback runs when the timer is active. *)
Definition tick (id : nat) (w : world) : world :=
  if decide (id ∈ timers w) then animate w else w.

(** [clearInterval(handle)]; [clearInterval(null)] does nothing. *)
Definition clearInterval (handle : option nat) (w : world) : world :=
  match handle with
  | Some id =>
      {| this := this w; stdout := stdout w; console := console w;
         timers := filter (λ i, i ≠ id) (timers w); created := created w |}
  | None => w
  end.

Definition stop (w : world) : world :=
  if negb (isSpinning (this w)) then w
  else
    let w := clearInterval (interval (this w)) w in
    let w := {| this := {| message := message (this w); current := current (this w);
                           interval := None; isSpinning := false |};
                stdout := stdout w; console := console w; timers := timers w;
                created := created w |} in
    write show_cursor (write clear_line w).

Definition updateMessage (msg : string) (w : world) : world :=
  {| this := {| message := msg; current := current (this w);
                interval := interval (this w); isSpinning := isSpinning (this w) |};
     stdout := stdout w; console := console w; timers := timers w;
     created := created w |}.

Definition success (msg : string) (w : world) : world :=
  console_log (Spinner.success_line msg) (stop w).
Definition error (msg : string) (w : world) : world :=
  console_log (Spinner.error_line msg) (stop w).
Definition warning (msg : string) (w : world) : world :=
  console_log (Spinner.warning_line msg) (stop w).
Definition info (msg : string) (w : world) : world :=
  console_log (Spinner.info_line msg) (stop w).
Definition debug (msg : string) (verbose : bool) (w : world) : world :=
  if negb verbose then w else console_log (Spinner.debug_line msg) (stop w).
Definition log (msg color : string) (w : world) : world :=
  console_log (Spinner.log_line msg color) w.

(** What happens to a spinner: a call of one of its methods, or a timer
    that fires. *)
Inductive event : Type :=
| Start
| Stop
| UpdateMessage (msg : string)
| Success (msg : string)
| Error (msg : string)
| Warning (msg : string)
| Info (msg : string)
| Debug (msg : string) (verbose : bool)
| Log (msg color : string)
| Tick (id : nat).

Definition perform (w : world) (e : event) : world :=
  match e with
  | Start => start w
  | Stop => stop w
  | UpdateMessage msg => updateMessage msg w
  | Success msg => success msg w
  | Error msg => error msg w
  | Warning msg => warning msg w
  | Info msg => info msg w
  | Debug msg verbose => debug msg verbose w
  | Log msg color => log msg color w
  | Tick id => tick id w
  end.

(** The spinner after a history of events. *)
Definition after (msg : string) (history : list event) : world :=
  fold_left perform history (new_spinner msg).

(** The number of chunks of [stdout] that are [chunk]. *)
Definition written (chunk : string) (w : world) : nat :=
  length (filter (λ c, c = chunk) (stdout w)).

(** The lines the events of a history print with [console.log]. *)
Definition line_of (e : event) : option string :=
  match e with
  | Success msg => Some (Spinner.success_line msg)
  | Error msg => Some (Spinner.error_line msg)
  | Warning msg => Some (Spinner.warning_line msg)
  | Info msg => Some (Spinner.info_line msg)
  | Debug msg true => Some (Spinner.debug_line msg)
  | Log msg color => Some (Spinner.log_line msg color)
  | _ => None
  end.

(** The events that stop the animation. *)
Definition stops (e : event) : bool :=
  match e with
  | Stop | Success _ | Error _ | Warning _ | Info _ | Debug _ true => true
  | _ => false
  end.

(** What holds of a spinner at all times. *)
Record sound (w : world) : Prop := {
  sound_timers :
    timers w = match interval (this w) with Some id => [id] | None => [] end;
  sound_spinning : isSpinning (this w) = bool_decide (is_Some (interval (this w)));
  sound_created : ∀ id, interval (this w) = Some id → id < created w;
  sound_current : current (this w) < length frames;
  sound_cursor :
    written hide_cursor w
    = written show_cursor w + (if isSpinning (this w) then 1 else 0)
}.

Lemma written_write chunk c w :
  written chunk (write c w) = written chunk w + (if decide (c = chunk) then 1 else 0).
Proof.
  unfold written, write. simpl. rewrite filter_app, length_app.
  rewrite filter_cons, filter_nil. by case_decide.
Qed.

Lemma frame_line_not_cursor s :
  frame_line s ≠ hide_cursor ∧ frame_line s ≠ show_cursor.
Proof. unfold frame_line, clear_line, hide_cursor, show_cursor. split; intros [=]. Qed.

Lemma sound_new msg : sound (new_spinner msg).
Proof. split; simpl; try done. lia. Qed.

Lemma sound_start w : sound w → sound (start w).
Proof.
  intros Hw. pose proof Hw as [Ht Hs Hc Hcur Hcursor]. unfold start.
  destruct (isSpinning (this w)) eqn:Hspin; [done|].
  symmetry in Hs. apply bool_decide_eq_false in Hs.
  destruct (interval (this w)) as [id|] eqn:Hi; [by destruct Hs|].
  split; simpl.
  - by rewrite Ht.
  - done.
  - intros id [= <-]. lia.
  - done.
  - change (written hide_cursor (write hide_cursor w)
            = written show_cursor (write hide_cursor w) + 1).
    rewrite !written_write, Hcursor. rewrite decide_True by done.
    rewrite decide_False by done. lia.
Qed.

Lemma sound_stop w :
  sound w → sound (stop w) ∧ isSpinning (this (stop w)) = false ∧ timers (stop w) = [].
Proof.
  intros Hw. pose proof Hw as [Ht Hs Hc Hcur Hcursor]. unfold stop.
  destruct (isSpinning (this w)) eqn:Hspin; simpl.
  - symmetry in Hs. apply bool_decide_eq_true in Hs as [id Hi].
    rewrite Hi in Ht. rewrite Hi. simpl. split; [|split; [done|]].
    + split; simpl; try done.
      * rewrite Ht, filter_cons, filter_nil. by rewrite decide_False by (by intros []).
      * match goal with
        | |- written _ (write _ (write _ ?w0)) = _ =>
            rewrite !written_write;
            change (written hide_cursor w0) with (written hide_cursor w);
            change (written show_cursor w0) with (written show_cursor w)
        end.
        rewrite Hcursor. repeat case_decide; try done. lia.
    + rewrite Ht, filter_cons, filter_nil. by rewrite decide_False by (by intros []).
  - split; [done|]. split; [done|]. rewrite Ht.
    symmetry in Hs. apply bool_decide_eq_false in Hs.
    destruct (interval (this w)); [by destruct Hs | done].
Qed.

Lemma sound_console_log line w : sound w → sound (console_log line w).
Proof. intros [Ht Hs Hc Hcur Hcursor]. by split. Qed.

Lemma sound_animate w : sound w → sound (animate w).
Proof.
  intros [Ht Hs Hc Hcur Hcursor]. split; try done.
  - change (current (this (animate w)))
      with ((current (this w) + 1) `mod` length frames).
    apply Nat.mod_upper_bound. done.
  - change (written hide_cursor (write (frame_line (this w)) w)
            = written show_cursor (write (frame_line (this w)) w)
              + (if isSpinning (this w) then 1 else 0)).
    rewrite !written_write, Hcursor.
    destruct (frame_line_not_cursor (this w)).
    rewrite !decide_False by done. lia.
Qed.

Lemma sound_perform w e : sound w → sound (perform w e).
Proof.
  intros Hw. destruct e as [| |m|m|m|m|m|m v|m c|id]; simpl.
  - by apply sound_start.
  - by apply sound_stop.
  - destruct Hw. by split.
  - by apply sound_console_log, sound_stop.
  - by apply sound_console_log, sound_stop.
  - by apply sound_console_log, sound_stop.
  - by apply sound_console_log, sound_stop.
  - unfold debug. destruct v; simpl; [|done].
    by apply sound_console_log, sound_stop.
  - by apply sound_console_log.
  - unfold tick. case_decide; [by apply sound_animate | done].
Qed.

Lemma sound_after msg history : sound (after msg history).
Proof.
  unfold after. induction history as [|e history IH] using rev_ind.
  - apply sound_new.
  - rewrite fold_left_app. simpl. by apply sound_perform.
Qed.

(** [X18]  The spinner keeps its timer and the cursor in order.  After any
    history of method calls and timer ticks: the only interval that is
    active is the one in [this.interval], and there is one exactly when
    the spinner is spinning, so [start] never leaves a second timer
    behind and a stopped spinner leaves none to keep the process alive;
    the cursor has been hidden once more than it has been shown while the
    spinner is spinning and as often when it is not; and the frame index
    stays within the ten frames. *)
Theorem spinner_sound (msg : string) (history : list event) :
  let w := after msg history in
  timers w = match interval (this w) with Some id => [id] | None => [] end
  ∧ (isSpinning (this w) = true ↔ ∃ id, interval (this w) = Some id)
  ∧ written hide_cursor w
    = written show_cursor w + (if isSpinning (this w) then 1 else 0)
  ∧ current (this w) < 10
  ∧ is_Some (frames !! current (this w)).
Proof.
  intros w. destruct (sound_after msg history) as [Ht Hs Hc Hcur Hcursor]. fold w in Ht, Hs, Hcur, Hcursor.
  split; [done|]. split; [|split; [done|split; [done|]]].
  - rewrite Hs. rewrite bool_decide_eq_true. done.
  - by apply lookup_lt_is_Some.
Qed.

Lemma console_stop w : console (stop w) = console w.
Proof.
  unfold stop. destruct (isSpinning (this w)); [|done]. simpl.
  by destruct (interval (this w)).
Qed.

Lemma console_perform w e :
  console (perform w e) = console w ++ option_list (line_of e).
Proof.
  destruct e as [| |m|m|m|m|m|m v|m c|id]; simpl; rewrite ?console_stop, ?app_nil_r;
    try done.
  - unfold start. by destruct (isSpinning (this w)).
  - unfold debug. destruct v; simpl; by rewrite ?console_stop, ?app_nil_r.
  - unfold tick. by case_decide.
Qed.

(** [X19]  What the spinner prints and what stops it.  After any history,
    the lines of the console are those of the calls of success, error,
    warning, info, log and of debug when verbose, in the order of the
    calls: starting, stopping and the animation print none.  The last
    event decides whether the spinner spins: after stop, success, error,
    warning, info, or debug when verbose it does not and no timer is
    active; log, updateMessage, a tick and debug when not verbose leave it
    as it was; after start it spins. *)
Theorem spinner_console (msg : string) (history : list event) (e : event) :
  let w := after msg history in
  console w = omap line_of history
  ∧ (if stops e
     then isSpinning (this (perform w e)) = false ∧ timers (perform w e) = []
     else match e with
          | Start => isSpinning (this (perform w e)) = true
          | _ => isSpinning (this (perform w e)) = isSpinning (this w)
                 ∧ timers (perform w e) = timers w
          end).
Proof.
  intros w. split.
  - subst w. unfold after. induction history as [|e' history IH] using rev_ind; [done|].
    rewrite fold_left_app, omap_app. simpl. rewrite console_perform, IH.
    by destruct (line_of e').
  - pose proof (sound_after msg history) as Hw. fold w in Hw.
    destruct e as [| | | | | | |m [|]| |id]; simpl;
      try (by apply sound_stop); try done.
    + unfold start. by destruct (isSpinning (this w)) eqn:Hspin.
    + unfold tick. by case_decide.
Qed.

End SpinnerClass.

(** ** The answers that confirm *)

Lemma lower_letter (c : ascii) (letter : ascii) :
  (97 ≤ Ascii.N_of_ascii letter ≤ 122)%N →
  lower c = letter → c = letter ∨ c = Ascii.ascii_of_N (Ascii.N_of_ascii letter - 32).
Proof.
  intros Hletter. unfold lower.
  destruct ((65 <=? Ascii.N_of_ascii c) && (Ascii.N_of_ascii c <=? 90))%N eqn:Hupper;
    [|by left].
  apply andb_true_iff in Hupper as [Hlow%N.leb_le Hhigh%N.leb_le].
  intros <-. right. rewrite Ascii.N_ascii_embedding by lia.
  replace (Ascii.N_of_ascii c + 32 - 32)%N with (Ascii.N_of_ascii c) by lia.
  by rewrite Ascii.ascii_N_embedding.
Qed.

Lemma toLowerCase_nil s : toLowerCase s = EmptyString → s = EmptyString.
Proof. by destruct s. Qed.

Lemma toLowerCase_cons s letter rest :
  (97 ≤ Ascii.N_of_ascii letter ≤ 122)%N →
  toLowerCase s = String letter rest →
  ∃ c s', s = String c s' ∧ toLowerCase s' = rest
        ∧ (c = letter ∨ c = Ascii.ascii_of_N (Ascii.N_of_ascii letter - 32)).
Proof.
  intros Hletter. destruct s as [|c s']; [done|]. simpl. intros [= Hc Hs'].
  exists c, s'. split; [done|]. split; [done|]. by apply lower_letter.
Qed.

(** [X20]  The answers [askConfirmation] takes for a yes are y and yes in
    any mix of upper and lower case, and nothing else: the answer is not
    trimmed, so a space before or after makes it a no, and so does the
    empty answer of a bare Enter. *)
Theorem askConfirmation_accepts (answer : string) :
  askConfirmation answer = true
  ↔ answer ∈ ["y"; "Y"; "yes"; "yeS"; "yEs"; "yES"; "Yes"; "YeS"; "YEs"; "YES"]%string.
Proof.
  assert (Hletter : ∀ letter, letter ∈ ["y"; "e"; "s"]%char →
            (97 ≤ Ascii.N_of_ascii letter ≤ 122)%N).
  { intros letter Hin.
    repeat (apply elem_of_cons in Hin as [->|Hin]; [split; vm_compute; discriminate|]).
    by apply elem_of_nil in Hin. }
  split.
  - unfold askConfirmation. intros [Hy|Hyes]%orb_true_iff.
    + apply String.eqb_eq in Hy.
      apply toLowerCase_cons in Hy as (c & s' & -> & ->%toLowerCase_nil & [->| ->]);
        [by left | right; by left | apply Hletter; among].
    + apply String.eqb_eq in Hyes.
      apply toLowerCase_cons in Hyes as (c1 & s1 & -> & Hs1 & Hc1);
        [|apply Hletter; among].
      apply toLowerCase_cons in Hs1 as (c2 & s2 & -> & Hs2 & Hc2);
        [|apply Hletter; among].
      apply toLowerCase_cons in Hs2 as (c3 & s3 & -> & ->%toLowerCase_nil & Hc3);
        [|apply Hletter; among].
      destruct Hc1 as [-> | ->], Hc2 as [-> | ->], Hc3 as [-> | ->]; among.
  - intros Hin. repeat (apply elem_of_cons in Hin as [->|Hin]; [reflexivity|]).
    by apply elem_of_nil in Hin.
Qed.

(** ** The script that fixes junit.xml *)

Module FixJunit.

Definition BACKSLASH : ascii := Ascii.ascii_of_N 92.
Definition SLASH : ascii := Ascii.ascii_of_N 47.

(** [xml.replace(/\\/g, '/')], on the bytes of a text in UTF-8 (a byte of
    a character of several bytes is never the byte of a backslash) *)
Fixpoint replace_backslashes (xml : string) : string :=
  match xml with
  | EmptyString => EmptyString
  | String c rest =>
      String (if Ascii.eqb c BACKSLASH then SLASH else c) (replace_backslashes rest)
  end.

(** The script, for the text of coverage/junit.xml when the file exists:
    the text of the file afterwards, and the line printed. *)
Definition fix_junit (junit : option string) : option string * string :=
  match junit with
  | Some xml =>
      (Some (replace_backslashes xml),
       "Fixed junit.xml: replaced backslashes with forward slashes")
  | None => (None, "junit.xml not found, skipping fix")
  end.

Lemma replace_backslashes_get xml n :
  String.get n (replace_backslashes xml)
  = (λ c, if Ascii.eqb c BACKSLASH then SLASH else c) <$> String.get n xml.
Proof.
  revert n. induction xml as [|c xml IH]; intros n; [done|].
  destruct n as [|n]; simpl; [done | apply IH].
Qed.

(** [X21]  The script scripts/fix-junit.js: the text it writes has no
    backslash left; it is the text it read with a slash for each
    backslash and every other character as it was, so of the same length;
    a text without a backslash is written back unchanged, and so running
    the script a second time changes nothing; and when the file does not
    exist nothing is written. *)
Theorem fix_junit_result (xml : string) :
  let fixed := replace_backslashes xml in
  (fix_junit (Some xml)).1 = Some fixed
  ∧ (∀ n, String.get n fixed ≠ Some BACKSLASH)
  ∧ (∀ n, String.get n fixed
          = if bool_decide (String.get n xml = Some BACKSLASH) then Some SLASH
            else String.get n xml)
  ∧ String.length fixed = String.length xml
  ∧ ((∀ n, String.get n xml ≠ Some BACKSLASH) → fixed = xml)
  ∧ fix_junit (fix_junit (Some xml)).1 = fix_junit (Some xml)
  ∧ (fix_junit None).1 = None.
Proof.
  intros fixed.
  assert (Hget : ∀ n, String.get n fixed ≠ Some BACKSLASH).
  { intros n. subst fixed. rewrite replace_backslashes_get.
    destruct (String.get n xml) as [c|]; [|done]. simpl. intros [= Hc].
    destruct (Ascii.eqb c BACKSLASH) eqn:E; [done|]. by rewrite Hc in E. }
  assert (Hsame : ∀ s, (∀ n, String.get n s ≠ Some BACKSLASH) → replace_backslashes s = s).
  { induction s as [|c s IH]; intros Hs; [done|]. simpl.
    destruct (Ascii.eqb_spec c BACKSLASH) as [->|_]; [by destruct (Hs 0)|].
    f_equal. apply IH. intros n. apply (Hs (S n)). }
  split; [done|]. split; [done|]. split; [|split; [|split; [|split]]].
  - intros n. subst fixed. rewrite replace_backslashes_get.
    destruct (String.get n xml) as [c|]; simpl; [|done].
    destruct (Ascii.eqb_spec c BACKSLASH) as [->|Hc].
    + by rewrite bool_decide_eq_true_2.
    + rewrite bool_decide_eq_false_2; [done | congruence].
  - clear Hget. subst fixed. induction xml as [|c xml IH]; [done|]. simpl. by rewrite IH.
  - apply Hsame.
  - unfold fixed in *. simpl. by rewrite (Hsame _ Hget).
  - done.
Qed.

End FixJunit.

(** ** Clearing the terminal *)

Module ClearTerminal.

(** The sequences that clear the screen and the scroll-back buffer, and
    that send the cursor home. *)
Definition CLEAR : string :=
  String ESC "[2J" ++ String ESC "[0f" ++ String ESC "[3J".
Definition HOME : string := String ESC "[H".

(** What [clearTerminal] leaves: the chunks written to [process.stdout]
    and the commands given to [execSync]. *)
Record screen := {
  stdout : list string;
  commands : list string
}.

Definition write (chunk : string) (s : screen) : screen :=
  {| stdout := stdout s ++ [chunk]; commands := commands s |}.

(** [clearTerminal] of utils/index.js, for [process.platform] and for what
    [execSync('cls', ...)] does when it is called. *)
Definition clearTerminal (platform : string) (cls : outcome unit) (s : screen)
    : outcome screen :=
  let cleared :=
    if String.eqb platform "win32" then
      let s := {| stdout := stdout s; commands := commands s ++ ["cls"%string] |} in
      match cls with
      | Returns _ => Returns s
      | Throws _ => Returns (write CLEAR s)
      end
    else Returns (write CLEAR s) in
  match cleared with
  | Returns s => Returns (write HOME s)
  | Throws e => Throws e
  end.

(** [X23]  [clearTerminal], which [run] calls outside its [try] block,
    never throws: a failure of [cls] on Windows is caught and answered
    with the escape sequence the other platforms get.  It always ends by
    sending the cursor home; [cls] is run on Windows only, at most once;
    and the clearing sequence is written exactly when [cls] has not
    cleared the screen. *)
Theorem clearTerminal_returns (platform : string) (cls : outcome unit) (s : screen) :
  let windows := bool_decide (platform = "win32"%string) in
  let cls_done := match cls with Returns _ => true | Throws _ => false end in
  clearTerminal platform cls s
  = Returns {| stdout := stdout s ++ (if windows && cls_done then [] else [CLEAR])
                           ++ [HOME];
               commands := commands s ++ (if windows then ["cls"%string] else []) |}
  ∧ (∀ failure,
       clearTerminal "win32" (Throws failure) s
       = match clearTerminal "linux" cls s with
         | Returns s' =>
             Returns {| stdout := stdout s'; commands := commands s' ++ ["cls"%string] |}
         | Throws e => Throws e
         end).
Proof.
  intros windows cls_done. subst windows cls_done. split.
  - unfold clearTerminal. destruct (String.eqb_spec platform "win32") as [->|Hne].
    + rewrite bool_decide_eq_true_2 by done.
      destruct cls; simpl; unfold write; simpl; by rewrite ?app_nil_r, <- ?app_assoc.
    + rewrite bool_decide_eq_false_2 by done. simpl. unfold write. simpl.
      by rewrite ?app_nil_r, <- ?app_assoc.
  - intros failure. reflexivity.
Qed.

End ClearTerminal.
